(** * Aggregation and selection engine of the market visualisations

    A shallow embedding of [website/visualization.js]: the sector treemap
    (first script) and [renderMarketViz] (second script), restricted to the
    data path: parsing of cell values, grouping, normalisation and rank
    selection.  Rendering (DOM, SVG, scales) is not modelled.

    Modelling conventions.
    - A JavaScript number is an exact rational extended with [NaN] and the
      two infinities.  Rounding, overflow to infinity and the sign of zero
      are not modelled: no statement below asserts an identity of exact
      arithmetic, such as shares adding up to exactly 1, that rounding
      would break.
    - A string is a sequence of code units below 256.
    - A CSV row is a finite mapping from column name to cell text; reading
      an absent column gives [None] (JavaScript's [undefined]).
    - A JavaScript [Map] is an association list in insertion order. *)

From Stdlib Require Import ZArith QArith Qcanon List String Ascii Bool Lia.
From Stdlib Require Import Sorted Permutation.
Import ListNotations.

Set Implicit Arguments.
Local Open Scope string_scope.
Local Open Scope Z_scope.
Local Open Scope list_scope.

(* ================================================================== *)
(** * The ECMAScript primitives the scripts rely on *)

Module JS.

(** ** Numbers *)

Inductive num : Type :=
| NaN
| NInf
| PInf
| Fin (q : Qc).

Definition zero : num := Fin (Q2Qc 0).
Definition one : num := Fin (Q2Qc 1).
Definition of_Z (z : Z) : num := Fin (Q2Qc (inject_Z z)).
Definition of_nat (n : nat) : num := of_Z (Z.of_nat n).
Definition ratio (n : Z) (d : positive) : num := Fin (Q2Qc (n # d)).

Definition Qc_ltb (a b : Qc) : bool :=
  match (a ?= b)%Qc with Lt => true | _ => false end.
Definition Qc_eqb (a b : Qc) : bool :=
  match (a ?= b)%Qc with Eq => true | _ => false end.

Definition isNaN (x : num) : bool :=
  match x with NaN => true | _ => false end.

Definition isFinite (x : num) : bool :=
  match x with Fin _ => true | _ => false end.

(** [x + y] *)
Definition add (x y : num) : num :=
  match x, y with
  | NaN, _ | _, NaN => NaN
  | PInf, NInf | NInf, PInf => NaN
  | PInf, _ | _, PInf => PInf
  | NInf, _ | _, NInf => NInf
  | Fin a, Fin b => Fin (a + b)
  end.

(** [-x] *)
Definition neg (x : num) : num :=
  match x with
  | NaN => NaN
  | NInf => PInf
  | PInf => NInf
  | Fin a => Fin (- a)
  end.

(** [x / y]; a zero divisor is taken as the positive zero. *)
Definition div (x y : num) : num :=
  match x, y with
  | NaN, _ | _, NaN => NaN
  | (PInf | NInf), (PInf | NInf) => NaN
  | PInf, Fin b => if Qc_ltb b (Q2Qc 0) then NInf else PInf
  | NInf, Fin b => if Qc_ltb b (Q2Qc 0) then PInf else NInf
  | Fin _, (PInf | NInf) => zero
  | Fin a, Fin b =>
      if Qc_eqb b (Q2Qc 0) then
        if Qc_eqb a (Q2Qc 0) then NaN
        else if Qc_ltb a (Q2Qc 0) then NInf else PInf
      else Fin (a / b)
  end.

(** [x < y] *)
Definition ltb (x y : num) : bool :=
  match x, y with
  | NaN, _ | _, NaN => false
  | _, NInf => false
  | NInf, _ => true
  | PInf, _ => false
  | Fin _, PInf => true
  | Fin a, Fin b => Qc_ltb a b
  end.

(** [x == y] on numbers *)
Definition eqb (x y : num) : bool :=
  match x, y with
  | NInf, NInf | PInf, PInf => true
  | Fin a, Fin b => Qc_eqb a b
  | _, _ => false
  end.

(** [x > y], [x >= y], [x <= y] *)
Definition gtb (x y : num) : bool := ltb y x.
Definition geb (x y : num) : bool := ltb y x || eqb x y.
Definition leb (x y : num) : bool := ltb x y || eqb x y.

(** [Math.abs] *)
Definition abs (x : num) : num :=
  match x with
  | NaN => NaN
  | NInf | PInf => PInf
  | Fin a => if Qc_ltb a (Q2Qc 0) then Fin (- a) else Fin a
  end.

(** ToBoolean on a number: [NaN] and zero are falsy. *)
Definition truthy (x : num) : bool :=
  match x with
  | NaN => false
  | Fin a => negb (Qc_eqb a (Q2Qc 0))
  | _ => true
  end.

(** [x || d] on numbers *)
Definition or_else (x d : num) : num := if truthy x then x else d.

(** ** Strings *)

Definition code (c : ascii) : N := N_of_ascii c.

(** WhiteSpace and LineTerminator code units below 256: TAB, LF, VT, FF,
    CR, SP and NBSP. *)
Definition is_ws (c : ascii) : bool :=
  let n := code c in
  ((9 <=? n) && (n <=? 13) || (n =? 32) || (n =? 160))%N.

Fixpoint trimStart (s : string) : string :=
  match s with
  | String c r => if is_ws c then trimStart r else s
  | EmptyString => EmptyString
  end.

Fixpoint trimEnd (s : string) : string :=
  match s with
  | String c r =>
      match trimEnd r with
      | EmptyString => if is_ws c then EmptyString else String c EmptyString
      | r' => String c r'
      end
  | EmptyString => EmptyString
  end.

(** [s.trim()] *)
Definition trim (s : string) : string := trimEnd (trimStart s).

Definition lower (c : ascii) : ascii :=
  let n := code c in
  if ((65 <=? n) && (n <=? 90)
      || (192 <=? n) && (n <=? 222) && negb (n =? 215))%N
  then ascii_of_N (n + 32) else c.

(** [s.toLowerCase()] *)
Fixpoint toLowerCase (s : string) : string :=
  match s with
  | String c r => String (lower c) (toLowerCase r)
  | EmptyString => EmptyString
  end.

(** [s.replace(c, "")] for a one-character pattern: the first occurrence
    only. *)
Fixpoint remove_first (c : ascii) (s : string) : string :=
  match s with
  | String d r => if Ascii.eqb c d then r else String d (remove_first c r)
  | EmptyString => EmptyString
  end.

(** [s.replace(/c/g, "")]: every occurrence. *)
Fixpoint remove_all (c : ascii) (s : string) : string :=
  match s with
  | String d r =>
      if Ascii.eqb c d then remove_all c r else String d (remove_all c r)
  | EmptyString => EmptyString
  end.

(** ** Numeric literals *)

Definition digit_in (base : Z) (c : ascii) : option Z :=
  let n := Z.of_N (code c) in
  let v := if (48 <=? n) && (n <=? 57) then n - 48
           else if (97 <=? n) && (n <=? 102) then n - 87
           else if (65 <=? n) && (n <=? 70) then n - 55
           else base in
  if v <? base then Some v else None.

(** Longest run of digits: accumulated value, number of digits, rest. *)
Fixpoint scan_digits (base : Z) (s : string) (acc : Z) (len : nat)
  : Z * nat * string :=
  match s with
  | String c r =>
      match digit_in base c with
      | Some d => scan_digits base r (base * acc + d) (S len)
      | None => (acc, len, s)
      end
  | EmptyString => (acc, len, s)
  end.

(** ExponentPart, when one is there in full. *)
Definition scan_exponent (s : string) : Z * string :=
  match s with
  | String c r =>
      if Ascii.eqb c "e" || Ascii.eqb c "E" then
        let '(sgn, r1) :=
          match r with
          | String "+" r' => (1, r')
          | String "-" r' => (-1, r')
          | _ => (1, r)
          end in
        let '(v, n, r2) := scan_digits 10 r1 0 0 in
        match n with O => (0, s) | S _ => (sgn * v, r2) end
      else (0, s)
  | EmptyString => (0, s)
  end.

Definition pow10 (e : Z) : Qc :=
  if 0 <=? e then Q2Qc (inject_Z (10 ^ e))
  else Q2Qc (/ inject_Z (10 ^ (- e))).

Definition decimal (m : Z) (e : Z) : num :=
  Fin (Q2Qc (inject_Z m) * pow10 e).

(** Longest prefix that is a StrUnsignedDecimalLiteral. *)
Definition scan_unsigned (s : string) : option (num * string) :=
  if String.prefix "Infinity" s then
    Some (PInf, String.substring 8 (String.length s - 8)%nat s)
  else
    let '(i, ni, r1) := scan_digits 10 s 0 0 in
    match r1 with
    | String "." r' =>
        let '(f, nf, r2) := scan_digits 10 r' i 0 in
        match ni, nf with
        | O, O => None
        | _, _ =>
            let '(e, r3) := scan_exponent r2 in
            Some (decimal f (e - Z.of_nat nf), r3)
        end
    | _ =>
        match ni with
        | O => None
        | S _ =>
            let '(e, r3) := scan_exponent r1 in
            Some (decimal i e, r3)
        end
    end.

(** Longest prefix that is a StrDecimalLiteral. *)
Definition scan_decimal (s : string) : option (num * string) :=
  match s with
  | String "+" r => scan_unsigned r
  | String "-" r =>
      match scan_unsigned r with
      | Some (v, r') => Some (neg v, r')
      | None => None
      end
  | _ => scan_unsigned s
  end.

(** [parseFloat(s)] *)
Definition parseFloat (s : string) : num :=
  match scan_decimal (trimStart s) with
  | Some (v, _) => v
  | None => NaN
  end.

Definition radix_literal (base : Z) (s : string) : num :=
  match scan_digits base s 0 0 with
  | (v, S _, EmptyString) => of_Z v
  | _ => NaN
  end.

(** StringToNumber: [+s] and [Number(s)] on a string. *)
Definition string_to_number (s : string) : num :=
  match trim s with
  | EmptyString => zero
  | String "0" (String ("x" | "X") r) => radix_literal 16 r
  | String "0" (String ("o" | "O") r) => radix_literal 8 r
  | String "0" (String ("b" | "B") r) => radix_literal 2 r
  | t =>
      match scan_decimal t with
      | Some (v, EmptyString) => v
      | _ => NaN
      end
  end.

(** [+v] on a cell that may be [undefined]. *)
Definition to_number (v : option string) : num :=
  match v with
  | Some s => string_to_number s
  | None => NaN
  end.

(** ** Maps

    [new Map()], [get] and [set]; iteration follows insertion order and
    [set] on a key already there keeps its position. *)

Section Maps.
Variables K V : Type.
Variable K_eqb : K -> K -> bool.

Definition Map := list (K * V).

Fixpoint map_get (k : K) (m : Map) : option V :=
  match m with
  | (k', v) :: m' => if K_eqb k k' then Some v else map_get k m'
  | [] => None
  end.

Fixpoint map_set (k : K) (v : V) (m : Map) : Map :=
  match m with
  | (k', v') :: m' =>
      if K_eqb k k' then (k', v) :: m' else (k', v') :: map_set k v m'
  | [] => [(k, v)]
  end.

Definition map_keys (m : Map) : list K := map fst m.
Definition map_values (m : Map) : list V := map snd m.
End Maps.

(** Keys that may be [undefined]. *)
Definition key_eqb (a b : option string) : bool :=
  match a, b with
  | Some x, Some y => String.eqb x y
  | None, None => true
  | _, _ => false
  end.

(** ** Arrays *)

(** [arr.slice(0, n)] for a length [n] within the natural numbers. *)
Definition slice0 {A} (n : nat) (arr : list A) : list A := firstn n arr.

Section Sort.
Variable A : Type.
Variable comparefn : A -> A -> num.

(** SortCompare: a [NaN] from the comparator counts as [+0]. *)
Definition sort_gt (a b : A) : bool := ltb zero (comparefn a b).

Fixpoint sort_insert (x : A) (l : list A) : list A :=
  match l with
  | y :: l' => if sort_gt x y then y :: sort_insert x l' else x :: l
  | [] => [x]
  end.

(** [arr.sort(comparefn)]: the stable sort; with a consistent comparator
    its result is the only one the language allows (see
    [sort_spec_unique] below). *)
Definition sort (arr : list A) : list A := fold_right sort_insert [] arr.
End Sort.

End JS.

(** A parsed CSV row: column name to cell text. *)
Definition Row := list (string * string).

(** [d[col]]: [None] stands for [undefined]. *)
Fixpoint field (d : Row) (col : string) : option string :=
  match d with
  | (c, v) :: d' => if String.eqb col c then Some v else field d' col
  | [] => None
  end.

(** [v || dflt] on a string that may be [undefined]. *)
Definition str_or (v : option string) (dflt : string) : string :=
  match v with
  | Some EmptyString | None => dflt
  | Some s => s
  end.

(* ================================================================== *)
(** * The d3-array functions the scripts call *)

Module D3.
Import JS.

(** [d3.sum(values, valueof)]: falsy values (zero, [NaN]) are skipped. *)
Definition sum {A} (values : list A) (valueof : A -> num) : num :=
  fold_left
    (fun acc d => let value := valueof d in
                  if truthy value then add acc value else acc)
    values zero.

(** [d3.mean(values, valueof)]: the mean of the values that are numbers,
    [undefined] when there is none. *)
Definition mean {A} (values : list A) (valueof : A -> num) : option num :=
  let '(count, total) :=
    fold_left
      (fun '(count, total) d =>
         let value := valueof d in
         if geb value value then (S count, add total value)
         else (count, total))
      values (O, zero) in
  match count with
  | O => None
  | S _ => Some (div total (of_nat count))
  end.

(** [d3.ascending(a, b)] and [d3.descending(a, b)] on numbers. *)
Definition ascending (a b : num) : num :=
  if ltb a b then of_Z (-1)
  else if gtb a b then of_Z 1
  else if geb a b then zero else NaN.

Definition descending (a b : num) : num :=
  if ltb b a then of_Z (-1)
  else if gtb b a then of_Z 1
  else if geb b a then zero else NaN.

Section Rollup.
Variables A K R : Type.
Variable K_eqb : K -> K -> bool.

(** The grouping pass of [d3.rollup]: one array per key, keys in order
    of first appearance, rows in input order. *)
Definition group_push (keyof : A -> K) (groups : Map K (list A)) (value : A)
  : Map K (list A) :=
  let key := keyof value in
  match map_get K_eqb key groups with
  | Some g => map_set K_eqb key (g ++ [value]) groups
  | None => map_set K_eqb key [value] groups
  end.

Definition group (values : list A) (keyof : A -> K) : Map K (list A) :=
  fold_left (group_push keyof) values [].

(** [d3.rollup(values, reduce, key)] *)
Definition rollup (values : list A) (reduce : list A -> R) (keyof : A -> K)
  : Map K R :=
  map (fun '(key, g) => (key, reduce g)) (group values keyof).
End Rollup.

End D3.

(* ================================================================== *)
(** * The sector treemap (first script) *)

Module Treemap.
Import JS.

(** Helper to safely parse numbers with commas. *)
Definition parseNumber (v : option string) : num :=
  match v with
  | None | Some EmptyString => NaN
  | Some s => string_to_number (remove_all "," s)
  end.

(** ticker -> sector mapping from the companies file *)
Definition sectorByTicker (companyRows : list Row)
  : Map (option string) string :=
  fold_left
    (fun m d =>
       map_set key_eqb (field d "ticker")
               (str_or (field d "sector") "Unknown") m)
    companyRows [].

Definition sectorKey (companyRows : list Row) (r : Row) : string :=
  str_or (map_get key_eqb (field r "symbol") (sectorByTicker companyRows))
         "Unknown".

Record SectorStats := {
  totalLiquidity : num;
  sector_avgChange : option num;
  sector_count : nat
}.

Definition vol_of (r : Row) : num := or_else (to_number (field r "vol_")) zero.
Definition chg_of (r : Row) : num := or_else (to_number (field r "chg_%")) zero.

Definition sectorReduce (rows : list Row) : SectorStats :=
  {| totalLiquidity := D3.sum rows vol_of;
     sector_avgChange := D3.mean rows chg_of;
     sector_count := List.length rows |}.

(** STOCKS: aggregate by sector, keep raw liquidity *)
Definition sectorAgg (companyRows stockRows : list Row)
  : Map string SectorStats :=
  D3.rollup String.eqb stockRows sectorReduce (sectorKey companyRows).

(** A leaf before normalisation.  [symbol] is [None] on a stock leaf. *)
Record Leaf := {
  name : option string;
  symbol : option string;
  type : string;
  rawValue : num;
  avgChange : option num;
  count : nat
}.

(** [{...d, value}] *)
Record Node := {
  leaf : Leaf;
  value : num
}.

Definition rawPositive (d : Leaf) : bool := gtb (rawValue d) zero.

Definition stockChildrenRaw (companyRows stockRows : list Row) : list Leaf :=
  filter rawPositive
    (map (fun '(sector, stats) =>
            {| name := Some sector;
               symbol := None;
               type := "Stocks";
               rawValue := totalLiquidity stats;
               avgChange := sector_avgChange stats;
               count := sector_count stats |})
         (sectorAgg companyRows stockRows)).

Definition partitionTotal (children : list Leaf) : num :=
  or_else (D3.sum children rawValue) one.

Definition stockTotal (companyRows stockRows : list Row) : num :=
  partitionTotal (stockChildrenRaw companyRows stockRows).

Definition normalize (total : num) (children : list Leaf) : list Node :=
  map (fun d => {| leaf := d; value := div (rawValue d) total |}) children.

(** Normalize so all stock sectors together sum to 1 *)
Definition stockChildren (companyRows stockRows : list Row) : list Node :=
  normalize (stockTotal companyRows stockRows)
            (stockChildrenRaw companyRows stockRows).

Record CoinStats := {
  coin_name : option string;
  coin_symbol : option string;
  totalCap : num;
  coin_avgChange : option num
}.

Definition cap_of (r : Row) : num := parseNumber (field r "market_cap").
Definition chg7d_of (r : Row) : num :=
  or_else (to_number (field r "chg_7d")) zero.

(** [rows[0]] is there for every group [d3.rollup] builds (see
    [group_nonempty]); the empty row stands for the other case. *)
Definition coinReduce (rows : list Row) : CoinStats :=
  let first := hd [] rows in
  {| coin_name := field first "name";
     coin_symbol := field first "symbol";
     totalCap := D3.sum rows cap_of;
     coin_avgChange := D3.mean rows chg7d_of |}.

(** group by coin symbol *)
Definition cryptoAgg (cryptoRows : list Row) : Map (option string) CoinStats :=
  D3.rollup key_eqb cryptoRows coinReduce (fun r => field r "symbol").

Definition cryptoChildrenRaw (cryptoRows : list Row) : list Leaf :=
  filter rawPositive
    (map (fun '(sym, stats) =>
            {| name := match coin_name stats with
                       | Some EmptyString | None => sym
                       | Some n => Some n
                       end;
               symbol := sym;
               type := "Crypto";
               rawValue := totalCap stats;
               avgChange := coin_avgChange stats;
               count := 1 |})
         (cryptoAgg cryptoRows)).

Definition cryptoTotal (cryptoRows : list Row) : num :=
  partitionTotal (cryptoChildrenRaw cryptoRows).

(** Normalize so all crypto coins together also sum to 1 *)
Definition cryptoChildren (cryptoRows : list Row) : list Node :=
  normalize (cryptoTotal cryptoRows) (cryptoChildrenRaw cryptoRows).

(** Hierarchical data for the treemap. *)
Record Category := {
  cat_name : string;
  cat_type : string;
  cat_children : list Node
}.

Record Tree := {
  tree_name : string;
  tree_children : list Category
}.

Definition treeData (stockRows cryptoRows companyRows : list Row) : Tree :=
  {| tree_name := "Assets";
     tree_children :=
       [ {| cat_name := "Stocks"; cat_type := "Stocks";
            cat_children := stockChildren companyRows stockRows |};
         {| cat_name := "Crypto"; cat_type := "Crypto";
            cat_children := cryptoChildren cryptoRows |} ] |}.

(** The total a category node gets from its leaves
    ([hierarchy.sum(d => d.value || 0)]). *)
Definition sumValues (children : list Node) : num :=
  fold_left (fun acc d => add acc (or_else (value d) zero)) children zero.

End Treemap.

(* ================================================================== *)
(** * [renderMarketViz] (second script) *)

Module MarketViz.
Import JS.

Inductive exn : Type :=
| TypeError.

(** A computation that returns or throws. *)
Inductive result (A : Type) : Type :=
| Ok (a : A)
| Throw (e : exn).
Arguments Ok {A} a.
Arguments Throw {A} e.

(** [for (const d of rows) { ... }] over a loop state. *)
Fixpoint for_of {S A} (body : S -> A -> result S) (rows : list A) (s : S)
  : result S :=
  match rows with
  | d :: rows' =>
      match body s d with
      | Ok s' => for_of body rows' s'
      | Throw e => Throw e
      end
  | [] => Ok s
  end.

Definition parsePct (s : option string) : num :=
  match s with
  | None | Some EmptyString => NaN
  | Some s => parseFloat (remove_first "+" (remove_first "%" s))
  end.

(** A running group; [g_name] is [None] on a stock group. *)
Record Group := {
  g_category : string;
  g_code : string;
  g_name : option string;
  sum : num;
  g_count : nat
}.

(** What distinguishes the two aggregation loops. *)
Record Dataset := {
  ds_category : string;
  ds_pct : string;    (* column of the percentage *)
  ds_ident : string;  (* column of the identifier *)
  ds_name : bool      (* whether the group records [d.name] *)
}.

Definition stockSet : Dataset :=
  {| ds_category := "Stock"; ds_pct := "chg_%"; ds_ident := "name";
     ds_name := false |}.

Definition cryptoSet : Dataset :=
  {| ds_category := "Crypto"; ds_pct := "chg_24h"; ds_ident := "symbol";
     ds_name := true |}.

(** One iteration of an aggregation loop.  [ident.trim()] on an absent
    identifier throws. *)
Definition foldRow (ds : Dataset) (groups : Map string Group) (d : Row)
  : result (Map string Group) :=
  let pct := parsePct (field d (ds_pct ds)) in
  if isNaN pct then Ok groups
  else
    match field d (ds_ident ds) with
    | None => Throw TypeError
    | Some ident =>
        let key := toLowerCase (trim ident) in
        let prettyName := trim ident in
        let group :=
          match map_get String.eqb key groups with
          | Some g => g
          | None =>
              {| g_category := ds_category ds;
                 g_code := prettyName;
                 g_name := if ds_name ds then field d "name" else None;
                 sum := zero;
                 g_count := 0 |}
          end in
        Ok (map_set String.eqb key
              {| g_category := g_category group;
                 g_code := g_code group;
                 g_name := g_name group;
                 sum := add (sum group) pct;
                 g_count := S (g_count group) |}
              groups)
    end.

Definition aggregate (ds : Dataset) (rows : list Row)
  : result (Map string Group) :=
  for_of (foldRow ds) rows [].

(** Aggregate stocks: average chg_% per normalized name *)
Definition stockGroups (stocksRaw : list Row) : result (Map string Group) :=
  aggregate stockSet stocksRaw.

(** Aggregate crypto: average chg_24h per symbol *)
Definition cryptoGroups (cryptoRaw : list Row) : result (Map string Group) :=
  aggregate cryptoSet cryptoRaw.

Record Aggregate := {
  id : string;
  category : string;
  code : string;
  name : option string;
  avgPct : num;
  absAvgPct : num;
  count : nat
}.

Definition summarize (ds : Dataset) (d : Group) : Aggregate :=
  let avg := div (sum d) (of_nat (g_count d)) in
  {| id := (ds_category ds ++ "|" ++ g_code d)%string;
     category := ds_category ds;
     code := g_code d;
     name := if ds_name ds then g_name d else None;
     avgPct := avg;
     absAvgPct := abs avg;
     count := g_count d |}.

Definition summaries (ds : Dataset) (groups : Map string Group)
  : list Aggregate :=
  map (summarize ds) (map_values groups).

Definition bind {A B} (r : result A) (f : A -> result B) : result B :=
  match r with
  | Ok a => f a
  | Throw e => Throw e
  end.

Definition stocks (stocksRaw : list Row) : result (list Aggregate) :=
  bind (stockGroups stocksRaw) (fun groups => Ok (summaries stockSet groups)).

Definition cryptos (cryptoRaw : list Row) : result (list Aggregate) :=
  bind (cryptoGroups cryptoRaw) (fun groups => Ok (summaries cryptoSet groups)).

(** Select top & bottom performers *)
Definition POS_N : nat := 10.
Definition NEG_N : nat := 10.

Definition byAvgDescending (a b : Aggregate) : num :=
  D3.descending (avgPct a) (avgPct b).
Definition byAvgAscending (a b : Aggregate) : num :=
  D3.ascending (avgPct a) (avgPct b).

Definition isGain (d : Aggregate) : bool := gtb (avgPct d) zero.
Definition isLoss (d : Aggregate) : bool := ltb (avgPct d) zero.

(** The body of [pickTopBottom], with the two bounds as arguments. *)
Definition pickTopBottomN (posN negN : nat) (arr : list Aggregate)
  : list Aggregate :=
  let positives :=
    slice0 posN (sort byAvgDescending (filter isGain arr)) in
  let negatives :=
    rev (slice0 negN (sort byAvgAscending (filter isLoss arr))) in
  let map :=
    fold_left (fun m d => map_set String.eqb (id d) d m)
              (positives ++ negatives) [] in
  map_values map.

Definition pickTopBottom (arr : list Aggregate) : list Aggregate :=
  pickTopBottomN POS_N NEG_N arr.

(** What the script goes on to draw. *)
Inductive Outcome : Type :=
| NoValidValues
| Panels (stocksSel cryptosSel : list Aggregate).

Definition select (stocks cryptos : list Aggregate) : Outcome :=
  match stocks, cryptos with
  | [], [] => NoValidValues
  | _, _ => Panels (pickTopBottom stocks) (pickTopBottom cryptos)
  end.

Definition renderMarketViz (stocksRaw cryptoRaw : list Row)
  : result (list Aggregate * list Aggregate * Outcome) :=
  bind (stocks stocksRaw) (fun st =>
  bind (cryptos cryptoRaw) (fun cr =>
  Ok (st, cr, select st cr))).

End MarketViz.

(* ================================================================== *)
(** * More of the language and of d3-array *)

Module JSMath.
Import JS.

(** [x - y] *)
Definition sub (x y : num) : num := add x (neg y).

(** [Math.max(x, y)] and [Math.max(...values)]: [NaN] as soon as one
    argument is, [-Infinity] for no argument. *)
Definition max2 (x y : num) : num :=
  if isNaN x || isNaN y then NaN else if ltb x y then y else x.

Definition Math_max (values : list num) : num := fold_left max2 values NInf.

(** [v ?? d] on a number that may be [undefined]. *)
Definition nullish (v : option num) (d : num) : num :=
  match v with
  | Some x => x
  | None => d
  end.

End JSMath.

Module D3Extent.
Import JS.

(** [d3.min(values)] and [d3.max(values)] on an array of numbers: [NaN]
    entries are passed over, and the result is [undefined] when nothing is
    left. *)
Definition min (values : list num) : option num :=
  fold_left
    (fun m value =>
       match m with
       | Some x => if gtb x value then Some value else m
       | None => if geb value value then Some value else None
       end)
    values None.

Definition max (values : list num) : option num :=
  fold_left
    (fun m value =>
       match m with
       | Some x => if ltb x value then Some value else m
       | None => if geb value value then Some value else None
       end)
    values None.

End D3Extent.

(* ================================================================== *)
(** * [renderMarketViz]: panel heights and the two x domains *)

Module Layout.
Import JS JSMath MarketViz.

Definition width : Z := 960.
Definition margin_top : Z := 50.
Definition margin_right : Z := 40.
Definition margin_bottom : Z := 40.
Definition margin_left : Z := 180.
(** vertical gap between stocks & crypto panels *)
Definition panelGap : Z := 50.

(** [Math.max(sel.length * 18 + 40, 140)] *)
Definition panelHeight (sel : list Aggregate) : Z :=
  Z.max (Z.of_nat (List.length sel) * 18 + 40) 140.

Definition stocksPanelHeight (stocksSel : list Aggregate) : Z :=
  panelHeight stocksSel.
Definition cryptoPanelHeight (cryptosSel : list Aggregate) : Z :=
  panelHeight cryptosSel.

Definition totalHeight (stocksSel cryptosSel : list Aggregate) : Z :=
  margin_top + stocksPanelHeight stocksSel
  + panelGap + cryptoPanelHeight cryptosSel
  + margin_bottom.

Definition innerWidth : Z := width - margin_left - margin_right.

(** The domain of a band scale: [sel.map(d => d.code)]. *)
Definition bandDomain (sel : list Aggregate) : list string := map code sel.

(** [Math.max(Math.abs(d3.min(values) ?? 0),
              Math.abs(d3.max(values) ?? 0), least)] *)
Definition maxAbs (least : num) (values : list num) : num :=
  Math_max [ abs (nullish (D3Extent.min values) zero);
             abs (nullish (D3Extent.max values) zero);
             least ].

Definition stockValues (stocksSel : list Aggregate) : list num :=
  map avgPct stocksSel.
(** at least +/-0.5% *)
Definition stockMaxAbs (stocksSel : list Aggregate) : num :=
  maxAbs (ratio 1 2) (stockValues stocksSel).

Definition cryptoValues (cryptosSel : list Aggregate) : list num :=
  map avgPct cryptosSel.
(** at least +/-1% *)
Definition cryptoMaxAbs (cryptosSel : list Aggregate) : num :=
  maxAbs one (cryptoValues cryptosSel).

(** The domain of a linear x scale, before [nice()]. *)
Definition xDomain (m : num) : num * num := (neg m, m).

End Layout.

(* ================================================================== *)
(** * The treemap: [d3.hierarchy(treeData).sum(...).sort(...)]

    The hierarchy of [treeData]: a root, its two categories, and the
    leaves of each.  A node whose datum has no child is given no
    [children], as the library does: a category without leaves is itself
    a leaf of the hierarchy. *)

Module Hierarchy.
Import JS JSMath Treemap.

Record LeafNode := {
  leaf_data : Node;
  leaf_value : num
}.

Record CategoryNode := {
  category_data : Category;
  category_children : list LeafNode;
  category_value : num
}.

Record RootNode := {
  root_data : Tree;
  root_children : list CategoryNode;
  root_value : num
}.

(** [d => d.value || 0] on the datum of a leaf; a datum without [value]
    gives 0. *)
Definition weight (n : Node) : num := or_else (value n) zero.
Definition noWeight : num := zero.

(** [node.sum]: [+weight || 0], to which the values of the children are
    added, the last child first. *)
Definition summed (own : num) (kids : list num) : num :=
  fold_left add (rev kids) (or_else own zero).

Definition sumLeaf (n : Node) : LeafNode :=
  {| leaf_data := n; leaf_value := summed (weight n) [] |}.

Definition sumCategory (c : Category) : CategoryNode :=
  let kids := map sumLeaf (cat_children c) in
  {| category_data := c;
     category_children := kids;
     category_value := summed noWeight (map leaf_value kids) |}.

Definition sumRoot (t : Tree) : RootNode :=
  let kids := map sumCategory (tree_children t) in
  {| root_data := t;
     root_children := kids;
     root_value := summed noWeight (map category_value kids) |}.

(** [(a, b) => (b.value || 0) - (a.value || 0)] *)
Definition byValue {A} (v : A -> num) (a b : A) : num :=
  sub (or_else (v b) zero) (or_else (v a) zero).

(** [node.sort]: the children of the root, then those of each
    category. *)
Definition sortCategory (c : CategoryNode) : CategoryNode :=
  {| category_data := category_data c;
     category_children := sort (byValue leaf_value) (category_children c);
     category_value := category_value c |}.

Definition sortRoot (r : RootNode) : RootNode :=
  {| root_data := root_data r;
     root_children :=
       map sortCategory (sort (byValue category_value) (root_children r));
     root_value := root_value r |}.

Definition root (stockRows cryptoRows companyRows : list Row) : RootNode :=
  sortRoot (sumRoot (treeData stockRows cryptoRows companyRows)).

(** [root.leaves()]: the nodes without children, in traversal order. *)
Inductive Drawn : Type :=
| LeafDrawn (parent : CategoryNode) (n : LeafNode)
| CategoryDrawn (c : CategoryNode).

Definition leavesOf (c : CategoryNode) : list Drawn :=
  match category_children c with
  | [] => [CategoryDrawn c]
  | kids => map (LeafDrawn c) kids
  end.

Definition leaves (r : RootNode) : list Drawn :=
  flat_map leavesOf (root_children r).

(** parent of leaf is Stocks or Crypto: the type the fill colour is taken
    from, that of the parent's datum, "Stocks" when it has none (the
    datum of the root has no type). *)
Definition topType (d : Drawn) : string :=
  match d with
  | LeafDrawn parent _ => str_or (Some (cat_type (category_data parent))) "Stocks"
  | CategoryDrawn _ => "Stocks"
  end.

End Hierarchy.

(* ================================================================== *)
(** * Notions the statements are written with *)

Module SortSpecs.
Import JS.

Section Spec.
Variable A : Type.
Variable comparefn : A -> A -> num.

Definition sort_lt (a b : A) : bool := ltb (comparefn a b) zero.

(** [a] and [b] compare equal. *)
Definition tie (a b : A) : bool :=
  negb (sort_lt a b) && negb (sort_gt comparefn a b).

(** No element is followed by one it should come after. *)
Definition InOrder (out : list A) : Prop :=
  StronglySorted (fun a b => sort_gt comparefn a b = false) out.

(** A result the language allows for [arr.sort(comparefn)]: a permutation
    of [arr], in order, in which elements that compare equal keep the
    order they had in [arr]. *)
Record SortSpec (arr out : list A) : Prop := {
  spec_perm : Permutation arr out;
  spec_order : InOrder out;
  spec_stable :
    forall x, In x arr -> filter (tie x) out = filter (tie x) arr
}.
End Spec.

End SortSpecs.

Module SelectorSpecs.
Import JS MarketViz SortSpecs.

(** [new Map()], [forEach(d => map.set(d.id, d))], [[...map.values()]]. *)
Definition uniqueById (l : list Aggregate) : list Aggregate :=
  map_values (fold_left (fun m d => map_set String.eqb (id d) d m) l []).

(** An aggregate with a given identity and mean. *)
Definition agg (i : string) (m : Z) : Aggregate :=
  {| id := i; category := "Stock"; code := i; name := None;
     avgPct := of_Z m; absAvgPct := abs (of_Z m); count := 1 |}.

(** Scenario C *)
Definition scenarioC : list Aggregate :=
  [agg "a" 5; agg "b" 3; agg "c" 1; agg "d" (-2); agg "e" (-7)].

(** A result of [pickTopBottom] under any sort the language allows. *)
Inductive picks (posN negN : nat) (arr : list Aggregate)
  : list Aggregate -> Prop :=
| picks_intro (sortedGains sortedLosses : list Aggregate) :
    SortSpec byAvgDescending (filter isGain arr) sortedGains ->
    SortSpec byAvgAscending (filter isLoss arr) sortedLosses ->
    picks posN negN arr
          (uniqueById (slice0 posN sortedGains
                       ++ rev (slice0 negN sortedLosses))).

(** The outcomes of the selection step and of [renderMarketViz], the sort
    being any the language allows. *)
Inductive selects (stocks cryptos : list Aggregate) : Outcome -> Prop :=
| selects_none :
    stocks = [] -> cryptos = [] -> selects stocks cryptos NoValidValues
| selects_panels (stocksSel cryptosSel : list Aggregate) :
    stocks <> [] \/ cryptos <> [] ->
    picks POS_N NEG_N stocks stocksSel ->
    picks POS_N NEG_N cryptos cryptosSel ->
    selects stocks cryptos (Panels stocksSel cryptosSel).

Inductive runs (stocksRaw cryptoRaw : list Row)
  : result (list Aggregate * list Aggregate * Outcome) -> Prop :=
| runs_stocks_throw (e : exn) :
    stocks stocksRaw = Throw e -> runs stocksRaw cryptoRaw (Throw e)
| runs_cryptos_throw (st : list Aggregate) (e : exn) :
    stocks stocksRaw = Ok st -> cryptos cryptoRaw = Throw e ->
    runs stocksRaw cryptoRaw (Throw e)
| runs_ok (st cr : list Aggregate) (o : Outcome) :
    stocks stocksRaw = Ok st -> cryptos cryptoRaw = Ok cr ->
    selects st cr o ->
    runs stocksRaw cryptoRaw (Ok (st, cr, o)).

End SelectorSpecs.

Module AggregatorSpecs.
Import JS MarketViz.

(** The percentage a row carries and the key it is grouped under. *)
Definition pctOf (ds : Dataset) (d : Row) : num :=
  parsePct (field d (ds_pct ds)).

Definition keyOf (ds : Dataset) (d : Row) : option string :=
  match field d (ds_ident ds) with
  | Some ident => Some (toLowerCase (trim ident))
  | None => None
  end.

(** Text made of white space only. *)
Fixpoint blank (s : string) : bool :=
  match s with
  | String c r => is_ws c && blank r
  | EmptyString => true
  end.

(** Two texts that differ in the case of their letters only: character by
    character they are equal, or one is the lower-case form of the
    other. *)
Inductive caseVariant : string -> string -> Prop :=
| caseVariant_empty : caseVariant EmptyString EmptyString
| caseVariant_char (c1 c2 : ascii) (r1 r2 : string) :
    (c1 = c2 \/ lower c1 = c2 \/ c1 = lower c2) ->
    caseVariant r1 r2 ->
    caseVariant (String c1 r1) (String c2 r2).

(** Two identifiers that differ only in case or surrounding white
    space. *)
Definition alike (i1 i2 : string) : Prop :=
  exists lead1 core1 trail1 lead2 core2 trail2 : string,
    i1 = (lead1 ++ core1 ++ trail1)%string
    /\ i2 = (lead2 ++ core2 ++ trail2)%string
    /\ blank lead1 = true /\ blank trail1 = true
    /\ blank lead2 = true /\ blank trail2 = true
    /\ caseVariant core1 core2.

(** [d] is a row folded into the group of key [k]. *)
Definition member (ds : Dataset) (k : string) (d : Row) : bool :=
  negb (isNaN (pctOf ds d))
  && match keyOf ds d with
     | Some k' => String.eqb k' k
     | None => false
     end.

Definition members (ds : Dataset) (k : string) (rows : list Row) : list Row :=
  filter (member ds k) rows.

(** The group object a row creates when its key is new. *)
Definition fresh (ds : Dataset) (d : Row) : Group :=
  {| g_category := ds_category ds;
     g_code := match field d (ds_ident ds) with
               | Some ident => trim ident
               | None => EmptyString
               end;
     g_name := if ds_name ds then field d "name" else None;
     sum := zero;
     g_count := 0 |}.

(** [group.sum += pct; group.count += 1] *)
Definition bump (g : Group) (pct : num) : Group :=
  {| g_category := g_category g;
     g_code := g_code g;
     g_name := g_name g;
     sum := add (sum g) pct;
     g_count := S (g_count g) |}.

Definition stepGroup (ds : Dataset) (og : option Group) (d : Row)
  : option Group :=
  Some (bump (match og with Some g => g | None => fresh ds d end)
             (pctOf ds d)).

(** The group that folding the rows [ms] builds, from [og]. *)
Definition built (ds : Dataset) (og : option Group) (ms : list Row)
  : option Group :=
  fold_left (stepGroup ds) ms og.

(** Scenario A *)
Definition scenarioA : list Row :=
  [ [("name", "AAA"); ("chg_%", "+2.00%")];
    [("name", "aaa"); ("chg_%", "-1.00%")] ].

(** A stock row whose name is blank, one with no name at all, and two rows
    of one group, the first padded. *)
Definition blankRow : Row := [("name", "  "); ("chg_%", "+1%")].
Definition namelessRow : Row := [("chg_%", "+1%")].

Definition paddedRows : list Row :=
  [ [("name", " AAA "); ("chg_%", "1")];
    [("name", "aaa"); ("chg_%", "3")] ].

End AggregatorSpecs.

Module RollupSpecs.
Import JS.

Section Keyed.
Variables A K : Type.
Variable K_eqb : K -> K -> bool.
Variable keyof : A -> K.

(** The rows of key [k], in input order. *)
Definition keyed (k : K) (values : list A) : list A :=
  filter (fun v => K_eqb (keyof v) k) values.

End Keyed.

Definition extend {A} (og : option (list A)) (l : list A) : option (list A) :=
  match l with
  | [] => og
  | _ :: _ => Some (match og with Some g => g ++ l | None => l end)
  end.

End RollupSpecs.

Module TreemapSpecs.
Import JS Treemap.

(** The companies row that decides the sector of a ticker: the last one
    carrying it. *)
Definition companyOf (companyRows : list Row) (ticker : option string)
  : option Row :=
  find (fun c => key_eqb (field c "ticker") ticker) (rev companyRows).

(** The stock rows of a sector. *)
Definition sectorRows (companyRows stockRows : list Row) (sector : string)
  : list Row :=
  filter (fun r => String.eqb (sectorKey companyRows r) sector) stockRows.

(** Two rows of one coin, and two stock rows of one ticker. *)
Definition twoCoinRows : list Row :=
  [ [("symbol", "BTC"); ("name", "Bitcoin"); ("market_cap", "1,000")];
    [("symbol", "BTC"); ("name", "Bitcoin"); ("market_cap", "3,000")] ].
Definition twoStockRows : list Row :=
  [ [("symbol", "AAA"); ("vol_", "10")];
    [("symbol", "AAA"); ("vol_", "30")] ].

(** The rational behind a finite raw value. *)
Definition raw_q (d : Leaf) : Qc :=
  match rawValue d with Fin q => q | _ => 0%Qc end.

Definition total_q (children : list Leaf) : Qc :=
  fold_right (fun d t => (raw_q d + t)%Qc) 0%Qc children.

Definition PosFinite (d : Leaf) : Prop :=
  exists q, rawValue d = Fin q /\ (0 < q)%Qc.

(** What the Value Normalizer guarantees of one partition: [raw] are the
    leaves kept by the [rawValue > 0] filter, [total] the divisor and
    [children] the emitted nodes. *)
Definition Normalized (raw : list Leaf) (total : num) (children : list Node)
  : Prop :=
  (* one node per kept leaf, in order, each with value = rawValue / total *)
  map leaf children = raw
  /\ (forall n, In n children ->
       gtb (rawValue (leaf n)) zero = true
       /\ value n = div (rawValue (leaf n)) total)
  (* the divisor is the sum of the raw values, or 1 when that is falsy *)
  /\ total = or_else (D3.sum raw rawValue) one
  /\ total <> zero
  (* nothing kept: the divisor is 1 and nothing is emitted *)
  /\ (raw = [] -> total = one /\ children = []).

(** Scenario B: two sectors with raw volumes 300 and 100. *)
Definition companiesB : list Row :=
  [ [("ticker", "AAA"); ("sector", "Tech")];
    [("ticker", "BBB"); ("sector", "Energy")] ].
Definition stocksB : list Row :=
  [ [("symbol", "AAA"); ("vol_", "300"); ("chg_%", "1.5")];
    [("symbol", "BBB"); ("vol_", "100"); ("chg_%", "-0.5")] ].

(** A stock row whose volume cell reads Infinity. *)
Definition infiniteVolumeRows : list Row :=
  [ [("symbol", "AAA"); ("vol_", "Infinity")] ].

(** A stock row whose ticker no companies row carries. *)
Definition orphanRows : list Row := [ [("symbol", "ZZZ"); ("vol_", "5")] ].

End TreemapSpecs.

Module PipelineSpecs.
Import JS MarketViz.

Definition infiniteRow : Row := [("name", "AAA"); ("chg_%", "Infinity")].
Definition plainRow : Row :=
  [("symbol", "AAA"); ("vol_", "100"); ("chg_%", "2")].
Definition dashRow : Row :=
  [("symbol", "AAA"); ("vol_", "n/a"); ("chg_%", "n/a")].

End PipelineSpecs.

Module CoverageSpecs.
Import JS MarketViz AggregatorSpecs.

(** The keys of a list in the order in which each first appears. *)
Definition firsts (keys : list string) : list string :=
  fold_left
    (fun seen k => if existsb (String.eqb k) seen then seen else seen ++ [k])
    keys [].

(** The rows an aggregation loop folds, and the keys they are folded
    under. *)
Definition parsable (ds : Dataset) (d : Row) : bool :=
  negb (isNaN (pctOf ds d)).

Definition foldedKeys (ds : Dataset) (rows : list Row) : list string :=
  flat_map (fun d => match keyOf ds d with Some k => [k] | None => [] end)
           (filter (parsable ds) rows).

(** A row with a parsable percentage and no identifier. *)
Definition nameless (ds : Dataset) (d : Row) : Prop :=
  isNaN (pctOf ds d) = false /\ field d (ds_ident ds) = None.

Definition counts (groups : Map string Group) : list nat :=
  map (fun g => g_count g) (map_values groups).

(** A number that is not [NaN]. *)
Definition numeric (x : num) : Prop := isNaN x = false.

(** [firsts] for keys of any kind. *)
Definition firstsBy {K} (K_eqb : K -> K -> bool) (keys : list K) : list K :=
  fold_left
    (fun seen k => if existsb (K_eqb k) seen then seen else seen ++ [k])
    keys [].

(** The rows of a coin, and the stock leaf and the coin leaf the treemap
    builds for a key before it filters. *)
Definition coinRows (cryptoRows : list Row) (sym : option string)
  : list Row :=
  filter (fun r => key_eqb (field r "symbol") sym) cryptoRows.

Definition sectorLeaf (companyRows stockRows : list Row) (sector : string)
  : Treemap.Leaf :=
  let stats :=
    Treemap.sectorReduce
      (filter (fun r => String.eqb (Treemap.sectorKey companyRows r) sector)
              stockRows) in
  {| Treemap.name := Some sector;
     Treemap.symbol := None;
     Treemap.type := "Stocks";
     Treemap.rawValue := Treemap.totalLiquidity stats;
     Treemap.avgChange := Treemap.sector_avgChange stats;
     Treemap.count := Treemap.sector_count stats |}.

(** What the comparator of the hierarchy orders by. *)
Definition orZero {A} (v : A -> num) (a : A) : num := or_else (v a) zero.

(** The two categories of [treeData]. *)
Definition stocksCategory (companyRows stockRows : list Row)
  : Treemap.Category :=
  {| Treemap.cat_name := "Stocks"; Treemap.cat_type := "Stocks";
     Treemap.cat_children := Treemap.stockChildren companyRows stockRows |}.

Definition cryptoCategory (cryptoRows : list Row) : Treemap.Category :=
  {| Treemap.cat_name := "Crypto"; Treemap.cat_type := "Crypto";
     Treemap.cat_children := Treemap.cryptoChildren cryptoRows |}.

Definition coinLeaf (cryptoRows : list Row) (sym : option string)
  : Treemap.Leaf :=
  let stats := Treemap.coinReduce (coinRows cryptoRows sym) in
  {| Treemap.name := match Treemap.coin_name stats with
                     | Some EmptyString | None => sym
                     | Some n => Some n
                     end;
     Treemap.symbol := sym;
     Treemap.type := "Crypto";
     Treemap.rawValue := Treemap.totalCap stats;
     Treemap.avgChange := Treemap.coin_avgChange stats;
     Treemap.count := 1 |}.

End CoverageSpecs.

Module ParseSpecs.
Import JS.

(** Decimal numerals: the text of a list of digits and its value. *)
Definition digitChar (d : nat) : ascii := ascii_of_nat (48 + d).

Fixpoint numeral (ds : list nat) : string :=
  match ds with
  | d :: ds' => String (digitChar d) (numeral ds')
  | [] => EmptyString
  end.

Definition numeralValue (ds : list nat) : Z :=
  fold_left (fun acc d => 10 * acc + Z.of_nat d) ds 0.

Definition digits (ds : list nat) : Prop := Forall (fun d => (d < 10)%nat) ds.

(** A numeral with thousands separators put anywhere: [None] is a
    comma. *)
Fixpoint grouped (ts : list (option nat)) : string :=
  match ts with
  | Some d :: ts' => String (digitChar d) (grouped ts')
  | None :: ts' => String "," (grouped ts')
  | [] => EmptyString
  end.

Definition digitsOf (ts : list (option nat)) : list nat :=
  flat_map (fun t => match t with Some d => [d] | None => [] end) ts.

(** A percentage cell: a sign or none, an integer part, a fraction or
    none, a percent sign or none. *)
Inductive Sign : Type := NoSign | Plus | Minus.

Definition signText (sg : Sign) : string :=
  match sg with NoSign => "" | Plus => "+" | Minus => "-" end.

Definition fractionText (frac : option (list nat)) : string :=
  match frac with
  | Some fs => String "." (numeral fs)
  | None => EmptyString
  end.

Definition fractionDigits (frac : option (list nat)) : list nat :=
  match frac with Some fs => fs | None => [] end.

Definition percentCell (sg : Sign) (int : list nat) (frac : option (list nat))
           (pct : bool) : string :=
  (signText sg ++ numeral int ++ fractionText frac
   ++ if pct then "%" else "")%string.

(** The cell without its sign and its percent sign. *)
Definition percentBody (int : list nat) (frac : option (list nat)) : string :=
  (numeral int ++ fractionText frac)%string.

(** A number under a sign: negated under a minus. *)
Definition signed (sg : Sign) (v : num) : num :=
  match sg with Minus => neg v | _ => v end.

(** The integers every one of which is a number of the language. *)
Definition safeInteger : Z := 2 ^ 53.

(** Where a run of digits stops. *)
Definition stops (rest : string) : Prop :=
  match rest with
  | String c _ => digit_in 10 c = None
  | EmptyString => True
  end.

End ParseSpecs.

(* ================================================================== *)
(** * Facts about the primitives *)

Module JSFacts.
Import JS.
Local Open Scope Qc_scope.

Lemma Qc_ltb_lt (a b : Qc) : Qc_ltb a b = true <-> a < b.
Proof.
  unfold Qc_ltb. rewrite Qclt_alt.
  destruct (a ?= b); intuition congruence.
Qed.

Lemma Qc_eqb_eq (a b : Qc) : Qc_eqb a b = true <-> a = b.
Proof.
  unfold Qc_eqb. rewrite Qceq_alt.
  destruct (a ?= b); intuition congruence.
Qed.

Lemma Qc_eqb_refl (a : Qc) : Qc_eqb a a = true.
Proof. now apply Qc_eqb_eq. Qed.

Lemma Qc_ltb_irrefl (a : Qc) : Qc_ltb a a = false.
Proof.
  destruct (Qc_ltb a a) eqn:E; [|reflexivity].
  apply Qc_ltb_lt in E. now apply Qclt_not_eq in E.
Qed.

Lemma Qc_eqb_neq (a b : Qc) : Qc_eqb a b = false <-> a <> b.
Proof.
  rewrite <- Qc_eqb_eq. destruct (Qc_eqb a b); intuition congruence.
Qed.

Lemma gtb_zero_Fin (x : num) :
  gtb x zero = true -> isFinite x = true ->
  exists q, x = Fin q /\ 0 < q.
Proof.
  destruct x; simpl; try discriminate.
  intros H _. exists q. split; [reflexivity|].
  now apply Qc_ltb_lt.
Qed.

Lemma truthy_pos (q : Qc) : 0 < q -> truthy (Fin q) = true.
Proof.
  intros H. simpl. apply negb_true_iff, Qc_eqb_neq.
  intros ->. now apply Qclt_not_eq in H.
Qed.

Lemma or_else_zero_Fin (q : Qc) : or_else (Fin q) zero = Fin q.
Proof.
  unfold or_else, truthy.
  destruct (Qc_eqb q 0) eqn:E; simpl; [|reflexivity].
  apply Qc_eqb_eq in E. now subst.
Qed.

Lemma div_Fin (a b : Qc) : b <> 0 -> div (Fin a) (Fin b) = Fin (a / b).
Proof.
  intros H. simpl. apply Qc_eqb_neq in H. now rewrite H.
Qed.

Lemma Qc_pos_add (a b : Qc) : 0 <= a -> 0 < b -> 0 < a + b.
Proof.
  intros Ha Hb.
  apply Qcle_lt_trans with (y := a); [assumption|].
  apply Qclt_minus_iff.
  replace (a + b + - a) with b by ring. assumption.
Qed.

(** Truthiness of a number. *)
Lemma truthy_false (x : num) : truthy x = false -> x = NaN \/ x = zero.
Proof.
  destruct x; simpl; try discriminate; auto.
  intros H. right. apply negb_false_iff, Qc_eqb_eq in H. now subst.
Qed.

Lemma or_else_one_nonzero (x : num) : or_else x one <> zero.
Proof.
  unfold or_else. destruct (truthy x) eqn:E.
  - intros ->. discriminate E.
  - intros H. discriminate H.
Qed.

(** Equality of closed numbers, up to the proof of canonicity a rational
    carries. *)
Ltac num_eq :=
  vm_compute;
  repeat match goal with
         | |- @eq Qc _ _ => apply Qc_is_canon; reflexivity
         | |- _ = _ => reflexivity
         | |- _ = _ => f_equal
         | |- _ /\ _ => split
         end.

(** ** The order on numbers *)

Lemma ltb_irrefl (x : num) : ltb x x = false.
Proof. destruct x; simpl; auto using Qc_ltb_irrefl. Qed.

Lemma ltb_asym (x y : num) : ltb x y = true -> ltb y x = false.
Proof.
  destruct x, y; simpl; try discriminate; auto.
  intros H. apply Qc_ltb_lt in H.
  destruct (Qc_ltb q0 q) eqn:E; [|reflexivity].
  apply Qc_ltb_lt in E. exfalso.
  apply (Qclt_not_eq q q); [|reflexivity]. eapply Qclt_trans; eassumption.
Qed.

Lemma ltb_trans (x y z : num) :
  ltb x y = true -> ltb y z = true -> ltb x z = true.
Proof.
  destruct x, y, z; simpl; try discriminate; auto.
  rewrite !Qc_ltb_lt. apply Qclt_trans.
Qed.

(** Of two numbers neither below the other, none being [NaN], each
    equals the other. *)
Lemma ltb_total (x y : num) :
  isNaN x = false -> isNaN y = false ->
  ltb x y = false -> ltb y x = false -> eqb x y = true.
Proof.
  destruct x, y; simpl; try discriminate; auto.
  intros _ _ H1 H2. apply Qc_eqb_eq.
  apply Qcle_antisym; apply Qcnot_lt_le; intros H;
    apply Qc_ltb_lt in H; congruence.
Qed.

Lemma ltb_negtrans (x y z : num) :
  isNaN y = false ->
  ltb x y = false -> ltb y z = false -> ltb x z = false.
Proof.
  destruct x, y, z; simpl; try discriminate; auto.
  intros _ H1 H2.
  destruct (Qc_ltb q q1) eqn:E; [|reflexivity].
  apply Qc_ltb_lt in E. exfalso.
  assert (L1 : q0 <= q)
    by (apply Qcnot_lt_le; intros H; apply Qc_ltb_lt in H; congruence).
  assert (L2 : q1 <= q0)
    by (apply Qcnot_lt_le; intros H; apply Qc_ltb_lt in H; congruence).
  apply (Qclt_not_le _ _ E). eapply Qcle_trans; eassumption.
Qed.

Lemma eqb_eq (x y : num) : eqb x y = true -> x = y.
Proof.
  destruct x, y; simpl; try discriminate; auto.
  intros H. apply Qc_eqb_eq in H. now subst.
Qed.

Lemma eqb_refl (x : num) : isNaN x = false -> eqb x x = true.
Proof. destruct x; simpl; try discriminate; auto using Qc_eqb_refl. Qed.

Lemma ltb_not_eqb (x y : num) : ltb x y = true -> eqb x y = false.
Proof.
  intros H. destruct (eqb x y) eqn:E; [|reflexivity].
  apply eqb_eq in E. subst. now rewrite ltb_irrefl in H.
Qed.

Lemma ltb_not_NaN (x y : num) :
  ltb x y = true -> isNaN x = false /\ isNaN y = false.
Proof. destruct x, y; simpl; try discriminate; auto. Qed.

Lemma ltb_neg (x y : num) : ltb (neg x) (neg y) = ltb y x.
Proof.
  destruct x, y; simpl; auto.
  destruct (Qc_ltb (- q) (- q0)) eqn:E1, (Qc_ltb q0 q) eqn:E2; auto; exfalso.
  - apply Qc_ltb_lt in E1.
    assert (L : q <= q0)
      by (apply Qcnot_lt_le; intros H; apply Qc_ltb_lt in H; congruence).
    apply Qcopp_le_compat in L. now apply (Qclt_not_le _ _ E1).
  - apply Qc_ltb_lt in E2.
    assert (L : - q0 <= - q)
      by (apply Qcnot_lt_le; intros H; apply Qc_ltb_lt in H; congruence).
    apply Qcopp_le_compat in L. rewrite !Qcopp_involutive in L.
    now apply (Qclt_not_le _ _ E2).
Qed.

Lemma isNaN_neg (x : num) : isNaN (neg x) = isNaN x.
Proof. now destruct x. Qed.

Lemma neg_inj (x y : num) : neg x = neg y -> x = y.
Proof.
  destruct x, y; simpl; try discriminate; auto.
  intros H. assert (E : (- q)%Qc = (- q0)%Qc) by congruence.
  f_equal. rewrite <- (Qcopp_involutive q), E. apply Qcopp_involutive.
Qed.

(** ** Maps *)

Section MapFacts.
Variables K V : Type.
Variable K_eqb : K -> K -> bool.
Hypothesis K_eqb_spec : forall a b, K_eqb a b = true <-> a = b.

Lemma K_eqb_refl (k : K) : K_eqb k k = true.
Proof. now apply K_eqb_spec. Qed.

Lemma K_eqb_neq (a b : K) : a <> b -> K_eqb a b = false.
Proof.
  intros H. destruct (K_eqb a b) eqn:E; [|reflexivity].
  now apply K_eqb_spec in E.
Qed.

Lemma map_get_set_eq (k : K) (v : V) (m : Map K V) :
  map_get K_eqb k (map_set K_eqb k v m) = Some v.
Proof.
  induction m as [|[k' v'] m IH]; simpl.
  - now rewrite K_eqb_refl.
  - destruct (K_eqb k k') eqn:E; simpl; rewrite E; auto.
Qed.

Lemma map_get_set_neq (k k' : K) (v : V) (m : Map K V) :
  k <> k' -> map_get K_eqb k (map_set K_eqb k' v m) = map_get K_eqb k m.
Proof.
  intros Hne. induction m as [|[k0 v0] m IH]; simpl.
  - now rewrite (K_eqb_neq Hne).
  - destruct (K_eqb k' k0) eqn:E; simpl.
    + apply K_eqb_spec in E. subst k0. now rewrite (K_eqb_neq Hne).
    + now rewrite IH.
Qed.

Lemma map_get_In (k : K) (v : V) (m : Map K V) :
  map_get K_eqb k m = Some v -> In (k, v) m.
Proof.
  induction m as [|[k' v'] m IH]; simpl; [discriminate|].
  destruct (K_eqb k k') eqn:E.
  - apply K_eqb_spec in E. subst. intros [= ->]. now left.
  - auto.
Qed.

Lemma map_get_None (k : K) (m : Map K V) :
  map_get K_eqb k m = None <-> ~ In k (map_keys m).
Proof.
  induction m as [|[k' v'] m IH]; simpl; [tauto|].
  destruct (K_eqb k k') eqn:E.
  - apply K_eqb_spec in E. subst. split; [discriminate|]. tauto.
  - rewrite IH. split; [|tauto].
    intros H [->|H']; [|tauto]. now rewrite K_eqb_refl in E.
Qed.

Lemma In_map_get (k : K) (v : V) (m : Map K V) :
  NoDup (map_keys m) -> In (k, v) m -> map_get K_eqb k m = Some v.
Proof.
  induction m as [|[k' v'] m IH]; simpl; [tauto|].
  intros Hnd [H|H]; inversion Hnd as [|? ? Hk Hm]; subst.
  - injection H as -> ->. now rewrite K_eqb_refl.
  - destruct (K_eqb k k') eqn:E; [|auto].
    apply K_eqb_spec in E. subst k'. exfalso. apply Hk.
    apply in_map_iff. now exists (k, v).
Qed.

Lemma map_set_fresh (k : K) (v : V) (m : Map K V) :
  map_get K_eqb k m = None -> map_set K_eqb k v m = m ++ [(k, v)].
Proof.
  induction m as [|[k' v'] m IH]; simpl; [reflexivity|].
  destruct (K_eqb k k'); [discriminate|]. intros H. now rewrite IH.
Qed.

Lemma map_keys_set_present (k : K) (v v0 : V) (m : Map K V) :
  map_get K_eqb k m = Some v0 ->
  map_keys (map_set K_eqb k v m) = map_keys m.
Proof.
  induction m as [|[k' v'] m IH]; simpl; [discriminate|].
  destruct (K_eqb k k') eqn:E; simpl; [reflexivity|].
  intros H. f_equal. now apply IH.
Qed.

Lemma map_set_NoDup (k : K) (v : V) (m : Map K V) :
  NoDup (map_keys m) -> NoDup (map_keys (map_set K_eqb k v m)).
Proof.
  intros H. destruct (map_get K_eqb k m) eqn:E.
  - erewrite map_keys_set_present; eauto.
  - rewrite map_set_fresh by assumption.
    unfold map_keys. rewrite map_app. simpl.
    apply NoDup_app; [assumption|repeat constructor; simpl; tauto|].
    intros a Ha [<-|[]]. now apply map_get_None in E.
Qed.

Lemma map_set_length (k : K) (v : V) (m : Map K V) :
  (List.length (map_set K_eqb k v m) <= S (List.length m))%nat.
Proof.
  induction m as [|[k' v'] m IH]; simpl; [lia|].
  destruct (K_eqb k k'); simpl; lia.
Qed.

End MapFacts.

Lemma string_eqb_spec (a b : string) : String.eqb a b = true <-> a = b.
Proof. apply String.eqb_eq. Qed.

Lemma key_eqb_spec (a b : option string) : key_eqb a b = true <-> a = b.
Proof.
  destruct a, b; simpl; try (split; congruence).
  rewrite String.eqb_eq. split; congruence.
Qed.

End JSFacts.

(* ================================================================== *)
(** * The Group Aggregator *)

Module AggregatorFacts.
Import JS JSFacts MarketViz AggregatorSpecs.

Lemma foldRow_member (ds : Dataset) (m m' : Map string Group) (d : Row) :
  foldRow ds m d = Ok m' ->
  forall k, map_get String.eqb k m'
            = if member ds k d
              then stepGroup ds (map_get String.eqb k m) d
              else map_get String.eqb k m.
Proof.
  unfold foldRow, member, keyOf, stepGroup, pctOf, fresh.
  destruct (isNaN (parsePct (field d (ds_pct ds)))) eqn:En; simpl.
  - intros [= <-] k. reflexivity.
  - destruct (field d (ds_ident ds)) as [ident|]; [|discriminate].
    intros [= <-] k.
    destruct (String.eqb (toLowerCase (trim ident)) k) eqn:Ek.
    + apply String.eqb_eq in Ek. subst k.
      rewrite (map_get_set_eq _ string_eqb_spec).
      destruct (map_get String.eqb (toLowerCase (trim ident)) m); reflexivity.
    + apply String.eqb_neq in Ek.
      apply (map_get_set_neq _ string_eqb_spec). congruence.
Qed.

Lemma foldRow_skip (ds : Dataset) (m : Map string Group) (d : Row) :
  isNaN (pctOf ds d) = true -> foldRow ds m d = Ok m.
Proof. unfold foldRow, pctOf. now intros ->. Qed.

Lemma foldRow_throw (ds : Dataset) (m : Map string Group) (d : Row) :
  isNaN (pctOf ds d) = false -> field d (ds_ident ds) = None ->
  foldRow ds m d = Throw TypeError.
Proof. unfold foldRow, pctOf. now intros -> ->. Qed.

Lemma foldRow_ok (ds : Dataset) (m : Map string Group) (d : Row) :
  field d (ds_ident ds) <> None -> exists m', foldRow ds m d = Ok m'.
Proof.
  unfold foldRow. intros H.
  destruct (isNaN _); [eauto|].
  destruct (field d (ds_ident ds)); [eauto|contradiction].
Qed.

Lemma foldRow_NoDup (ds : Dataset) (m m' : Map string Group) (d : Row) :
  foldRow ds m d = Ok m' -> NoDup (map_keys m) -> NoDup (map_keys m').
Proof.
  unfold foldRow.
  destruct (isNaN _); [now intros [= <-]|].
  destruct (field d (ds_ident ds)); [|discriminate].
  intros [= <-]. apply (map_set_NoDup _ string_eqb_spec).
Qed.

Lemma for_of_app {S A} (body : S -> A -> result S) (l1 l2 : list A) (s : S) :
  for_of body (l1 ++ l2) s = bind (for_of body l1 s) (for_of body l2).
Proof.
  revert s. induction l1 as [|d l1 IH]; intros s; simpl; [reflexivity|].
  destruct (body s d); [apply IH|reflexivity].
Qed.

Lemma for_of_lookup (ds : Dataset) (rows : list Row) (m m' : Map string Group) :
  for_of (foldRow ds) rows m = Ok m' ->
  forall k, map_get String.eqb k m'
            = built ds (map_get String.eqb k m) (members ds k rows).
Proof.
  revert m. induction rows as [|d rows IH]; intros m; simpl.
  - now intros [= <-] k.
  - destruct (foldRow ds m d) as [m1|] eqn:E; [|discriminate].
    intros H k. rewrite (IH _ H k), (foldRow_member _ _ _ E k).
    unfold members. simpl. destruct (member ds k d); reflexivity.
Qed.

Lemma for_of_NoDup (ds : Dataset) (rows : list Row) (m m' : Map string Group) :
  for_of (foldRow ds) rows m = Ok m' ->
  NoDup (map_keys m) -> NoDup (map_keys m').
Proof.
  revert m. induction rows as [|d rows IH]; intros m; simpl.
  - now intros [= <-].
  - destruct (foldRow ds m d) as [m1|] eqn:E; [|discriminate].
    intros H Hm. apply (IH _ H). exact (foldRow_NoDup _ _ _ E Hm).
Qed.

Lemma built_Some (ds : Dataset) (g : Group) (ms : list Row) :
  built ds (Some g) ms
  = Some {| g_category := g_category g;
            g_code := g_code g;
            g_name := g_name g;
            sum := fold_left add (map (pctOf ds) ms) (sum g);
            g_count := g_count g + List.length ms |}.
Proof.
  revert g. induction ms as [|d ms IH]; intros g; simpl.
  - rewrite Nat.add_0_r. now destruct g.
  - unfold built in *. simpl. unfold stepGroup at 2.
    rewrite IH. simpl. do 2 f_equal. lia.
Qed.

Lemma built_None (ds : Dataset) (ms : list Row) :
  built ds None ms
  = match ms with
    | [] => None
    | first :: _ =>
        Some {| g_category := ds_category ds;
                g_code := g_code (fresh ds first);
                g_name := g_name (fresh ds first);
                sum := fold_left add (map (pctOf ds) ms) zero;
                g_count := List.length ms |}
    end.
Proof.
  destruct ms as [|d ms]; [reflexivity|].
  unfold built. simpl. unfold stepGroup at 2.
  fold (built ds (Some (bump (fresh ds d) (pctOf ds d))) ms).
  rewrite built_Some. reflexivity.
Qed.

Lemma aggregate_lookup (ds : Dataset) (rows : list Row)
      (groups : Map string Group) :
  aggregate ds rows = Ok groups ->
  forall k, map_get String.eqb k groups = built ds None (members ds k rows).
Proof. intros H k. exact (for_of_lookup _ _ _ H k). Qed.

Lemma aggregate_NoDup (ds : Dataset) (rows : list Row)
      (groups : Map string Group) :
  aggregate ds rows = Ok groups -> NoDup (map_keys groups).
Proof. intros H. apply (for_of_NoDup _ _ _ H). constructor. Qed.

Lemma aggregate_skip (ds : Dataset) (l1 l2 : list Row) (row : Row) :
  isNaN (pctOf ds row) = true ->
  aggregate ds (l1 ++ row :: l2) = aggregate ds (l1 ++ l2).
Proof.
  intros H. unfold aggregate. rewrite !for_of_app.
  destruct (for_of (foldRow ds) l1 []); simpl; [|reflexivity].
  now rewrite foldRow_skip.
Qed.

Lemma aggregate_throw (ds : Dataset) (l1 l2 : list Row) (row : Row) :
  isNaN (pctOf ds row) = false -> field row (ds_ident ds) = None ->
  aggregate ds (l1 ++ row :: l2) = Throw TypeError.
Proof.
  intros H1 H2. unfold aggregate. rewrite for_of_app.
  destruct (for_of (foldRow ds) l1 []) as [m|[]]; simpl; [|reflexivity].
  now rewrite foldRow_throw.
Qed.

Lemma aggregate_In (ds : Dataset) (rows : list Row)
      (groups : Map string Group) (k : string) (g : Group) :
  aggregate ds rows = Ok groups -> In (k, g) groups ->
  exists first rest,
    members ds k rows = first :: rest
    /\ g = {| g_category := ds_category ds;
              g_code := g_code (fresh ds first);
              g_name := g_name (fresh ds first);
              sum := fold_left add (map (pctOf ds) (first :: rest)) zero;
              g_count := List.length (first :: rest) |}.
Proof.
  intros H Hin.
  apply (In_map_get _ string_eqb_spec _ _ _ (aggregate_NoDup _ _ H)) in Hin.
  rewrite (aggregate_lookup _ _ H), built_None in Hin.
  destruct (members ds k rows) as [|first rest]; [discriminate|].
  exists first, rest. split; [reflexivity|congruence].
Qed.

Lemma member_inv (ds : Dataset) (k : string) (d : Row) :
  member ds k d = true ->
  isNaN (pctOf ds d) = false
  /\ exists ident, field d (ds_ident ds) = Some ident
                   /\ k = toLowerCase (trim ident).
Proof.
  unfold member, keyOf. intros H. apply andb_true_iff in H as [H1 H2].
  apply negb_true_iff in H1. split; [assumption|].
  destruct (field d (ds_ident ds)) as [ident|]; [|discriminate].
  apply String.eqb_eq in H2. eauto.
Qed.

Lemma member_intro (ds : Dataset) (d : Row) (ident : string) :
  isNaN (pctOf ds d) = false -> field d (ds_ident ds) = Some ident ->
  member ds (toLowerCase (trim ident)) d = true.
Proof.
  unfold member, keyOf. intros -> ->. simpl. apply String.eqb_refl.
Qed.

Lemma toLowerCase_empty (s : string) : toLowerCase s = "" -> s = "".
Proof. destruct s; simpl; [reflexivity|discriminate]. Qed.

Lemma aggregate_member (ds : Dataset) (rows : list Row)
      (groups : Map string Group) (k : string) (d : Row) :
  aggregate ds rows = Ok groups -> In d rows -> member ds k d = true ->
  exists g, In (k, g) groups.
Proof.
  intros H Hd Hm.
  assert (I : In d (members ds k rows)) by (apply filter_In; auto).
  pose proof (aggregate_lookup _ _ H k) as L. rewrite built_None in L.
  destruct (members ds k rows) as [|first rest]; [contradiction|].
  eexists. apply (map_get_In _ string_eqb_spec). exact L.
Qed.

(** ** Keys: trimming and lower-casing *)

Ltac each_ascii c :=
  destruct c as [[] [] [] [] [] [] [] []].

Lemma lower_lower (c : ascii) : lower (lower c) = lower c.
Proof. each_ascii c; reflexivity. Qed.

Lemma is_ws_lower (c : ascii) : is_ws (lower c) = is_ws c.
Proof. each_ascii c; reflexivity. Qed.

Lemma caseVariant_toLowerCase (s1 s2 : string) :
  caseVariant s1 s2 -> toLowerCase s1 = toLowerCase s2.
Proof.
  induction 1 as [|c1 c2 r1 r2 Hc _ IH]; [reflexivity|].
  cbn [toLowerCase]. rewrite IH. f_equal.
  destruct Hc as [->|[<-| ->]]; [reflexivity| |];
    now rewrite lower_lower.
Qed.

Lemma toLowerCase_trimStart (s : string) :
  toLowerCase (trimStart s) = trimStart (toLowerCase s).
Proof.
  induction s as [|c s IH]; [reflexivity|].
  cbn [trimStart toLowerCase]. rewrite is_ws_lower.
  destruct (is_ws c); [exact IH|reflexivity].
Qed.

Lemma toLowerCase_trimEnd (s : string) :
  toLowerCase (trimEnd s) = trimEnd (toLowerCase s).
Proof.
  induction s as [|c s IH]; [reflexivity|].
  cbn [trimEnd toLowerCase]. rewrite <- IH, is_ws_lower.
  destruct (trimEnd s); [destruct (is_ws c)|]; reflexivity.
Qed.

Lemma toLowerCase_trim (s : string) :
  toLowerCase (trim s) = trim (toLowerCase s).
Proof.
  unfold trim. now rewrite toLowerCase_trimEnd, toLowerCase_trimStart.
Qed.

Lemma trimStart_blank (s : string) : blank s = true -> trimStart s = "".
Proof.
  induction s as [|c s IH]; [reflexivity|]. cbn [blank trimStart].
  intros H. apply andb_prop in H as [-> H]. now apply IH.
Qed.

Lemma trimEnd_blank (s : string) : blank s = true -> trimEnd s = "".
Proof.
  induction s as [|c s IH]; [reflexivity|]. cbn [blank trimEnd].
  intros H. apply andb_prop in H as [-> H]. now rewrite IH.
Qed.

Lemma trimStart_lead (lead s : string) :
  blank lead = true -> trimStart (lead ++ s) = trimStart s.
Proof.
  induction lead as [|c lead IH]; [reflexivity|].
  cbn [blank String.append trimStart].
  intros H. apply andb_prop in H as [-> H]. now apply IH.
Qed.

Lemma trimStart_inner (s trail : string) :
  blank s = false -> trimStart (s ++ trail) = (trimStart s ++ trail)%string.
Proof.
  induction s as [|c s IH]; [discriminate|].
  cbn [blank String.append trimStart].
  destruct (is_ws c); [exact IH|reflexivity].
Qed.

Lemma trimEnd_trail (s trail : string) :
  blank trail = true -> trimEnd (s ++ trail) = trimEnd s.
Proof.
  intros H. induction s as [|c s IH]; cbn [String.append trimEnd].
  - now apply trimEnd_blank.
  - now rewrite IH.
Qed.

(** White space around an identifier is dropped by [trim]. *)
Lemma trim_padded (lead s trail : string) :
  blank lead = true -> blank trail = true ->
  trim (lead ++ s ++ trail) = trim s.
Proof.
  intros Hl Ht. unfold trim. rewrite trimStart_lead by assumption.
  destruct (blank s) eqn:Hs.
  - rewrite trimStart_lead by assumption.
    rewrite (trimStart_blank trail), (trimStart_blank s) by assumption.
    reflexivity.
  - rewrite trimStart_inner by assumption. now apply trimEnd_trail.
Qed.

(** Identifiers that differ only in case or surrounding white space have
    one key. *)
Lemma alike_key (i1 i2 : string) :
  alike i1 i2 -> toLowerCase (trim i1) = toLowerCase (trim i2).
Proof.
  intros (l1 & c1 & t1 & l2 & c2 & t2 & -> & -> & L1 & T1 & L2 & T2 & V).
  rewrite !trim_padded by assumption.
  rewrite !toLowerCase_trim. f_equal. now apply caseVariant_toLowerCase.
Qed.

(** C4.  Identifiers that differ only in case or surrounding white space
    have one key, the identifier trimmed and lower-cased.  Whenever the
    aggregation returns, its groups have distinct keys; every row with a
    parsable value is folded into the group of its key, so that rows whose
    identifiers differ in case or surrounding white space only share a
    group; each group counts the rows folded into it, at least one, and
    sums their values; and the mean published for it is its sum divided by
    its count.  Rows ["AAA", "+2.00%"] and ["aaa", "-1.00%"] give one
    group, of count 2, sum 1 and mean 1/2. *)
Theorem group_aggregator_merges :
  (forall i1 i2 : string,
      alike i1 i2 -> toLowerCase (trim i1) = toLowerCase (trim i2))
  /\ (forall (ds : Dataset) (rows : list Row) (groups : Map string Group),
      aggregate ds rows = Ok groups ->
      NoDup (map_keys groups)
      /\ (forall d k, In d rows -> member ds k d = true ->
                      exists g, In (k, g) groups)
      /\ (forall d1 d2 i1 i2,
            In d1 rows -> In d2 rows ->
            isNaN (pctOf ds d1) = false -> isNaN (pctOf ds d2) = false ->
            field d1 (ds_ident ds) = Some i1 ->
            field d2 (ds_ident ds) = Some i2 ->
            alike i1 i2
            \/ toLowerCase (trim i1) = toLowerCase (trim i2) ->
            exists k g, k = toLowerCase (trim i1)
                        /\ In (k, g) groups
                        /\ In d1 (members ds k rows)
                        /\ In d2 (members ds k rows))
      /\ (forall k g, In (k, g) groups ->
            let ms := members ds k rows in
            g_count g = List.length ms
            /\ (1 <= g_count g)%nat
            /\ sum g = fold_left add (map (pctOf ds) ms) zero
            /\ count (summarize ds g) = g_count g
            /\ avgPct (summarize ds g) = div (sum g) (of_nat (g_count g))))
  /\ stockGroups scenarioA
     = Ok [("aaa", {| g_category := "Stock"; g_code := "AAA"; g_name := None;
                      sum := of_Z 1; g_count := 2 |})]
  /\ stocks scenarioA
     = Ok [{| id := "Stock|AAA"; category := "Stock"; code := "AAA";
              name := None; avgPct := ratio 1 2; absAvgPct := ratio 1 2;
              count := 2 |}].
Proof.
  split; [exact alike_key|].
  split; [|split; num_eq].
  intros ds rows groups H. split; [|split; [|split]].
  - exact (aggregate_NoDup _ _ H).
  - intros d k Hd Hm. eapply aggregate_member; eassumption.
  - intros d1 d2 i1 i2 H1 H2 V1 V2 F1 F2 A.
    assert (E : toLowerCase (trim i1) = toLowerCase (trim i2))
      by (destruct A as [A|A]; [now apply alike_key|exact A]).
    pose proof (member_intro _ _ V1 F1) as M1.
    pose proof (member_intro _ _ V2 F2) as M2. rewrite <- E in M2.
    destruct (aggregate_member _ _ _ _ H H1 M1) as [g Hg].
    exists (toLowerCase (trim i1)), g.
    split; [reflexivity|].
    split; [exact Hg|]. split; apply filter_In; auto.
  - intros k g Hin ms.
    destruct (aggregate_In _ _ _ _ H Hin) as (first & rest & Em & ->).
    unfold ms. rewrite Em. simpl. repeat split. lia.
Qed.

(** The theorem at Scenario A, and at two rows whose names differ in case
    and in surrounding white space: they share the group of key "aaa". *)
Lemma group_aggregator_merges_witness :
  (exists groups,
      aggregate stockSet scenarioA = Ok groups
      /\ NoDup (map_keys groups)
      /\ Forall (fun '(_, g) => (1 <= g_count g)%nat) groups)
  /\ alike " AAA " "aaa"
  /\ (exists groups g,
        aggregate stockSet paddedRows = Ok groups
        /\ In ("aaa", g) groups
        /\ members stockSet "aaa" paddedRows = paddedRows
        /\ g_count g = 2%nat).
Proof.
  destruct group_aggregator_merges as [_ [H _]].
  assert (A : alike " AAA " "aaa").
  { exists " ", "AAA", " ", "", "aaa", "".
    repeat split; try reflexivity.
    repeat (constructor; [right; left; reflexivity|]). constructor. }
  split; [|split; [exact A|]].
  - destruct (aggregate stockSet scenarioA) as [groups|e] eqn:E;
      [|vm_compute in E; discriminate E].
    exists groups.
    destruct (H stockSet scenarioA groups E) as (Hnd & _ & _ & Hg).
    split; [reflexivity|split; [exact Hnd|]].
    apply Forall_forall. intros [k g] Hin. now apply (Hg k g Hin).
  - destruct (aggregate stockSet paddedRows) as [groups|e] eqn:E;
      [|vm_compute in E; discriminate E].
    destruct (H stockSet paddedRows groups E) as (_ & _ & Hm & Hg).
    destruct (Hm [("name", " AAA "); ("chg_%", "1")]
                 [("name", "aaa"); ("chg_%", "3")] " AAA " "aaa")
      as (k & g & -> & Hin & _ & _);
      try reflexivity; try (left; exact A);
      try (left; reflexivity); try (right; left; reflexivity).
    exists groups, g. split; [reflexivity|].
    change (toLowerCase (trim " AAA ")) with "aaa" in Hin.
    split; [exact Hin|]. split; [reflexivity|].
    exact (proj1 (Hg "aaa" g Hin)).
Defined.

(** C5 (as amended).  A row whose value does not parse is dropped without
    an error, whatever its identifier, missing included.  A row whose
    value parses and whose identifier is empty once trimmed is not
    dropped: no error is raised and the row is folded into the group of
    the empty key, whose label is empty.  A row whose value parses and
    whose identifier is missing makes the aggregation throw. *)
Theorem blank_identifier_rows :
  forall (ds : Dataset) (l1 l2 : list Row) (row : Row),
    (isNaN (pctOf ds row) = true ->
     aggregate ds (l1 ++ row :: l2) = aggregate ds (l1 ++ l2))
    /\ (isNaN (pctOf ds row) = false ->
        forall ident,
          field row (ds_ident ds) = Some ident -> trim ident = "" ->
          (forall groups, exists groups', foldRow ds groups row = Ok groups')
          /\ forall groups,
              aggregate ds (l1 ++ row :: l2) = Ok groups ->
              exists g,
                In ("", g) groups
                /\ In row (members ds "" (l1 ++ row :: l2))
                /\ g_count g = List.length (members ds "" (l1 ++ row :: l2))
                /\ g_code g = "")
    /\ (isNaN (pctOf ds row) = false ->
        field row (ds_ident ds) = None ->
        aggregate ds (l1 ++ row :: l2) = Throw TypeError).
Proof.
  intros ds l1 l2 row. split; [|split].
  - apply aggregate_skip.
  - intros Hv ident Hi Ht. split.
    + intros groups. apply foldRow_ok. congruence.
    + intros groups H.
      pose proof (member_intro _ _ Hv Hi) as Hm.
      rewrite Ht in Hm. simpl in Hm.
      assert (Hr : In row (l1 ++ row :: l2))
        by (apply in_or_app; right; now left).
      destruct (aggregate_member _ _ _ _ H Hr Hm) as [g Hg].
      exists g. split; [exact Hg|]. split; [apply filter_In; auto|].
      destruct (aggregate_In _ _ _ _ H Hg) as (first & rest & Em & ->).
      rewrite Em. split; [reflexivity|]. simpl.
      assert (Hf : member ds "" first = true).
      { assert (I : In first (members ds "" (l1 ++ row :: l2)))
          by (rewrite Em; now left).
        now apply filter_In in I. }
      apply member_inv in Hf as (_ & i & Ei & Ek).
      rewrite Ei. symmetry in Ek. now apply toLowerCase_empty in Ek.
  - apply aggregate_throw.
Qed.

(** The theorem at a stock row whose name is two spaces. *)
Lemma blank_identifier_rows_witness :
  isNaN (pctOf stockSet blankRow) = false
  /\ field blankRow (ds_ident stockSet) = Some "  "
  /\ trim "  " = ""
  /\ exists groups', foldRow stockSet [] blankRow = Ok groups'.
Proof.
  assert (Hv : isNaN (pctOf stockSet blankRow) = false) by reflexivity.
  assert (Hi : field blankRow (ds_ident stockSet) = Some "  ") by reflexivity.
  assert (Ht : trim "  " = "") by reflexivity.
  repeat split; try assumption.
  destruct (blank_identifier_rows stockSet [] [] blankRow) as (_ & H & _).
  exact (proj1 (H Hv "  " Hi Ht) []).
Defined.

(** C5 as stated fails: a stock row whose name is blank is not discarded,
    it makes an aggregate of its own, of count 1; a row with no name
    column and a parsable value raises. *)
Lemma blank_identifier_counterexample :
  trim "  " = ""
  /\ stockGroups [blankRow]
     = Ok [("", {| g_category := "Stock"; g_code := ""; g_name := None;
                   sum := of_Z 1; g_count := 1 |})]
  /\ field namelessRow "name" = None
  /\ stockGroups [namelessRow] = Throw TypeError.
Proof. num_eq. Qed.

Lemma group_key_label (ds : Dataset) (rows : list Row)
      (groups : Map string Group) (k : string) (g : Group) :
  aggregate ds rows = Ok groups -> In (k, g) groups ->
  toLowerCase (g_code g) = k.
Proof.
  intros H Hin.
  destruct (aggregate_In _ _ _ _ H Hin) as (first & rest & Em & ->).
  assert (Hf : member ds k first = true).
  { assert (I : In first (members ds k rows)) by (rewrite Em; now left).
    now apply filter_In in I. }
  apply member_inv in Hf as (_ & ident & Ei & Ek).
  simpl. rewrite Ei. auto.
Qed.

Lemma foldRow_keeps_label (ds : Dataset) (groups groups' : Map string Group)
      (d : Row) (k : string) (g : Group) :
  foldRow ds groups d = Ok groups' ->
  map_get String.eqb k groups = Some g ->
  exists g', map_get String.eqb k groups' = Some g'
             /\ g_code g' = g_code g /\ g_name g' = g_name g.
Proof.
  intros H Hg. rewrite (foldRow_member _ _ _ H k), Hg.
  destruct (member ds k d); eexists; split; reflexivity || (split; reflexivity).
Qed.

(** C7 (as amended).  The label of a group is the identifier of the first
    row folded into it, trimmed and in its own case (the key is the label
    lower-cased), and the name a crypto group carries is the name cell of
    that first row as it stands; a later row of the group leaves both as
    they are, whatever its casing or whitespace. *)
Theorem display_label_first_sight :
  (forall (ds : Dataset) (rows : list Row) (groups : Map string Group) k g,
      aggregate ds rows = Ok groups -> In (k, g) groups ->
      exists first rest ident,
        members ds k rows = first :: rest
        /\ field first (ds_ident ds) = Some ident
        /\ g_code g = trim ident
        /\ g_name g = (if ds_name ds then field first "name" else None)
        /\ k = toLowerCase (g_code g))
  /\ (forall (ds : Dataset) (groups groups' : Map string Group) d k g,
        foldRow ds groups d = Ok groups' ->
        map_get String.eqb k groups = Some g ->
        exists g', map_get String.eqb k groups' = Some g'
                   /\ g_code g' = g_code g /\ g_name g' = g_name g).
Proof.
  split.
  - intros ds rows groups k g H Hin.
    destruct (aggregate_In _ _ _ _ H Hin) as (first & rest & Em & ->).
    assert (Hf : member ds k first = true).
    { assert (I : In first (members ds k rows)) by (rewrite Em; now left).
      now apply filter_In in I. }
    apply member_inv in Hf as (_ & ident & Ei & Ek).
    exists first, rest, ident. simpl. rewrite Ei. auto.
  - intros ds groups groups' d k g H Hg.
    exact (foldRow_keeps_label _ _ _ _ H Hg).
Qed.

(** The theorem at two rows of one group, the first one padded. *)
Lemma display_label_first_sight_witness :
  exists groups g,
    aggregate stockSet paddedRows = Ok groups
    /\ In ("aaa", g) groups
    /\ "aaa" = toLowerCase (g_code g).
Proof.
  destruct (aggregate stockSet paddedRows) as [groups|e] eqn:E;
    [|vm_compute in E; discriminate E].
  destruct (map_get String.eqb "aaa" groups) as [g|] eqn:Eg;
    [|rewrite (aggregate_lookup _ _ E) in Eg; vm_compute in Eg;
      discriminate Eg].
  apply (map_get_In _ string_eqb_spec) in Eg.
  exists groups, g. split; [reflexivity|split; [exact Eg|]].
  destruct display_label_first_sight as [H _].
  destruct (H stockSet paddedRows groups "aaa" g E Eg)
    as (_ & _ & _ & _ & _ & _ & _ & Hk).
  exact Hk.
Defined.

(** C7 as stated fails: the label kept is the trimmed identifier, not the
    identifier as encountered. *)
Lemma display_label_trimmed_counterexample :
  exists groups,
    stockGroups paddedRows = Ok groups
    /\ map (fun g => g_code g) (map_values groups) = ["AAA"]
    /\ map (fun d => field d "name") paddedRows = [Some " AAA "; Some "aaa"]
    /\ map (fun g => g_code g) (map_values groups) <> [" AAA "].
Proof.
  destruct (stockGroups paddedRows) as [groups|e] eqn:E;
    [|vm_compute in E; discriminate E].
  exists groups. split; [reflexivity|].
  vm_compute in E. injection E as <-.
  repeat split; vm_compute; try reflexivity; discriminate.
Qed.

(** The identities of the aggregates published for a dataset are distinct,
    which is what the Rank Selector is given. *)
Lemma append_inj (p a b : string) : (p ++ a)%string = (p ++ b)%string -> a = b.
Proof. induction p; simpl; [auto|]. intros [= H]. auto. Qed.

Lemma summaries_ids_NoDup (ds : Dataset) (rows : list Row)
      (groups : Map string Group) :
  aggregate ds rows = Ok groups -> NoDup (map id (summaries ds groups)).
Proof.
  intros H. unfold summaries, map_values. rewrite !map_map. simpl.
  assert (Hk : map (fun e : string * Group => toLowerCase (g_code (snd e)))
                   groups = map_keys groups).
  { apply map_ext_in. intros [k g] Hin. simpl.
    eapply group_key_label; eassumption. }
  pose proof (aggregate_NoDup _ _ H) as Hnd. rewrite <- Hk in Hnd.
  rewrite <- (map_map (fun e : string * Group => g_code (snd e))
                      (fun c => (ds_category ds ++ "|" ++ c)%string)).
  rewrite <- (map_map (fun e : string * Group => g_code (snd e))
                      toLowerCase) in Hnd.
  apply NoDup_map_inv in Hnd.
  induction Hnd as [|c l Hc _ IH]; simpl; constructor; [|exact IH].
  intros Hin. apply Hc. apply in_map_iff in Hin as (c' & E & Hc').
  apply append_inj in E. simpl in E. injection E as ->. exact Hc'.
Qed.

End AggregatorFacts.

(* ================================================================== *)
(** * What the language asks of [Array.prototype.sort] *)

Module SortFacts.
Import JS JSFacts SortSpecs.

Lemma descending_gt (a b : num) : ltb zero (D3.descending a b) = ltb a b.
Proof.
  unfold D3.descending, gtb.
  destruct (ltb b a) eqn:E1.
  - rewrite (ltb_asym _ _ E1). reflexivity.
  - destruct (ltb a b) eqn:E2; [reflexivity|].
    destruct (geb b a); reflexivity.
Qed.

Lemma descending_lt (a b : num) : ltb (D3.descending a b) zero = ltb b a.
Proof.
  unfold D3.descending, gtb.
  destruct (ltb b a) eqn:E1; [reflexivity|].
  destruct (ltb a b) eqn:E2; [reflexivity|].
  destruct (geb b a); reflexivity.
Qed.

Lemma ascending_gt (a b : num) : ltb zero (D3.ascending a b) = ltb b a.
Proof.
  unfold D3.ascending, gtb.
  destruct (ltb a b) eqn:E1.
  - rewrite (ltb_asym _ _ E1). reflexivity.
  - destruct (ltb b a) eqn:E2; [reflexivity|].
    destruct (geb a b); reflexivity.
Qed.

Lemma ascending_lt (a b : num) : ltb (D3.ascending a b) zero = ltb a b.
Proof.
  unfold D3.ascending, gtb.
  destruct (ltb a b) eqn:E1; [reflexivity|].
  destruct (ltb b a) eqn:E2; [reflexivity|].
  destruct (geb a b); reflexivity.
Qed.

Section Ranked.
Variable A : Type.
Variable comparefn : A -> A -> num.

(** The comparator orders by a rank, smaller ranks last. *)
Variable rank : A -> num.
Hypothesis Hgt : forall a b, sort_gt comparefn a b = ltb (rank a) (rank b).
Hypothesis Hlt : forall a b, sort_lt comparefn a b = ltb (rank b) (rank a).

Let ranked (a : A) : Prop := isNaN (rank a) = false.

Lemma tie_refl (x : A) : tie comparefn x x = true.
Proof. unfold tie. now rewrite Hgt, Hlt, ltb_irrefl. Qed.

Lemma sort_insert_perm (x : A) (l : list A) :
  Permutation (x :: l) (sort_insert comparefn x l).
Proof.
  induction l as [|y l IH]; simpl; [reflexivity|].
  destruct (sort_gt comparefn x y); [|reflexivity].
  rewrite perm_swap. now constructor.
Qed.

Lemma sort_perm (l : list A) : Permutation l (sort comparefn l).
Proof.
  induction l as [|x l IH]; simpl; [constructor|].
  rewrite <- sort_insert_perm. now constructor.
Qed.

Lemma sort_insert_order (x : A) (l : list A) :
  Forall ranked l -> InOrder comparefn l ->
  InOrder comparefn (sort_insert comparefn x l).
Proof.
  unfold InOrder. intros Hr Hs. induction Hs as [|y l Hs IH Hy]; simpl.
  - repeat constructor.
  - inversion Hr as [|? ? Ry Rl]; subst.
    destruct (sort_gt comparefn x y) eqn:E.
    + constructor; [now apply IH|].
      apply Forall_forall. intros z Hz.
      apply (Permutation_in _ (Permutation_sym (sort_insert_perm x l))) in Hz.
      destruct Hz as [<-|Hz].
      * rewrite Hgt in *. now apply ltb_asym.
      * rewrite Forall_forall in Hy. now apply Hy.
    + constructor; [now constructor|].
      constructor; [assumption|].
      apply Forall_forall. intros z Hz.
      rewrite Forall_forall in Hy. specialize (Hy z Hz).
      rewrite Hgt in *. now apply ltb_negtrans with (y := rank y).
Qed.

Lemma sort_ranked (l : list A) :
  Forall ranked l -> Forall ranked (sort comparefn l).
Proof.
  intros H. rewrite Forall_forall in *. intros x Hx. apply H.
  now apply (Permutation_in _ (Permutation_sym (sort_perm l))).
Qed.

Lemma sort_order (l : list A) :
  Forall ranked l -> InOrder comparefn (sort comparefn l).
Proof.
  induction 1 as [|x l Hx Hl IH]; simpl; [constructor|].
  apply sort_insert_order; [now apply sort_ranked|assumption].
Qed.

Lemma filter_sort_insert (x a : A) (l : list A) :
  ranked x ->
  filter (tie comparefn x) (sort_insert comparefn a l)
  = filter (tie comparefn x) (a :: l).
Proof.
  intros Rx. induction l as [|y l IH]; [reflexivity|].
  cbn [sort_insert]. destruct (sort_gt comparefn a y) eqn:E; [|reflexivity].
  cbn [filter] in *. rewrite IH.
  destruct (tie comparefn x a) eqn:Ta; [|reflexivity].
  destruct (tie comparefn x y) eqn:Ty; [|reflexivity].
  exfalso. unfold tie in Ta, Ty. rewrite Hgt, Hlt in *.
  apply andb_true_iff in Ta as [Ta1 Ta2], Ty as [Ty1 Ty2].
  apply negb_true_iff in Ta1, Ta2, Ty1, Ty2.
  pose proof (ltb_negtrans (rank a) (rank x) (rank y) Rx Ta1 Ty2).
  congruence.
Qed.

Lemma sort_stable (x : A) (l : list A) :
  ranked x ->
  filter (tie comparefn x) (sort comparefn l) = filter (tie comparefn x) l.
Proof.
  intros Rx. induction l as [|a l IH]; [reflexivity|].
  cbn [sort fold_right]. rewrite filter_sort_insert by assumption.
  fold (sort comparefn l). cbn [filter]. now rewrite IH.
Qed.

(** The insertion sort of the embedding is a result the language allows. *)
Lemma sort_meets_spec (l : list A) :
  Forall ranked l -> SortSpec comparefn l (sort comparefn l).
Proof.
  intros H. split.
  - apply sort_perm.
  - now apply sort_order.
  - intros x Hx. apply sort_stable.
    rewrite Forall_forall in H. now apply H.
Qed.

Lemma in_order_unique (o1 o2 : list A) :
  InOrder comparefn o1 -> InOrder comparefn o2 ->
  (forall z, In z o1 \/ In z o2 ->
             filter (tie comparefn z) o1 = filter (tie comparefn z) o2) ->
  o1 = o2.
Proof.
  unfold InOrder. intros H1. revert o2.
  induction H1 as [|x t1 S1 IH F1]; intros o2 H2 Hf.
  - destruct o2 as [|y t2]; [reflexivity|].
    specialize (Hf y (or_intror (or_introl eq_refl))).
    cbn [filter] in Hf. rewrite tie_refl in Hf. discriminate.
  - destruct o2 as [|y t2].
    + specialize (Hf x (or_introl (or_introl eq_refl))).
      cbn [filter] in Hf. rewrite tie_refl in Hf. discriminate.
    + inversion H2 as [|? ? S2 F2]; subst.
      rewrite Forall_forall in F1, F2.
      assert (Exy : x = y).
      { pose proof (Hf x (or_introl (or_introl eq_refl))) as Hx.
        pose proof (Hf y (or_intror (or_introl eq_refl))) as Hy.
        cbn [filter] in Hx, Hy. rewrite tie_refl in Hx, Hy.
        destruct (tie comparefn x y) eqn:Txy; [congruence|].
        destruct (tie comparefn y x) eqn:Tyx; [congruence|].
        exfalso.
        assert (Iy : In y t1).
        { assert (I : In y (filter (tie comparefn y) t1))
            by (rewrite Hy; now left).
          now apply filter_In in I. }
        assert (Ix : In x t2).
        { assert (I : In x (filter (tie comparefn x) t2))
            by (rewrite <- Hx; now left).
          now apply filter_In in I. }
        pose proof (F1 y Iy) as G1. pose proof (F2 x Ix) as G2.
        unfold tie in Txy. rewrite Hgt, Hlt in *.
        rewrite G1, G2 in Txy. discriminate. }
      subst y. f_equal. apply IH; [assumption|].
      intros z Hz.
      assert (Hz' : In z (x :: t1) \/ In z (x :: t2))
        by (destruct Hz; [left|right]; now right).
      specialize (Hf z Hz'). cbn [filter] in Hf.
      destruct (tie comparefn z x); congruence.
Qed.

(** With such a comparator the language allows one result only. *)
Lemma sort_spec_unique (l o1 o2 : list A) :
  SortSpec comparefn l o1 -> SortSpec comparefn l o2 -> o1 = o2.
Proof.
  intros [P1 O1 S1] [P2 O2 S2].
  apply in_order_unique; try assumption.
  intros z Hz.
  assert (In z l).
  { destruct Hz as [Hz|Hz];
      [apply (Permutation_in _ (Permutation_sym P1))
      |apply (Permutation_in _ (Permutation_sym P2))]; assumption. }
  now rewrite S1, S2.
Qed.

End Ranked.

End SortFacts.

(* ================================================================== *)
(** * The Rank Selector *)

Module SelectorFacts.
Import JS JSFacts MarketViz SortSpecs SortFacts SelectorSpecs.
Import AggregatorFacts.

Lemma pickTopBottomN_unfold (posN negN : nat) (arr : list Aggregate) :
  pickTopBottomN posN negN arr
  = uniqueById
      (firstn posN (sort byAvgDescending (filter isGain arr))
       ++ rev (firstn negN (sort byAvgAscending (filter isLoss arr)))).
Proof. reflexivity. Qed.

(** ** Deduplication by identity *)

Lemma map_set_In_inv {V} (k : string) (v : V) (m : Map string V) e :
  In e (map_set String.eqb k v m) -> In e m \/ e = (k, v).
Proof.
  induction m as [|[k' v'] m IH]; simpl.
  - intros [<-|[]]. now right.
  - destruct (String.eqb k k') eqn:E; simpl.
    + apply String.eqb_eq in E. subst k'. intros [<-|H]; auto.
    + intros [<-|H]; auto. destruct (IH H); auto.
Qed.

Lemma fold_set_length (l : list Aggregate) (m : Map string Aggregate) :
  (List.length (fold_left (fun m d => map_set String.eqb (id d) d m) l m)
   <= List.length m + List.length l)%nat.
Proof.
  revert m. induction l as [|d l IH]; intros m; simpl; [lia|].
  specialize (IH (map_set String.eqb (id d) d m)).
  pose proof (map_set_length String.eqb (id d) d m). lia.
Qed.

Lemma fold_set_In (l : list Aggregate) (m : Map string Aggregate) e :
  In e (fold_left (fun m d => map_set String.eqb (id d) d m) l m) ->
  In e m \/ In (snd e) l.
Proof.
  revert m. induction l as [|d l IH]; intros m; simpl; [auto|].
  intros H. apply IH in H as [H|H]; [|auto].
  apply map_set_In_inv in H as [H| ->]; auto.
Qed.

Lemma fold_set_NoDup (l : list Aggregate) (m : Map string Aggregate) :
  NoDup (map_keys m ++ map id l) ->
  fold_left (fun m d => map_set String.eqb (id d) d m) l m
  = m ++ map (fun d => (id d, d)) l.
Proof.
  revert m. induction l as [|d l IH]; intros m H; simpl.
  - now rewrite app_nil_r.
  - simpl in H.
    assert (Hfresh : map_get String.eqb (id d) m = None).
    { apply (map_get_None _ string_eqb_spec).
      apply NoDup_remove_2 in H. intros Hin. apply H.
      apply in_or_app. now left. }
    rewrite (map_set_fresh _ _ _ _ Hfresh), IH.
    + now rewrite <- app_assoc.
    + unfold map_keys in *. rewrite map_app, <- app_assoc. exact H.
Qed.

Lemma uniqueById_length (l : list Aggregate) :
  (List.length (uniqueById l) <= List.length l)%nat.
Proof.
  unfold uniqueById, map_values. rewrite length_map.
  apply (fold_set_length l []).
Qed.

Lemma uniqueById_In (l : list Aggregate) (d : Aggregate) :
  In d (uniqueById l) -> In d l.
Proof.
  unfold uniqueById, map_values. intros H.
  apply in_map_iff in H as (e & <- & He).
  apply fold_set_In in He as [[]|He]. exact He.
Qed.

Lemma uniqueById_NoDup (l : list Aggregate) :
  NoDup (map id l) -> uniqueById l = l.
Proof.
  intros H. unfold uniqueById. rewrite fold_set_NoDup by exact H.
  unfold map_values. simpl. rewrite map_map. simpl. apply map_id.
Qed.

(** ** Gains and losses *)

Lemma isGain_not_zero (d : Aggregate) : isGain d = true -> avgPct d <> zero.
Proof.
  unfold isGain, gtb. intros H E. rewrite E in H.
  now rewrite ltb_irrefl in H.
Qed.

Lemma isLoss_not_zero (d : Aggregate) : isLoss d = true -> avgPct d <> zero.
Proof.
  unfold isLoss. intros H E. rewrite E in H. now rewrite ltb_irrefl in H.
Qed.

Lemma isLoss_not_isGain (d : Aggregate) : isLoss d = true -> isGain d = false.
Proof. unfold isLoss, isGain, gtb. apply ltb_asym. Qed.

Lemma isGain_ranked (d : Aggregate) :
  isGain d = true -> isNaN (avgPct d) = false.
Proof. unfold isGain, gtb. intros H. now apply ltb_not_NaN in H. Qed.

Lemma isLoss_ranked (d : Aggregate) :
  isLoss d = true -> isNaN (neg (avgPct d)) = false.
Proof.
  unfold isLoss. intros H. rewrite isNaN_neg. now apply ltb_not_NaN in H.
Qed.

(** The two comparators order by a rank. *)
Lemma descending_ranked_gt (a b : Aggregate) :
  sort_gt byAvgDescending a b = ltb (avgPct a) (avgPct b).
Proof. apply descending_gt. Qed.

Lemma descending_ranked_lt (a b : Aggregate) :
  sort_lt byAvgDescending a b = ltb (avgPct b) (avgPct a).
Proof. apply descending_lt. Qed.

Lemma ascending_ranked_gt (a b : Aggregate) :
  sort_gt byAvgAscending a b = ltb (neg (avgPct a)) (neg (avgPct b)).
Proof. rewrite ltb_neg. apply ascending_gt. Qed.

Lemma ascending_ranked_lt (a b : Aggregate) :
  sort_lt byAvgAscending a b = ltb (neg (avgPct b)) (neg (avgPct a)).
Proof. rewrite ltb_neg. apply ascending_lt. Qed.

Lemma gains_spec (arr : list Aggregate) :
  SortSpec byAvgDescending (filter isGain arr)
           (sort byAvgDescending (filter isGain arr)).
Proof.
  apply sort_meets_spec with (rank := avgPct);
    [exact descending_ranked_gt|exact descending_ranked_lt|].
  apply Forall_forall. intros d Hd. apply filter_In in Hd as [_ Hd].
  now apply isGain_ranked.
Qed.

Lemma losses_spec (arr : list Aggregate) :
  SortSpec byAvgAscending (filter isLoss arr)
           (sort byAvgAscending (filter isLoss arr)).
Proof.
  apply sort_meets_spec with (rank := fun d => neg (avgPct d));
    [exact ascending_ranked_gt|exact ascending_ranked_lt|].
  apply Forall_forall. intros d Hd. apply filter_In in Hd as [_ Hd].
  now apply isLoss_ranked.
Qed.

(** ** Lists *)

Lemma firstn_incl {A} (n : nat) (l : list A) : incl (firstn n l) l.
Proof.
  intros x H. rewrite <- (firstn_skipn n l). apply in_or_app. now left.
Qed.

Lemma filter_all {A} (f : A -> bool) (l : list A) :
  (forall x, In x l -> f x = true) -> filter f l = l.
Proof.
  induction l as [|x l IH]; simpl; intros H; [reflexivity|].
  rewrite (H x (or_introl eq_refl)). f_equal. apply IH. auto.
Qed.

Lemma filter_none {A} (f : A -> bool) (l : list A) :
  (forall x, In x l -> f x = false) -> filter f l = [].
Proof.
  induction l as [|x l IH]; simpl; intros H; [reflexivity|].
  rewrite (H x (or_introl eq_refl)). apply IH. auto.
Qed.

Lemma StronglySorted_app_inv {A} (R : A -> A -> Prop) (l1 l2 : list A) :
  StronglySorted R (l1 ++ l2) ->
  forall a b, In a l1 -> In b l2 -> R a b.
Proof.
  induction l1 as [|x l1 IH]; simpl; intros H a b Ha Hb; [contradiction|].
  apply StronglySorted_inv in H as [Hs Hx].
  destruct Ha as [<-|Ha]; [|eauto].
  rewrite Forall_forall in Hx. apply Hx, in_or_app. now right.
Qed.

(** Distinct identities survive a filter and a prefix, and tell the
    aggregates of a list apart. *)
Lemma ids_filter (keep : Aggregate -> bool) (arr : list Aggregate) :
  NoDup (map id arr) -> NoDup (map id (filter keep arr)).
Proof.
  induction arr as [|d arr IH]; simpl; intros H; [constructor|].
  apply NoDup_cons_iff in H as [Hd Harr].
  destruct (keep d); simpl; [|auto].
  apply NoDup_cons; [|auto].
  rewrite in_map_iff. intros (d' & E & Hd').
  apply filter_In in Hd' as [Hd' _].
  apply Hd. rewrite <- E. now apply in_map.
Qed.

Lemma ids_firstn (n : nat) (arr : list Aggregate) :
  NoDup (map id arr) -> NoDup (map id (firstn n arr)).
Proof.
  intros H. rewrite <- (firstn_skipn n arr), map_app in H.
  now apply NoDup_app_remove_r in H.
Qed.

Lemma ids_tell_apart (arr : list Aggregate) (a b : Aggregate) :
  NoDup (map id arr) -> In a arr -> In b arr -> id a = id b -> a = b.
Proof.
  induction arr as [|d arr IH]; simpl; [tauto|].
  intros H Ha Hb E. apply NoDup_cons_iff in H as [Hd Harr].
  destruct Ha as [<-|Ha], Hb as [<-|Hb]; auto; exfalso; apply Hd.
  - rewrite E. now apply in_map.
  - rewrite <- E. now apply in_map.
Qed.

(** ** The selection *)

Section Selection.
Variables posN negN : nat.
Variable arr : list Aggregate.
Variables sortedGains sortedLosses : list Aggregate.
Hypothesis HG : SortSpec byAvgDescending (filter isGain arr) sortedGains.
Hypothesis HL : SortSpec byAvgAscending (filter isLoss arr) sortedLosses.

Let top := firstn posN sortedGains.
Let bottom := rev (firstn negN sortedLosses).

Lemma top_In (d : Aggregate) : In d top -> In d arr /\ isGain d = true.
Proof.
  intros H. apply firstn_incl in H.
  apply (Permutation_in _ (Permutation_sym (spec_perm HG))) in H.
  now apply filter_In in H.
Qed.

Lemma bottom_In (d : Aggregate) : In d bottom -> In d arr /\ isLoss d = true.
Proof.
  intros H. apply in_rev, firstn_incl in H.
  apply (Permutation_in _ (Permutation_sym (spec_perm HL))) in H.
  now apply filter_In in H.
Qed.

Lemma selection_length : (List.length (top ++ bottom) <= posN + negN)%nat.
Proof.
  rewrite length_app. unfold bottom. rewrite length_rev.
  pose proof (firstn_le_length posN sortedGains).
  pose proof (firstn_le_length negN sortedLosses).
  fold top in H. lia.
Qed.

Lemma selection_NoDup :
  NoDup (map id arr) -> NoDup (map id (top ++ bottom)).
Proof.
  intros H. rewrite map_app. apply NoDup_app.
  - apply ids_firstn.
    apply (Permutation_NoDup (Permutation_map id (spec_perm HG))).
    now apply ids_filter.
  - unfold bottom. rewrite map_rev. apply NoDup_rev, ids_firstn.
    apply (Permutation_NoDup (Permutation_map id (spec_perm HL))).
    now apply ids_filter.
  - intros i Hp Hn.
    apply in_map_iff in Hp as (p & Ep & Hp).
    apply in_map_iff in Hn as (n & En & Hn).
    apply top_In in Hp as [Hp Gp]. apply bottom_In in Hn as [Hn Ln].
    assert (p = n) by (apply (ids_tell_apart arr); congruence).
    subst n. apply isLoss_not_isGain in Ln. congruence.
Qed.

Lemma selection_gains :
  filter isGain (top ++ bottom) = top.
Proof.
  rewrite filter_app, filter_all, filter_none.
  - apply app_nil_r.
  - intros d Hd. apply bottom_In in Hd as [_ Hd].
    now apply isLoss_not_isGain.
  - intros d Hd. now apply top_In in Hd.
Qed.

Lemma top_length :
  List.length top = Nat.min posN (List.length (filter isGain arr)).
Proof.
  unfold top. rewrite length_firstn.
  now rewrite (Permutation_length (spec_perm HG)).
Qed.

(** Every gain left out is no better than any gain selected. *)
Lemma top_dominates (p q : Aggregate) :
  In p top -> In q arr -> isGain q = true -> ~ In q top ->
  geb (avgPct p) (avgPct q) = true.
Proof.
  intros Hp Hq Gq Nq.
  assert (Hs : In q sortedGains).
  { apply (Permutation_in _ (spec_perm HG)). now apply filter_In. }
  rewrite <- (firstn_skipn posN sortedGains) in Hs.
  apply in_app_or in Hs as [Hs|Hs]; [contradiction|].
  pose proof (spec_order HG) as Ho. unfold InOrder in Ho.
  rewrite <- (firstn_skipn posN sortedGains) in Ho.
  pose proof (StronglySorted_app_inv _ _ Ho p q Hp Hs) as Hpq.
  simpl in Hpq. rewrite descending_ranked_gt in Hpq.
  apply top_In in Hp as [_ Gp].
  unfold geb. destruct (ltb (avgPct q) (avgPct p)) eqn:E; [reflexivity|].
  simpl. apply ltb_total; auto using isGain_ranked.
Qed.

End Selection.

Lemma StronglySorted_impl_In {A} (R1 R2 : A -> A -> Prop) (l : list A) :
  (forall a b, In a l -> In b l -> R1 a b -> R2 a b) ->
  StronglySorted R1 l -> StronglySorted R2 l.
Proof.
  intros H S. induction S as [|x l S IH F]; constructor.
  - apply IH. intros a b Ha Hb. apply H; now right.
  - rewrite Forall_forall in *. intros b Hb.
    apply H; [now left|now right|auto].
Qed.

Lemma gains_descending (arr : list Aggregate) :
  StronglySorted (fun a b => geb (avgPct a) (avgPct b) = true)
                 (sort byAvgDescending (filter isGain arr)).
Proof.
  pose proof (gains_spec arr) as [P O _].
  eapply StronglySorted_impl_In; [|exact O]. clear O. simpl.
  intros a b Ha Hb Hab. rewrite descending_ranked_gt in Hab.
  apply (Permutation_in _ (Permutation_sym P)), filter_In in Ha as [_ Ga].
  apply (Permutation_in _ (Permutation_sym P)), filter_In in Hb as [_ Gb].
  unfold geb. destruct (ltb (avgPct b) (avgPct a)) eqn:E; [reflexivity|].
  simpl. apply ltb_total; auto using isGain_ranked.
Qed.

Lemma isLoss_not_NaN (d : Aggregate) :
  isLoss d = true -> isNaN (avgPct d) = false.
Proof. unfold isLoss. intros H. now apply ltb_not_NaN in H. Qed.

Lemma losses_ascending (arr : list Aggregate) :
  StronglySorted (fun a b => leb (avgPct a) (avgPct b) = true)
                 (sort byAvgAscending (filter isLoss arr)).
Proof.
  pose proof (losses_spec arr) as [P O _].
  eapply StronglySorted_impl_In; [|exact O]. clear O. simpl.
  intros a b Ha Hb Hab. rewrite ascending_ranked_gt, ltb_neg in Hab.
  apply (Permutation_in _ (Permutation_sym P)), filter_In in Ha as [_ La].
  apply (Permutation_in _ (Permutation_sym P)), filter_In in Hb as [_ Lb].
  unfold leb. destruct (ltb (avgPct a) (avgPct b)) eqn:E; [reflexivity|].
  simpl. apply ltb_total; auto using isLoss_not_NaN.
Qed.

Lemma pickTopBottomN_NoDup (posN negN : nat) (arr : list Aggregate) :
  NoDup (map id arr) ->
  pickTopBottomN posN negN arr
  = firstn posN (sort byAvgDescending (filter isGain arr))
    ++ rev (firstn negN (sort byAvgAscending (filter isLoss arr))).
Proof.
  intros H. rewrite pickTopBottomN_unfold. apply uniqueById_NoDup.
  exact (selection_NoDup posN negN _ (gains_spec arr) (losses_spec arr) H).
Qed.

(** C2.  Whatever the aggregates and the two bounds, the Rank Selector
    returns at most [posN + negN] entries, each one an input aggregate
    whose mean is not 0, hence nothing when every mean is 0; and, the
    aggregates having distinct identities, the gains it returns are
    the [min posN (number of gains)] best: each has a mean at least
    that of every gain left out.  The aggregates published for a dataset
    have distinct identities. *)
Theorem rank_selector_bounds :
  (forall (posN negN : nat) (arr : list Aggregate),
      let out := pickTopBottomN posN negN arr in
      (List.length out <= posN + negN)%nat
      /\ (forall d, In d out -> In d arr /\ avgPct d <> zero)
      /\ ((forall d, In d arr -> avgPct d = zero) -> out = [])
      /\ (NoDup (map id arr) ->
          List.length (filter isGain out)
          = Nat.min posN (List.length (filter isGain arr))
          /\ forall p q,
              In p out -> isGain p = true ->
              In q arr -> isGain q = true -> ~ In q out ->
              geb (avgPct p) (avgPct q) = true))
  /\ (forall (ds : Dataset) (rows : list Row) (groups : Map string Group),
        aggregate ds rows = Ok groups ->
        NoDup (map id (summaries ds groups))).
Proof.
  split; [|exact summaries_ids_NoDup].
  intros posN negN arr out.
  pose proof (gains_spec arr) as HG. pose proof (losses_spec arr) as HL.
  assert (Hin : forall d, In d out -> In d arr /\ avgPct d <> zero).
  { intros d Hd. unfold out in Hd. rewrite pickTopBottomN_unfold in Hd.
    apply uniqueById_In, in_app_or in Hd as [Hd|Hd].
    - apply (top_In posN _ HG) in Hd as [Hd G]. auto using isGain_not_zero.
    - apply (bottom_In negN _ HL) in Hd as [Hd L].
      auto using isLoss_not_zero. }
  split; [|split; [exact Hin|split]].
  - unfold out. rewrite pickTopBottomN_unfold.
    etransitivity; [apply uniqueById_length|].
    apply (selection_length posN negN).
  - intros Hz. destruct out as [|d rest] eqn:E; [reflexivity|].
    destruct (Hin d (or_introl eq_refl)) as [Hd Nd].
    now specialize (Hz d Hd).
  - intros Hnd. unfold out. rewrite (pickTopBottomN_NoDup _ _ _ Hnd).
    rewrite (selection_gains posN negN _ HG HL). split.
    + apply (top_length posN _ HG).
    + intros p q Hp Gp Hq Gq Nq.
      apply (top_dominates posN _ HG); auto.
      * apply in_app_or in Hp as [Hp|Hp]; [assumption|].
        apply (bottom_In negN _ HL) in Hp as [_ Lp].
        apply isLoss_not_isGain in Lp. congruence.
      * intros Hq'. apply Nq, in_or_app. now left.
Qed.

(** The theorem at Scenario C with two gains and one loss asked for: the
    gain of mean 5 is returned, the gain of mean 1 is not, and 5 >= 1. *)
Lemma rank_selector_bounds_witness :
  NoDup (map id scenarioC)
  /\ geb (avgPct (agg "a" 5)) (avgPct (agg "c" 1)) = true.
Proof.
  assert (Hnd : NoDup (map id scenarioC)).
  { vm_compute. repeat constructor; simpl; intuition discriminate. }
  split; [exact Hnd|].
  destruct rank_selector_bounds as [B _].
  destruct (B 2%nat 1%nat scenarioC) as (_ & _ & _ & H).
  destruct (H Hnd) as [_ Hdom].
  apply Hdom.
  - vm_compute. tauto.
  - reflexivity.
  - vm_compute. tauto.
  - reflexivity.
  - vm_compute. intuition discriminate.
Defined.

(** C3.  For aggregates with distinct identities, as those published for
    a dataset are, the output of the Rank Selector is the first [posN]
    gains, sorted by mean descending, followed by the reverse of the first
    [negN] losses sorted by mean ascending; when a loss is asked for and
    there is one, the last entry is a loss whose mean is at most that of
    every loss.  With [posN = 2], [negN = 1] and means [5, 3, 1, -2, -7]
    the means come out as [5, 3, -7]. *)
Theorem rank_selector_order :
  (forall (posN negN : nat) (arr : list Aggregate),
      NoDup (map id arr) ->
      let gains := sort byAvgDescending (filter isGain arr) in
      let losses := sort byAvgAscending (filter isLoss arr) in
      let out := pickTopBottomN posN negN arr in
      out = firstn posN gains ++ rev (firstn negN losses)
      /\ Permutation (filter isGain arr) gains
      /\ StronglySorted (fun a b => geb (avgPct a) (avgPct b) = true) gains
      /\ Permutation (filter isLoss arr) losses
      /\ StronglySorted (fun a b => leb (avgPct a) (avgPct b) = true) losses
      /\ ((0 < negN)%nat -> (exists d, In d arr /\ isLoss d = true) ->
          exists front m,
            out = front ++ [m] /\ isLoss m = true
            /\ forall d, In d arr -> isLoss d = true ->
                         leb (avgPct m) (avgPct d) = true))
  /\ (forall (ds : Dataset) (rows : list Row) (groups : Map string Group),
        aggregate ds rows = Ok groups ->
        NoDup (map id (summaries ds groups)))
  /\ map avgPct (pickTopBottomN 2 1 scenarioC) = [of_Z 5; of_Z 3; of_Z (-7)].
Proof.
  split; [|split; [exact summaries_ids_NoDup|num_eq]].
  intros posN negN arr Hnd gains losses out.
  assert (Eout : out = firstn posN gains ++ rev (firstn negN losses))
    by (apply pickTopBottomN_NoDup; assumption).
  pose proof (losses_spec arr) as HL. fold losses in HL.
  pose proof (losses_ascending arr) as SL. fold losses in SL.
  repeat split; try assumption.
  - apply (spec_perm (gains_spec arr)).
  - apply gains_descending.
  - apply (spec_perm HL).
  - intros Hn (d0 & Hd0 & Ld0).
    assert (I0 : In d0 losses).
    { apply (Permutation_in _ (spec_perm HL)). now apply filter_In. }
    destruct losses as [|m rest] eqn:El; [contradiction|].
    destruct negN as [|n]; [lia|].
    exists (firstn posN gains ++ rev (firstn n rest)), m.
    assert (Lm : isLoss m = true).
    { assert (I : In m (m :: rest)) by now left.
      apply (Permutation_in _ (Permutation_sym (spec_perm HL))) in I.
      now apply filter_In in I. }
    repeat split.
    + rewrite Eout. simpl. now rewrite app_assoc.
    + exact Lm.
    + intros d Hd Ld.
      assert (I : In d (m :: rest)).
      { apply (Permutation_in _ (spec_perm HL)). now apply filter_In. }
      apply StronglySorted_inv in SL as [_ SL].
      destruct I as [<-|I].
      * unfold leb. rewrite (eqb_refl _ (isLoss_not_NaN _ Lm)).
        apply orb_true_r.
      * rewrite Forall_forall in SL. now apply SL.
Qed.

(** The theorem at Scenario C: the selection ends with the aggregate of
    mean -7. *)
Lemma rank_selector_order_witness :
  NoDup (map id scenarioC)
  /\ pickTopBottomN 2 1 scenarioC
     = firstn 2 (sort byAvgDescending (filter isGain scenarioC))
       ++ rev (firstn 1 (sort byAvgAscending (filter isLoss scenarioC))).
Proof.
  assert (Hnd : NoDup (map id scenarioC)).
  { vm_compute. repeat constructor; simpl; intuition discriminate. }
  split; [exact Hnd|].
  destruct rank_selector_order as [H _].
  exact (proj1 (H 2%nat 1%nat scenarioC Hnd)).
Defined.

End SelectorFacts.

(* ================================================================== *)
(** * [d3.rollup] *)

Module RollupFacts.
Import JS JSFacts D3 RollupSpecs.

Section Rollup.
Variables A K R : Type.
Variable K_eqb : K -> K -> bool.
Hypothesis K_eqb_spec : forall a b, K_eqb a b = true <-> a = b.
Variable keyof : A -> K.

Lemma group_push_lookup (m : Map K (list A)) (v : A) (k : K) :
  map_get K_eqb k (group_push K_eqb keyof m v)
  = if K_eqb (keyof v) k
    then Some (match map_get K_eqb k m with
               | Some g => g ++ [v]
               | None => [v]
               end)
    else map_get K_eqb k m.
Proof.
  unfold group_push.
  destruct (K_eqb (keyof v) k) eqn:E.
  - apply K_eqb_spec in E. subst k.
    destruct (map_get K_eqb (keyof v) m);
      now rewrite (map_get_set_eq _ K_eqb_spec).
  - assert (Hne : k <> keyof v).
    { intros ->. rewrite (proj2 (K_eqb_spec _ _) eq_refl) in E.
      discriminate. }
    destruct (map_get K_eqb (keyof v) m);
      now rewrite (map_get_set_neq _ K_eqb_spec _ _ Hne).
Qed.

Lemma group_push_NoDup (m : Map K (list A)) (v : A) :
  NoDup (map_keys m) -> NoDup (map_keys (group_push K_eqb keyof m v)).
Proof.
  intros H. unfold group_push.
  destruct (map_get K_eqb (keyof v) m);
    now apply (map_set_NoDup _ K_eqb_spec).
Qed.

Lemma group_lookup_from (values : list A) (m : Map K (list A)) (k : K) :
  map_get K_eqb k (fold_left (group_push K_eqb keyof) values m)
  = extend (map_get K_eqb k m) (keyed K_eqb keyof k values).
Proof.
  revert m. induction values as [|v values IH]; intros m; simpl.
  - reflexivity.
  - rewrite IH, group_push_lookup.
    destruct (K_eqb (keyof v) k); [|reflexivity].
    unfold extend. simpl.
    destruct (keyed K_eqb keyof k values), (map_get K_eqb k m);
      try reflexivity; now rewrite <- app_assoc.
Qed.

Lemma group_lookup (values : list A) (k : K) :
  map_get K_eqb k (group K_eqb values keyof)
  = match keyed K_eqb keyof k values with [] => None | g => Some g end.
Proof.
  unfold group. rewrite group_lookup_from. simpl.
  now destruct (keyed K_eqb keyof k values).
Qed.

Lemma group_NoDup (values : list A) :
  NoDup (map_keys (group K_eqb values keyof)).
Proof.
  unfold group.
  assert (H : NoDup (map_keys (@nil (K * list A)))) by constructor.
  revert H. generalize (@nil (K * list A)).
  induction values as [|v values IH]; intros m H; simpl; [assumption|].
  apply IH. now apply group_push_NoDup.
Qed.

Variable reduce : list A -> R.

Lemma rollup_keys (values : list A) :
  map_keys (rollup K_eqb values reduce keyof)
  = map_keys (group K_eqb values keyof).
Proof.
  unfold rollup, map_keys. rewrite map_map.
  apply map_ext. now intros [k g].
Qed.

Lemma rollup_lookup (values : list A) (k : K) :
  map_get K_eqb k (rollup K_eqb values reduce keyof)
  = match keyed K_eqb keyof k values with [] => None | g => Some (reduce g) end.
Proof.
  unfold rollup.
  assert (H : forall m : Map K (list A),
             map_get K_eqb k (map (fun '(key, g) => (key, reduce g)) m)
             = option_map reduce (map_get K_eqb k m)).
  { induction m as [|[k' g] m IH]; simpl; [reflexivity|].
    destruct (K_eqb k k'); [reflexivity|exact IH]. }
  rewrite H, group_lookup. now destruct (keyed K_eqb keyof k values).
Qed.

(** Every entry of the roll-up reduces the rows of its key, of which
    there is one at least. *)
Lemma rollup_In (values : list A) (k : K) (r : R) :
  In (k, r) (rollup K_eqb values reduce keyof) ->
  keyed K_eqb keyof k values <> [] /\ r = reduce (keyed K_eqb keyof k values).
Proof.
  intros H.
  apply (In_map_get _ K_eqb_spec) in H;
    [|rewrite rollup_keys; apply group_NoDup].
  rewrite rollup_lookup in H.
  destruct (keyed K_eqb keyof k values); [discriminate|].
  split; [discriminate|congruence].
Qed.

(** A row leaves the entries of the other keys as they are. *)
Lemma rollup_frame (l1 l2 : list A) (v : A) (k : K) :
  k <> keyof v ->
  map_get K_eqb k (rollup K_eqb (l1 ++ v :: l2) reduce keyof)
  = map_get K_eqb k (rollup K_eqb (l1 ++ l2) reduce keyof).
Proof.
  intros Hne. rewrite !rollup_lookup. unfold keyed.
  rewrite !filter_app. simpl.
  destruct (K_eqb (keyof v) k) eqn:E; [|reflexivity].
  apply K_eqb_spec in E. congruence.
Qed.

End Rollup.

End RollupFacts.

(* ================================================================== *)
(** * The treemap: normalisation *)

Module TreemapFacts.
Import JS Treemap JSFacts RollupSpecs RollupFacts TreemapSpecs.
Local Open Scope Qc_scope.

Lemma PosFinite_raw_q (d : Leaf) :
  PosFinite d -> rawValue d = Fin (raw_q d) /\ 0 < raw_q d.
Proof.
  intros (q & E & H). unfold raw_q. rewrite E. auto.
Qed.

Lemma total_q_nonneg (children : list Leaf) :
  Forall PosFinite children -> 0 <= total_q children.
Proof.
  induction 1 as [|d l Hd _ IH]; simpl.
  - apply Qcle_refl.
  - apply PosFinite_raw_q in Hd as [_ Hd].
    apply Qclt_le_weak. rewrite Qcplus_comm. now apply Qc_pos_add.
Qed.

Lemma total_q_pos (children : list Leaf) :
  Forall PosFinite children -> children <> [] -> 0 < total_q children.
Proof.
  intros H Hne. destruct H as [|d l Hd Hl]; [congruence|]. simpl.
  apply PosFinite_raw_q in Hd as [_ Hd].
  rewrite Qcplus_comm. apply Qc_pos_add; [|assumption].
  now apply total_q_nonneg.
Qed.

Lemma sum_rawValue_from (children : list Leaf) (acc : Qc) :
  Forall PosFinite children ->
  fold_left
    (fun a d => let value := rawValue d in
                if truthy value then add a value else a)
    children (Fin acc)
  = Fin (acc + total_q children).
Proof.
  intros H. revert acc.
  induction H as [|d l Hd _ IH]; intros acc; simpl.
  - now rewrite Qcplus_0_r.
  - apply PosFinite_raw_q in Hd as [E Hd]. rewrite E.
    rewrite (truthy_pos Hd). simpl. rewrite IH. f_equal. ring.
Qed.

Lemma sum_rawValue (children : list Leaf) :
  Forall PosFinite children ->
  D3.sum children rawValue = Fin (total_q children).
Proof.
  intros H. unfold D3.sum, zero.
  etransitivity; [exact (sum_rawValue_from 0 H)|].
  now rewrite Qcplus_0_l.
Qed.

Lemma partitionTotal_pos (children : list Leaf) :
  Forall PosFinite children -> children <> [] ->
  partitionTotal children = Fin (total_q children).
Proof.
  intros H Hne. unfold partitionTotal. rewrite (sum_rawValue H).
  unfold or_else. now rewrite (truthy_pos (total_q_pos H Hne)).
Qed.

Lemma sum_rawValue_PInf (children : list Leaf) :
  Forall (fun d => rawPositive d = true) children ->
  fold_left
    (fun a d => let value := rawValue d in
                if truthy value then add a value else a)
    children PInf
  = PInf.
Proof.
  induction 1 as [|d l Hd _ IH]; simpl; [reflexivity|].
  unfold rawPositive, gtb in Hd.
  destruct (rawValue d); simpl in *; try discriminate; auto.
  now destruct (negb (Qc_eqb q 0)).
Qed.

(** The sum of positive raw values is infinite, or they are all finite. *)
Lemma sum_rawValue_cases (children : list Leaf) (acc : Qc) :
  Forall (fun d => rawPositive d = true) children ->
  fold_left
    (fun a d => let value := rawValue d in
                if truthy value then add a value else a)
    children (Fin acc)
  = PInf
  \/ Forall (fun d => isFinite (rawValue d) = true) children.
Proof.
  intros H. revert acc.
  induction H as [|d l Hd Hl IH]; intros acc; simpl; [now right|].
  unfold rawPositive, gtb in Hd.
  destruct (rawValue d) as [| | |q] eqn:E; simpl in Hd; try discriminate.
  - left. simpl. now apply sum_rawValue_PInf.
  - destruct (truthy (Fin q)); simpl.
    + destruct (IH (acc + q)) as [E'|F]; [left; exact E'|right].
      constructor; [now rewrite E|assumption].
    + destruct (IH acc) as [E'|F]; [left; exact E'|right].
      constructor; [now rewrite E|assumption].
Qed.

Lemma normalize_Normalized (all : list Leaf) :
  let raw := filter rawPositive all in
  Normalized raw (partitionTotal raw) (normalize (partitionTotal raw) raw).
Proof.
  intros raw. unfold Normalized. repeat split.
  - unfold normalize. rewrite map_map. simpl. apply map_id.
  - unfold normalize in H. apply in_map_iff in H as (d & <- & Hd). simpl.
    apply filter_In in Hd. apply Hd.
  - unfold normalize in H. apply in_map_iff in H as (d & <- & Hd).
    reflexivity.
  - apply or_else_one_nonzero.
  - rewrite H. reflexivity.
  - rewrite H. reflexivity.
Qed.

(** C1.  In both partitions (Stocks, Crypto) the Value Normalizer emits
    one node per aggregate with [rawValue > 0], its value being
    [rawValue / partitionTotal]; the divisor is the sum of the raw values
    kept, or 1 when that is falsy, never zero, and when no aggregate is
    kept nothing is emitted.  Raw volumes 300 and 100 yield 0.75 and 0.25,
    which sum to 1.  At a stock row whose volume cell reads Infinity the
    sector is kept by the filter, the divisor is infinite too and the
    only value emitted is [NaN]: the values of the partition sum to 0,
    not to 1. *)
Theorem value_normalizer_partitions :
  (forall companyRows stockRows cryptoRows : list Row,
      Normalized (stockChildrenRaw companyRows stockRows)
                 (stockTotal companyRows stockRows)
                 (stockChildren companyRows stockRows)
      /\ Normalized (cryptoChildrenRaw cryptoRows)
                    (cryptoTotal cryptoRows)
                    (cryptoChildren cryptoRows))
  /\ (map value (stockChildren companiesB stocksB) = [ratio 3 4; ratio 1 4]
      /\ sumValues (stockChildren companiesB stocksB) = one)
  /\ (map rawValue (stockChildrenRaw [] infiniteVolumeRows) = [PInf]
      /\ stockTotal [] infiniteVolumeRows = PInf
      /\ map value (stockChildren [] infiniteVolumeRows) = [NaN]
      /\ sumValues (stockChildren [] infiniteVolumeRows) = zero
      /\ sumValues (stockChildren [] infiniteVolumeRows) <> one).
Proof.
  split; [|split].
  - intros. split; apply normalize_Normalized.
  - num_eq.
  - repeat split; try (vm_compute; discriminate); num_eq.
Qed.

Local Close Scope Qc_scope.

(** ** Sectors *)

Lemma sectorByTicker_snoc (companyRows : list Row) (c : Row) :
  sectorByTicker (companyRows ++ [c])
  = map_set key_eqb (field c "ticker") (str_or (field c "sector") "Unknown")
            (sectorByTicker companyRows).
Proof. unfold sectorByTicker. now rewrite fold_left_app. Qed.

Lemma sectorByTicker_lookup (companyRows : list Row) (t : option string) :
  map_get key_eqb t (sectorByTicker companyRows)
  = option_map (fun c => str_or (field c "sector") "Unknown")
               (companyOf companyRows t).
Proof.
  unfold companyOf.
  induction companyRows as [|c rows IH] using rev_ind; [reflexivity|].
  rewrite sectorByTicker_snoc, rev_app_distr. simpl.
  destruct (key_eqb (field c "ticker") t) eqn:E.
  - apply key_eqb_spec in E. subst t.
    now rewrite (map_get_set_eq _ key_eqb_spec).
  - rewrite (map_get_set_neq _ key_eqb_spec); [exact IH|].
    intros ->. now rewrite (proj2 (key_eqb_spec _ _) eq_refl) in E.
Qed.

Lemma str_or_Unknown (v : option string) :
  str_or (Some (str_or v "Unknown")) "Unknown" = str_or v "Unknown".
Proof. destruct v as [[|c s]|]; reflexivity. Qed.

(** The sector of a stock row: that of the companies row deciding its
    ticker, "Unknown" when there is none or when it names no sector. *)
Lemma sectorKey_companyOf (companyRows : list Row) (r : Row) :
  sectorKey companyRows r
  = match companyOf companyRows (field r "symbol") with
    | Some c => str_or (field c "sector") "Unknown"
    | None => "Unknown"
    end.
Proof.
  unfold sectorKey. rewrite sectorByTicker_lookup.
  destruct (companyOf companyRows (field r "symbol")); simpl;
    [apply str_or_Unknown|reflexivity].
Qed.

Lemma sectorAgg_In (companyRows stockRows : list Row) sector stats :
  In (sector, stats) (sectorAgg companyRows stockRows) ->
  sectorRows companyRows stockRows sector <> []
  /\ stats = sectorReduce (sectorRows companyRows stockRows sector).
Proof. apply (rollup_In _ string_eqb_spec). Qed.

Lemma sectorAgg_lookup (companyRows stockRows : list Row) (sector : string) :
  map_get String.eqb sector (sectorAgg companyRows stockRows)
  = match sectorRows companyRows stockRows sector with
    | [] => None
    | g => Some (sectorReduce g)
    end.
Proof. apply (rollup_lookup _ string_eqb_spec). Qed.

(** C9.  Every Crypto leaf of the treemap has count 1, however many rows
    carry the coin's symbol, whereas the count of a Stocks leaf is the
    number of stock rows of its sector, at least one: two rows of one coin
    make a leaf of count 1, two rows of one sector a leaf of count 2. *)
Theorem leaf_counts :
  forall companyRows stockRows cryptoRows : list Row,
    (forall n, In n (cryptoChildren cryptoRows) -> count (leaf n) = 1%nat)
    /\ (forall n, In n (stockChildren companyRows stockRows) ->
                  exists sector,
                    name (leaf n) = Some sector
                    /\ count (leaf n)
                       = List.length (sectorRows companyRows stockRows sector)
                    /\ (1 <= count (leaf n))%nat)
    /\ map (fun n => count (leaf n)) (cryptoChildren twoCoinRows) = [1%nat]
    /\ map (fun n => count (leaf n)) (stockChildren [] twoStockRows)
       = [2%nat].
Proof.
  intros companyRows stockRows cryptoRows.
  split; [|split; [|split; reflexivity]].
  - intros n Hn. unfold cryptoChildren, normalize in Hn.
    apply in_map_iff in Hn as (d & <- & Hd). simpl.
    unfold cryptoChildrenRaw in Hd. apply filter_In in Hd as [Hd _].
    apply in_map_iff in Hd as ([sym stats] & <- & _). reflexivity.
  - intros n Hn. unfold stockChildren, normalize in Hn.
    apply in_map_iff in Hn as (d & <- & Hd). simpl.
    unfold stockChildrenRaw in Hd. apply filter_In in Hd as [Hd _].
    apply in_map_iff in Hd as ([sector stats] & <- & Hin). simpl.
    apply sectorAgg_In in Hin as [Hne ->]. simpl.
    exists sector. repeat split.
    destruct (sectorRows companyRows stockRows sector);
      [congruence|simpl; lia].
Qed.

(** The theorem at two rows of one coin. *)
Lemma leaf_counts_witness :
  Forall (fun n => count (leaf n) = 1%nat) (cryptoChildren twoCoinRows).
Proof.
  apply Forall_forall. intros n Hn.
  exact (proj1 (leaf_counts [] [] twoCoinRows) n Hn).
Defined.

(** C10.  A stock row whose ticker no companies row carries, or whose
    deciding companies row names no sector, is kept: its sector is
    "Unknown" and the roll-up has an "Unknown" entry made from the stock
    rows of that sector, this row among them: its count is their number,
    its total their summed volume, its mean that of their changes.  When
    that summed volume is positive the entry makes a leaf named "Unknown"
    with the same count and raw value, whose value is the raw value over
    the Stocks total, the divisor of every other sector.  A lone row of
    volume 5 and unknown ticker makes the leaf "Unknown" of count 1, raw
    value 5 and value 1. *)
Theorem unknown_sector :
  forall (companyRows stockRows : list Row) (r : Row),
    In r stockRows ->
    (companyOf companyRows (field r "symbol") = None
     \/ exists c, companyOf companyRows (field r "symbol") = Some c
                  /\ (field c "sector" = None
                      \/ field c "sector" = Some "")) ->
    let rows := sectorRows companyRows stockRows "Unknown" in
    sectorKey companyRows r = "Unknown"
    /\ In r rows
    /\ (exists stats,
          In ("Unknown", stats) (sectorAgg companyRows stockRows)
          /\ totalLiquidity stats = D3.sum rows vol_of
          /\ sector_avgChange stats = D3.mean rows chg_of
          /\ sector_count stats = List.length rows
          /\ (1 <= sector_count stats)%nat)
    /\ (gtb (D3.sum rows vol_of) zero = true ->
        exists n,
          In n (stockChildren companyRows stockRows)
          /\ name (leaf n) = Some "Unknown"
          /\ count (leaf n) = List.length rows
          /\ rawValue (leaf n) = D3.sum rows vol_of
          /\ avgChange (leaf n) = D3.mean rows chg_of
          /\ value n = div (D3.sum rows vol_of)
                           (stockTotal companyRows stockRows))
    /\ (gtb (D3.sum rows vol_of) zero = false ->
        forall n, In n (stockChildren companyRows stockRows) ->
                  name (leaf n) <> Some "Unknown").
Proof.
  intros companyRows stockRows r Hr Hc rows.
  assert (Hk : sectorKey companyRows r = "Unknown").
  { rewrite sectorKey_companyOf.
    destruct Hc as [->|(c & -> & [->| ->])]; reflexivity. }
  assert (Hin : In r rows).
  { apply filter_In. split; [assumption|]. now rewrite Hk. }
  assert (Hagg : In ("Unknown", sectorReduce rows)
                    (sectorAgg companyRows stockRows)).
  { apply (map_get_In _ string_eqb_spec). rewrite sectorAgg_lookup.
    fold rows. destruct rows; [contradiction|reflexivity]. }
  split; [exact Hk|]. split; [exact Hin|]. split; [|split].
  - exists (sectorReduce rows). repeat split; try assumption.
    simpl. destruct rows; [contradiction|simpl; lia].
  - intros Hpos.
    set (d := {| name := Some "Unknown"; symbol := None; type := "Stocks";
                 rawValue := totalLiquidity (sectorReduce rows);
                 avgChange := sector_avgChange (sectorReduce rows);
                 count := sector_count (sectorReduce rows) |}).
    exists {| leaf := d;
              value := div (rawValue d) (stockTotal companyRows stockRows) |}.
    repeat split.
    unfold stockChildren, normalize.
    apply in_map_iff. exists d. split; [reflexivity|].
    unfold stockChildrenRaw. apply filter_In. split; [|exact Hpos].
    apply in_map_iff. exists ("Unknown", sectorReduce rows). auto.
  - intros Hnot n Hn Hname.
    unfold stockChildren, normalize in Hn.
    apply in_map_iff in Hn as (d & <- & Hd). simpl in Hname.
    unfold stockChildrenRaw in Hd. apply filter_In in Hd as [Hd Hpos].
    apply in_map_iff in Hd as ([sector stats] & <- & Hs).
    simpl in Hname. injection Hname as ->.
    apply sectorAgg_In in Hs as [_ ->].
    change (gtb (D3.sum rows vol_of) zero = true) in Hpos.
    congruence.
Qed.

(** The theorem at a lone stock row with no companies row at all: the
    leaf "Unknown" of count 1, raw value 5 and value 1. *)
Lemma unknown_sector_witness :
  companyOf [] (Some "ZZZ") = None
  /\ sectorKey [] [("symbol", "ZZZ"); ("vol_", "5")] = "Unknown"
  /\ gtb (D3.sum (sectorRows [] orphanRows "Unknown") vol_of) zero = true
  /\ exists n,
       In n (stockChildren [] orphanRows)
       /\ name (leaf n) = Some "Unknown"
       /\ count (leaf n) = 1%nat
       /\ rawValue (leaf n) = of_Z 5
       /\ value n = one.
Proof.
  split; [reflexivity|].
  assert (Hin : In [("symbol", "ZZZ"); ("vol_", "5")] orphanRows)
    by (left; reflexivity).
  assert (Hpos : gtb (D3.sum (sectorRows [] orphanRows "Unknown") vol_of)
                     zero = true) by reflexivity.
  destruct (unknown_sector [] orphanRows _ Hin (or_introl eq_refl))
    as (Hk & _ & _ & Hleaf & _).
  split; [exact Hk|]. split; [exact Hpos|].
  destruct (Hleaf Hpos) as (n & Hn & Hname & Hcount & Hraw & _ & Hval).
  exists n. split; [exact Hn|]. split; [exact Hname|].
  split; [exact Hcount|].
  split; [rewrite Hraw; num_eq|rewrite Hval; num_eq].
Defined.

End TreemapFacts.

(* ================================================================== *)
(** * The two pipelines as a whole *)

Module PipelineFacts.
Import JS JSFacts MarketViz SortSpecs SortFacts SelectorSpecs SelectorFacts.
Import AggregatorSpecs AggregatorFacts RollupFacts PipelineSpecs.
Import TreemapSpecs CoverageSpecs.

Lemma members_frame (ds : Dataset) (k : string) (l1 l2 : list Row) (row : Row) :
  member ds k row = false ->
  members ds k (l1 ++ row :: l2) = members ds k (l1 ++ l2).
Proof.
  intros H. unfold members. rewrite !filter_app. simpl. now rewrite H.
Qed.

(** ** Cells that are not numbers in the roll-ups *)

Lemma or_else_zero_NaN (x : num) : isNaN x = true -> or_else x zero = zero.
Proof. destruct x; try discriminate. reflexivity. Qed.

Lemma or_else_zero_isNaN (x : num) : isNaN (or_else x zero) = false.
Proof.
  unfold or_else. destruct (truthy x) eqn:E; [|reflexivity]. now destruct x.
Qed.

(** [d3.sum] passes over a value that is falsy. *)
Lemma sum_passes_over {A} (f : A -> num) (l1 l2 : list A) (v : A) :
  truthy (f v) = false -> D3.sum (l1 ++ v :: l2) f = D3.sum (l1 ++ l2) f.
Proof.
  intros H. unfold D3.sum. rewrite !fold_left_app. simpl. now rewrite H.
Qed.

(** [d3.mean] over values none of which is [NaN]: their sum, folded from
    the left, over their number. *)
Lemma mean_of_numbers {A} (f : A -> num) (l : list A) :
  (forall v, isNaN (f v) = false) ->
  D3.mean l f
  = match l with
    | [] => None
    | _ :: _ => Some (div (fold_left add (map f l) zero)
                          (of_nat (List.length l)))
    end.
Proof.
  intros Hf. unfold D3.mean.
  match goal with
  | |- context [fold_left ?step l ?init] =>
      assert (H : forall c t,
                 fold_left step l (c, t)
                 = ((c + List.length l)%nat, fold_left add (map f l) t))
  end.
  { induction l as [|v l IH]; intros c t; simpl.
    - now rewrite Nat.add_0_r.
    - unfold geb. rewrite (eqb_refl _ (Hf v)), orb_true_r, IH.
      f_equal. lia. }
  rewrite H. simpl. now destruct l.
Qed.

Lemma keyed_split {A} (test : A -> bool) (l1 l2 : list A) (v : A) :
  test v = true ->
  filter test (l1 ++ v :: l2) = filter test l1 ++ v :: filter test l2
  /\ List.length (filter test (l1 ++ v :: l2))
     = S (List.length (filter test (l1 ++ l2)))
  /\ In v (filter test (l1 ++ v :: l2)).
Proof.
  intros H. rewrite !filter_app. simpl. rewrite H. repeat split.
  - rewrite !length_app. simpl. lia.
  - apply in_or_app. right. now left.
Qed.

Lemma cryptoAgg_lookup (cryptoRows : list Row) (sym : option string) :
  map_get key_eqb sym (Treemap.cryptoAgg cryptoRows)
  = match coinRows cryptoRows sym with
    | [] => None
    | g => Some (Treemap.coinReduce g)
    end.
Proof. apply (rollup_lookup _ key_eqb_spec). Qed.

(** C6 (as amended).  In the two bar-chart aggregations a row whose value
    parses to [NaN] is dropped without an error: the result is that of the
    input without the row; a row whose value parses to an infinity is
    folded into the group of its key, which counts it and sums it.  In the
    two roll-ups of the treemap every row is kept in the entry of its key:
    the entry counts it, a volume or capitalisation cell that is not a
    number adds nothing to the total, and a change cell that is not a
    number enters the mean as 0.  Any row at all leaves the groups of the
    other keys as they are, in the bar-chart aggregations and in the two
    roll-ups. *)
Theorem unparsable_value_rows :
  (forall (ds : Dataset) (l1 l2 : list Row) (row : Row),
      isNaN (pctOf ds row) = true ->
      aggregate ds (l1 ++ row :: l2) = aggregate ds (l1 ++ l2))
  /\ (forall (ds : Dataset) (l1 l2 : list Row) (row : Row) g1 g2 k,
        aggregate ds (l1 ++ row :: l2) = Ok g1 ->
        aggregate ds (l1 ++ l2) = Ok g2 ->
        member ds k row = false ->
        map_get String.eqb k g1 = map_get String.eqb k g2)
  /\ (forall (companyRows l1 l2 : list Row) (row : Row) k,
        k <> Treemap.sectorKey companyRows row ->
        map_get String.eqb k (Treemap.sectorAgg companyRows (l1 ++ row :: l2))
        = map_get String.eqb k (Treemap.sectorAgg companyRows (l1 ++ l2)))
  /\ (forall (l1 l2 : list Row) (row : Row) k,
        k <> field row "symbol" ->
        map_get key_eqb k (Treemap.cryptoAgg (l1 ++ row :: l2))
        = map_get key_eqb k (Treemap.cryptoAgg (l1 ++ l2)))
  /\ (forall (ds : Dataset) (l1 l2 : list Row) (row : Row) (ident : string)
             (groups : Map string Group),
        pctOf ds row = PInf \/ pctOf ds row = NInf ->
        field row (ds_ident ds) = Some ident ->
        aggregate ds (l1 ++ row :: l2) = Ok groups ->
        let k := toLowerCase (trim ident) in
        let ms := members ds k (l1 ++ row :: l2) in
        In row ms
        /\ exists g,
             map_get String.eqb k groups = Some g
             /\ g_count g = S (List.length (members ds k (l1 ++ l2)))
             /\ sum g = fold_left add (map (pctOf ds) ms) zero)
  /\ (forall (companyRows l1 l2 : list Row) (row : Row),
        let k := Treemap.sectorKey companyRows row in
        let rows := sectorRows companyRows (l1 ++ row :: l2) k in
        let rest := sectorRows companyRows (l1 ++ l2) k in
        In row rows
        /\ exists stats,
             map_get String.eqb k
                     (Treemap.sectorAgg companyRows (l1 ++ row :: l2))
             = Some stats
             /\ Treemap.sector_count stats = S (List.length rest)
             /\ Treemap.totalLiquidity stats = D3.sum rows Treemap.vol_of
             /\ Treemap.sector_avgChange stats
                = Some (div (fold_left add (map Treemap.chg_of rows) zero)
                            (of_nat (S (List.length rest))))
             /\ (isNaN (to_number (field row "vol_")) = true ->
                 Treemap.vol_of row = zero
                 /\ Treemap.totalLiquidity stats
                    = D3.sum rest Treemap.vol_of)
             /\ (isNaN (to_number (field row "chg_%")) = true ->
                 Treemap.chg_of row = zero))
  /\ (forall (l1 l2 : list Row) (row : Row),
        let k := field row "symbol" in
        let rows := coinRows (l1 ++ row :: l2) k in
        let rest := coinRows (l1 ++ l2) k in
        In row rows
        /\ exists stats,
             map_get key_eqb k (Treemap.cryptoAgg (l1 ++ row :: l2))
             = Some stats
             /\ Treemap.totalCap stats = D3.sum rows Treemap.cap_of
             /\ Treemap.coin_avgChange stats
                = Some (div (fold_left add (map Treemap.chg7d_of rows) zero)
                            (of_nat (S (List.length rest))))
             /\ (isNaN (Treemap.cap_of row) = true ->
                 Treemap.totalCap stats = D3.sum rest Treemap.cap_of)
             /\ (isNaN (to_number (field row "chg_7d")) = true ->
                 Treemap.chg7d_of row = zero)).
Proof.
  split; [|split; [|split; [|split; [|split; [|split]]]]].
  - intros ds l1 l2 row. apply aggregate_skip.
  - intros ds l1 l2 row g1 g2 k H1 H2 Hm.
    rewrite (aggregate_lookup _ _ H1), (aggregate_lookup _ _ H2).
    now rewrite members_frame.
  - intros companyRows l1 l2 row k Hne.
    apply (rollup_frame _ string_eqb_spec). exact Hne.
  - intros l1 l2 row k Hne.
    apply (rollup_frame _ key_eqb_spec). exact Hne.
  - intros ds l1 l2 row ident groups Hinf Hid H k ms.
    assert (V : isNaN (pctOf ds row) = false)
      by (destruct Hinf as [-> | ->]; reflexivity).
    pose proof (member_intro _ _ V Hid) as M. fold k in M.
    destruct (keyed_split (member ds k) l1 l2 row M) as (_ & Hlen & Hin).
    split; [exact Hin|].
    assert (Hrow : In row (l1 ++ row :: l2))
      by (apply in_or_app; right; now left).
    destruct (aggregate_member _ _ _ _ H Hrow M) as [g Hg].
    exists g.
    destruct (aggregate_In _ _ _ _ H Hg) as (first & rest & Em & Eg).
    split.
    + apply (In_map_get _ string_eqb_spec); [|exact Hg].
      exact (aggregate_NoDup _ _ H).
    + unfold ms. unfold members in *. rewrite <- Hlen, Em, Eg. simpl.
      split; reflexivity.
  - intros companyRows l1 l2 row k rows rest.
    assert (T : String.eqb (Treemap.sectorKey companyRows row) k = true)
      by apply String.eqb_refl.
    destruct (keyed_split
                (fun r => String.eqb (Treemap.sectorKey companyRows r) k)
                l1 l2 row T) as (Hsplit & Hlen & Hin).
    fold (sectorRows companyRows (l1 ++ row :: l2) k) in Hsplit, Hlen, Hin.
    fold (sectorRows companyRows (l1 ++ l2) k) in Hlen.
    fold rows in Hsplit, Hlen, Hin. fold rest in Hlen.
    split; [exact Hin|].
    exists (Treemap.sectorReduce rows).
    split.
    { rewrite TreemapFacts.sectorAgg_lookup. fold rows.
      destruct rows; [contradiction|reflexivity]. }
    split; [exact Hlen|]. split; [reflexivity|]. split.
    { cbn [Treemap.sector_avgChange Treemap.sectorReduce].
      rewrite mean_of_numbers
        by (intros v; apply or_else_zero_isNaN).
      rewrite <- Hlen. destruct rows; [contradiction|reflexivity]. }
    split.
    { intros Hnan.
      pose proof (or_else_zero_NaN _ Hnan) as Z.
      split; [exact Z|].
      cbn [Treemap.totalLiquidity Treemap.sectorReduce].
      unfold rows, rest, sectorRows. rewrite !filter_app. simpl.
      rewrite T. apply sum_passes_over.
      unfold Treemap.vol_of. now rewrite Z. }
    intros Hnan. exact (or_else_zero_NaN _ Hnan).
  - intros l1 l2 row k rows rest.
    assert (T : key_eqb (field row "symbol") k = true)
      by now apply key_eqb_spec.
    destruct (keyed_split (fun r => key_eqb (field r "symbol") k)
                          l1 l2 row T) as (Hsplit & Hlen & Hin).
    fold (coinRows (l1 ++ row :: l2) k) in Hsplit, Hlen, Hin.
    fold (coinRows (l1 ++ l2) k) in Hlen.
    fold rows in Hsplit, Hlen, Hin. fold rest in Hlen.
    split; [exact Hin|].
    exists (Treemap.coinReduce rows).
    split.
    { rewrite cryptoAgg_lookup. fold rows.
      destruct rows; [contradiction|reflexivity]. }
    split; [reflexivity|]. split.
    { cbn [Treemap.coin_avgChange Treemap.coinReduce].
      rewrite mean_of_numbers
        by (intros v; apply or_else_zero_isNaN).
      rewrite <- Hlen. destruct rows; [contradiction|reflexivity]. }
    split.
    { intros Hnan.
      cbn [Treemap.totalCap Treemap.coinReduce].
      unfold rows, rest, coinRows. rewrite !filter_app. simpl.
      rewrite T. apply sum_passes_over.
      destruct (Treemap.cap_of row); try discriminate. reflexivity. }
    intros Hnan. exact (or_else_zero_NaN _ Hnan).
Qed.

(** The theorem at a stock row whose percentage is a dash, between two
    rows of Scenario A. *)
Lemma unparsable_value_rows_witness :
  isNaN (pctOf stockSet [("name", "AAA"); ("chg_%", "-")]) = true
  /\ aggregate stockSet
       ([ [("name", "AAA"); ("chg_%", "+2.00%")] ]
          ++ [("name", "AAA"); ("chg_%", "-")]
          :: [ [("name", "aaa"); ("chg_%", "-1.00%")] ])
     = aggregate stockSet scenarioA.
Proof.
  assert (H : isNaN (pctOf stockSet [("name", "AAA"); ("chg_%", "-")]) = true)
    by reflexivity.
  split; [exact H|].
  exact (proj1 unparsable_value_rows stockSet _ _ _ H).
Defined.

(** C6 as stated fails.  A percentage reading "Infinity" is no finite
    number, yet its row is folded into its group; and in the treemap
    roll-up a row whose cells are not numbers still counts in its sector,
    with value 0: the sector has count 2 and mean change 1 with such a
    row, count 1 and mean change 2 without. *)
Lemma unparsable_value_counterexample :
  isFinite (pctOf stockSet infiniteRow) = false
  /\ stockGroups [infiniteRow]
     = Ok [("aaa", {| g_category := "Stock"; g_code := "AAA"; g_name := None;
                      sum := PInf; g_count := 1 |})]
  /\ to_number (field dashRow "vol_") = NaN
  /\ to_number (field dashRow "chg_%") = NaN
  /\ map_get String.eqb "Unknown" (Treemap.sectorAgg [] [plainRow; dashRow])
     = Some {| Treemap.totalLiquidity := of_Z 100;
               Treemap.sector_avgChange := Some (of_Z 1);
               Treemap.sector_count := 2 |}
  /\ map_get String.eqb "Unknown" (Treemap.sectorAgg [] [plainRow])
     = Some {| Treemap.totalLiquidity := of_Z 100;
               Treemap.sector_avgChange := Some (of_Z 2);
               Treemap.sector_count := 1 |}.
Proof. num_eq. Qed.

(** ** Determinism *)

Lemma picks_function (posN negN : nat) (arr : list Aggregate) :
  picks posN negN arr (pickTopBottomN posN negN arr).
Proof.
  rewrite pickTopBottomN_unfold.
  apply picks_intro; [apply gains_spec|apply losses_spec].
Qed.

Lemma picks_unique (posN negN : nat) (arr o1 o2 : list Aggregate) :
  picks posN negN arr o1 -> picks posN negN arr o2 -> o1 = o2.
Proof.
  intros [g1 l1 G1 L1] [g2 l2 G2 L2].
  assert (g1 = g2).
  { eapply sort_spec_unique with (rank := avgPct);
      eauto using descending_ranked_gt, descending_ranked_lt. }
  assert (l1 = l2).
  { eapply sort_spec_unique with (rank := fun d => neg (avgPct d));
      eauto using ascending_ranked_gt, ascending_ranked_lt. }
  now subst.
Qed.

Lemma selects_function (st cr : list Aggregate) : selects st cr (select st cr).
Proof.
  unfold select.
  destruct st as [|a st].
  - destruct cr as [|b cr]; [now constructor|].
    apply selects_panels; [right; discriminate| |]; apply picks_function.
  - apply selects_panels; [left; discriminate| |]; apply picks_function.
Qed.

Lemma selects_unique (st cr : list Aggregate) (o1 o2 : Outcome) :
  selects st cr o1 -> selects st cr o2 -> o1 = o2.
Proof.
  intros [E1 E2|s1 c1 N1 S1 C1] [F1 F2|s2 c2 N2 S2 C2].
  - reflexivity.
  - destruct N2; congruence.
  - destruct N1; congruence.
  - f_equal; eapply picks_unique; eassumption.
Qed.

(** C8.  [renderMarketViz] is one of the runs the language allows on its
    input, and any two runs on the same rows end alike: they throw alike,
    or return the same aggregates and the same selections, entry for entry
    in the same order. *)
Theorem pipeline_deterministic :
  forall stocksRaw cryptoRaw : list Row,
    runs stocksRaw cryptoRaw (renderMarketViz stocksRaw cryptoRaw)
    /\ forall o1 o2,
        runs stocksRaw cryptoRaw o1 -> runs stocksRaw cryptoRaw o2 ->
        o1 = o2.
Proof.
  intros stocksRaw cryptoRaw. split.
  - unfold renderMarketViz.
    destruct (stocks stocksRaw) as [st|e] eqn:Es; simpl;
      [|now apply runs_stocks_throw].
    destruct (cryptos cryptoRaw) as [cr|e] eqn:Ec; simpl;
      [|now apply runs_cryptos_throw with (st := st)].
    apply runs_ok; auto using selects_function.
  - intros o1 o2 R1 R2.
    destruct R1 as [e1 T1|st1 e1 S1 T1|st1 cr1 x1 S1 C1 X1];
      destruct R2 as [e2 T2|st2 e2 S2 T2|st2 cr2 x2 S2 C2 X2];
      try congruence.
    assert (st1 = st2) by congruence. assert (cr1 = cr2) by congruence.
    subst. f_equal. f_equal. eapply selects_unique; eassumption.
Qed.

(** The theorem at Scenario A, the run being that of the function. *)
Lemma pipeline_deterministic_witness :
  runs scenarioA [] (renderMarketViz scenarioA [])
  /\ renderMarketViz scenarioA [] = renderMarketViz scenarioA [].
Proof.
  destruct (pipeline_deterministic scenarioA []) as [R U].
  split; [exact R|exact (U _ _ R R)].
Defined.

End PipelineFacts.

(* ================================================================== *)
(** * More on the Group Aggregator *)

Module CoverageFacts.
Import JS JSFacts MarketViz AggregatorSpecs AggregatorFacts CoverageSpecs.

Lemma foldRow_throw_inv (ds : Dataset) (m : Map string Group) (d : Row) e :
  foldRow ds m d = Throw e -> nameless ds d.
Proof.
  unfold foldRow, nameless, pctOf.
  destruct (isNaN (parsePct (field d (ds_pct ds)))); [discriminate|].
  destruct (field d (ds_ident ds)); [discriminate|]. auto.
Qed.

Lemma for_of_throw_inv (ds : Dataset) (rows : list Row) (m : Map string Group) e :
  for_of (foldRow ds) rows m = Throw e ->
  exists d, In d rows /\ nameless ds d.
Proof.
  revert m. induction rows as [|d rows IH]; intros m; simpl; [discriminate|].
  destruct (foldRow ds m d) as [m1|e1] eqn:E.
  - intros H. destruct (IH _ H) as (d' & Hd' & N). exists d'. auto.
  - intros _. exists d. split; [now left|].
    exact (foldRow_throw_inv _ _ _ E).
Qed.

(** X1.  An aggregation loop throws exactly when some row has a parsable
    percentage and no identifier column; otherwise it returns. *)
Theorem aggregate_throws_iff :
  forall (ds : Dataset) (rows : list Row),
    aggregate ds rows = Throw TypeError
    <-> exists d, In d rows /\ nameless ds d.
Proof.
  intros ds rows. split.
  - apply for_of_throw_inv.
  - intros (d & Hd & Hv & Hi).
    apply in_split in Hd as (l1 & l2 & ->).
    now apply aggregate_throw.
Qed.

Lemma map_set_tally {V} (f : V -> nat) (k : string) (v : V)
      (m : Map string V) :
  (list_sum (map f (map_values (map_set String.eqb k v m)))
   + match map_get String.eqb k m with Some v0 => f v0 | None => 0 end
   = list_sum (map f (map_values m)) + f v)%nat.
Proof.
  induction m as [|[k' v'] m IH]; simpl; [lia|].
  destruct (String.eqb k k'); simpl; lia.
Qed.

(** What one iteration does to the map. *)
Lemma foldRow_cases (ds : Dataset) (m m' : Map string Group) (d : Row) :
  foldRow ds m d = Ok m' ->
  (parsable ds d = false /\ m' = m)
  \/ (parsable ds d = true
      /\ exists k,
          keyOf ds d = Some k
          /\ m' = map_set String.eqb k
                       (bump match map_get String.eqb k m with
                             | Some g => g
                             | None => fresh ds d
                             end
                             (pctOf ds d))
                       m).
Proof.
  unfold foldRow, parsable, keyOf, pctOf, fresh, bump.
  destruct (isNaN (parsePct (field d (ds_pct ds)))); simpl.
  - intros [= <-]. now left.
  - destruct (field d (ds_ident ds)) as [ident|]; [|discriminate].
    intros [= <-]. right. split; [reflexivity|].
    exists (toLowerCase (trim ident)). split; reflexivity.
Qed.

Lemma foldRow_tally (ds : Dataset) (m m' : Map string Group) (d : Row) :
  foldRow ds m d = Ok m' ->
  list_sum (counts m')
  = (list_sum (counts m) + if parsable ds d then 1 else 0)%nat.
Proof.
  intros H. apply foldRow_cases in H as [[-> ->]|(-> & k & _ & ->)]; [lia|].
  unfold counts.
  pose proof (map_set_tally (fun g => g_count g) k
                (bump match map_get String.eqb k m with
                      | Some g => g
                      | None => fresh ds d
                      end (pctOf ds d)) m) as T.
  destruct (map_get String.eqb k m); simpl in T; lia.
Qed.

Lemma for_of_tally (ds : Dataset) (rows : list Row) (m m' : Map string Group) :
  for_of (foldRow ds) rows m = Ok m' ->
  list_sum (counts m')
  = (list_sum (counts m) + List.length (filter (parsable ds) rows))%nat.
Proof.
  revert m. induction rows as [|d rows IH]; intros m; simpl.
  - intros [= <-]. lia.
  - destruct (foldRow ds m d) as [m1|] eqn:E; [|discriminate].
    intros H. rewrite (IH _ H), (foldRow_tally _ _ _ E).
    destruct (parsable ds d); simpl; lia.
Qed.

(** X2.  When an aggregation loop returns, the counts of its groups, and
    so those of the aggregates published, add up to the number of rows
    whose percentage parses: each such row is counted once. *)
Theorem counts_add_up :
  forall (ds : Dataset) (rows : list Row) (groups : Map string Group),
    aggregate ds rows = Ok groups ->
    list_sum (counts groups) = List.length (filter (parsable ds) rows)
    /\ list_sum (map count (summaries ds groups))
       = List.length (filter (parsable ds) rows).
Proof.
  intros ds rows groups H.
  pose proof (for_of_tally _ _ _ H) as T. simpl in T.
  split; [exact T|].
  rewrite <- T. unfold summaries, counts. now rewrite map_map.
Qed.

(** The theorem at Scenario A: two parsable rows, counts adding up to 2. *)
Lemma counts_add_up_witness :
  exists groups,
    aggregate stockSet scenarioA = Ok groups
    /\ list_sum (counts groups) = 2%nat.
Proof.
  destruct (aggregate stockSet scenarioA) as [groups|e] eqn:E;
    [|vm_compute in E; discriminate E].
  exists groups. split; [reflexivity|].
  exact (proj1 (counts_add_up stockSet scenarioA E)).
Defined.

(** Keys after one [set]. *)
Lemma map_keys_set {V} (k : string) (v : V) (m : Map string V) :
  map_keys (map_set String.eqb k v m)
  = if existsb (String.eqb k) (map_keys m)
    then map_keys m else map_keys m ++ [k].
Proof.
  induction m as [|[k' v'] m IH]; simpl; [reflexivity|].
  destruct (String.eqb k k'); simpl; [reflexivity|].
  rewrite IH. now destruct (existsb (String.eqb k) (map_keys m)).
Qed.

Lemma for_of_keys (ds : Dataset) (rows : list Row) (m m' : Map string Group) :
  for_of (foldRow ds) rows m = Ok m' ->
  map_keys m'
  = fold_left
      (fun seen k => if existsb (String.eqb k) seen then seen else seen ++ [k])
      (foldedKeys ds rows) (map_keys m).
Proof.
  revert m. induction rows as [|d rows IH]; intros m; simpl.
  - now intros [= <-].
  - destruct (foldRow ds m d) as [m1|] eqn:E; [|discriminate].
    intros H. rewrite (IH _ H). unfold foldedKeys. cbn [filter].
    apply foldRow_cases in E as [[Ep ->]|(Ep & k & Ek & ->)]; rewrite Ep;
      [reflexivity|].
    cbn [flat_map]. rewrite Ek. cbn [app fold_left].
    now rewrite map_keys_set.
Qed.

(** X3.  When an aggregation loop returns, its groups, and so the
    aggregates published, come in the order in which their keys first
    appear among the rows whose percentage parses. *)
Theorem groups_in_first_appearance_order :
  forall (ds : Dataset) (rows : list Row) (groups : Map string Group),
    aggregate ds rows = Ok groups ->
    map_keys groups = firsts (foldedKeys ds rows)
    /\ map (fun a => toLowerCase (code a)) (summaries ds groups)
       = firsts (foldedKeys ds rows).
Proof.
  intros ds rows groups H.
  pose proof (for_of_keys _ _ _ H) as K. simpl in K.
  split; [exact K|].
  unfold firsts. rewrite <- K.
  unfold summaries, map_values, map_keys. rewrite !map_map.
  apply map_ext_in. intros [k g] Hin. simpl.
  eapply group_key_label; eassumption.
Qed.

(** The theorem at three rows of two groups, the second group met
    between two rows of the first. *)
Lemma groups_in_first_appearance_order_witness :
  exists groups,
    aggregate stockSet
      ([("name", "B"); ("chg_%", "1")] :: [("name", "A"); ("chg_%", "2")]
       :: [("name", " b"); ("chg_%", "3")] :: [])
    = Ok groups
    /\ map_keys groups = ["b"; "a"].
Proof.
  destruct (aggregate stockSet
              ([("name", "B"); ("chg_%", "1")]
               :: [("name", "A"); ("chg_%", "2")]
               :: [("name", " b"); ("chg_%", "3")] :: []))
    as [groups|e] eqn:E; [|vm_compute in E; discriminate E].
  exists groups. split; [reflexivity|].
  exact (proj1 (groups_in_first_appearance_order stockSet _ E)).
Defined.

Lemma aggregate_nothing_parsable (ds : Dataset) (rows : list Row) :
  (forall d, In d rows -> isNaN (pctOf ds d) = true) ->
  aggregate ds rows = Ok [].
Proof.
  unfold aggregate. induction rows as [|d rows IH]; intros H; simpl;
    [reflexivity|].
  rewrite foldRow_skip by (apply H; now left).
  apply IH. intros d' Hd'. apply H. now right.
Qed.

Lemma aggregate_empty_inv (ds : Dataset) (rows : list Row) :
  aggregate ds rows = Ok [] ->
  forall d, In d rows -> isNaN (pctOf ds d) = true.
Proof.
  intros H d Hd.
  pose proof (for_of_tally _ _ _ H) as T. simpl in T.
  destruct (isNaN (pctOf ds d)) eqn:E; [reflexivity|exfalso].
  assert (I : In d (filter (parsable ds) rows)).
  { apply filter_In. split; [assumption|]. unfold parsable. now rewrite E. }
  destruct (filter (parsable ds) rows); [contradiction|discriminate].
Qed.

(** X4.  [renderMarketViz] stops at the message that no value parsed
    exactly when no row of either file has a percentage that parses; no
    aggregate is published then. *)
Theorem no_valid_values_iff :
  forall stocksRaw cryptoRaw : list Row,
    let nothingParses :=
      (forall d, In d stocksRaw -> isNaN (pctOf stockSet d) = true)
      /\ (forall d, In d cryptoRaw -> isNaN (pctOf cryptoSet d) = true) in
    ((exists st cr, renderMarketViz stocksRaw cryptoRaw
                    = Ok (st, cr, NoValidValues))
     <-> nothingParses)
    /\ (renderMarketViz stocksRaw cryptoRaw = Ok ([], [], NoValidValues)
        <-> nothingParses).
Proof.
  intros stocksRaw cryptoRaw nothingParses.
  assert (Back : nothingParses
                 -> renderMarketViz stocksRaw cryptoRaw
                    = Ok ([], [], NoValidValues)).
  { intros [Hs Hc].
    unfold renderMarketViz, stocks, cryptos, stockGroups, cryptoGroups.
    rewrite (aggregate_nothing_parsable _ _ Hs).
    rewrite (aggregate_nothing_parsable _ _ Hc). reflexivity. }
  assert (Forth : (exists st cr, renderMarketViz stocksRaw cryptoRaw
                                 = Ok (st, cr, NoValidValues))
                  -> nothingParses).
  { unfold renderMarketViz, stocks, cryptos, stockGroups, cryptoGroups.
    intros (st & cr & H).
    destruct (aggregate stockSet stocksRaw) as [gs|] eqn:Es; [|discriminate].
    destruct (aggregate cryptoSet cryptoRaw) as [gc|] eqn:Ec; [|discriminate].
    simpl in H. injection H as <- <- Hsel.
    unfold select, summaries, map_values in Hsel.
    destruct gs as [|? ?]; [|discriminate].
    destruct gc as [|? ?]; [|discriminate].
    split; eapply aggregate_empty_inv; eassumption. }
  split; split; try assumption.
  - intros H. exists [], []. now apply Back.
  - intros H. apply Forth. now exists [], [].
Qed.

End CoverageFacts.

(* ================================================================== *)
(** * More on the Rank Selector, and the layout it feeds *)

Module SelectionMoreFacts.
Import JS JSFacts MarketViz SortSpecs SortFacts SelectorSpecs SelectorFacts.
Import AggregatorSpecs AggregatorFacts CoverageSpecs JSMath Layout.

(** ** Order of the whole selection *)

Section Ordered.
Variable A : Type.
Variable R : A -> A -> Prop.

Lemma ordered_take (n : nat) (l : list A) :
  StronglySorted R l -> StronglySorted R (firstn n l).
Proof.
  intros S. revert n. induction S as [|x l S IH F]; intros [|n]; simpl;
    try constructor; [apply IH|].
  rewrite Forall_forall in *. intros y Hy. apply F.
  now apply firstn_incl in Hy.
Qed.

Lemma ordered_glue (front back : list A) :
  StronglySorted R front -> StronglySorted R back ->
  (forall a b, In a front -> In b back -> R a b) ->
  StronglySorted R (front ++ back).
Proof.
  intros Sf Sb Hfb. induction Sf as [|x l S IH F]; simpl; [assumption|].
  constructor.
  - apply IH. intros a b Ha. apply Hfb. now right.
  - apply Forall_app. split; [assumption|].
    apply Forall_forall. intros b Hb. apply Hfb; [now left|assumption].
Qed.
End Ordered.

Lemma ordered_backwards {A} (R : A -> A -> Prop) (l : list A) :
  StronglySorted R l -> StronglySorted (fun a b => R b a) (rev l).
Proof.
  induction 1 as [|x l S IH F]; simpl; [constructor|].
  apply ordered_glue; [assumption|repeat constructor|].
  intros a b Ha [<-|[]]. rewrite Forall_forall in F.
  apply F. now apply in_rev.
Qed.

Lemma eqb_sym (x y : num) : eqb x y = eqb y x.
Proof.
  destruct x, y; simpl; try reflexivity.
  destruct (Qc_eqb q q0) eqn:E1, (Qc_eqb q0 q) eqn:E2; try reflexivity.
  - apply Qc_eqb_eq in E1. subst. now rewrite Qc_eqb_refl in E2.
  - apply Qc_eqb_eq in E2. subst. now rewrite Qc_eqb_refl in E1.
Qed.

Lemma leb_geb (x y : num) : leb x y = geb y x.
Proof. unfold leb, geb. now rewrite eqb_sym. Qed.

Lemma gain_above_loss (p n : Aggregate) :
  isGain p = true -> isLoss n = true -> geb (avgPct p) (avgPct n) = true.
Proof.
  unfold isGain, isLoss, gtb, geb. intros Hp Hn.
  now rewrite (ltb_trans _ _ _ Hn Hp).
Qed.

(** X5.  For aggregates with distinct identities the whole selection
    runs from the highest mean to the lowest: no entry is followed by one
    of a greater mean. *)
Theorem selection_descending :
  forall (posN negN : nat) (arr : list Aggregate),
    NoDup (map id arr) ->
    StronglySorted (fun a b => geb (avgPct a) (avgPct b) = true)
                   (pickTopBottomN posN negN arr).
Proof.
  intros posN negN arr Hnd. rewrite (pickTopBottomN_NoDup _ _ _ Hnd).
  apply ordered_glue.
  - apply ordered_take, gains_descending.
  - pose proof (ordered_backwards
                  (ordered_take negN (losses_ascending arr))) as B.
    simpl in B. eapply StronglySorted_impl_In; [|exact B].
    intros a b _ _ H. simpl in H. now rewrite <- leb_geb.
  - intros a b Ha Hb.
    apply (top_In posN _ (gains_spec arr)) in Ha as [_ Ga].
    apply (bottom_In negN _ (losses_spec arr)) in Hb as [_ Lb].
    now apply gain_above_loss.
Qed.

(** The theorem at Scenario C. *)
Lemma selection_descending_witness :
  NoDup (map id scenarioC)
  /\ StronglySorted (fun a b => geb (avgPct a) (avgPct b) = true)
                    (pickTopBottomN 2 1 scenarioC).
Proof.
  assert (Hnd : NoDup (map id scenarioC)).
  { vm_compute. repeat constructor; simpl; intuition discriminate. }
  split; [exact Hnd|exact (selection_descending 2 1 scenarioC Hnd)].
Defined.

(** ** Nothing cut *)

Lemma gains_and_losses (arr : list Aggregate) :
  Permutation (filter isGain arr ++ filter isLoss arr)
              (filter (fun d => isGain d || isLoss d) arr).
Proof.
  induction arr as [|d arr IH]; simpl; [constructor|].
  destruct (isGain d) eqn:G, (isLoss d) eqn:L; simpl.
  - apply isLoss_not_isGain in L. congruence.
  - now constructor.
  - rewrite <- Permutation_middle. now constructor.
  - exact IH.
Qed.

(** X6.  When there are at most [posN] gains and at most [negN] losses
    nothing is cut: the selection is made of every aggregate whose mean is
    above or below 0, each once. *)
Theorem selection_keeps_all :
  forall (posN negN : nat) (arr : list Aggregate),
    NoDup (map id arr) ->
    (List.length (filter isGain arr) <= posN)%nat ->
    (List.length (filter isLoss arr) <= negN)%nat ->
    Permutation (pickTopBottomN posN negN arr)
                (filter (fun d => isGain d || isLoss d) arr).
Proof.
  intros posN negN arr Hnd Hg Hl.
  rewrite (pickTopBottomN_NoDup _ _ _ Hnd).
  pose proof (spec_perm (gains_spec arr)) as Pg.
  pose proof (spec_perm (losses_spec arr)) as Pl.
  rewrite !firstn_all2
    by (erewrite <- Permutation_length; eassumption).
  rewrite <- gains_and_losses, <- Permutation_rev.
  apply Permutation_app; now symmetry.
Qed.

(** The theorem at Scenario C with room for all five. *)
Lemma selection_keeps_all_witness :
  NoDup (map id scenarioC)
  /\ Permutation (pickTopBottomN 10 10 scenarioC)
                 (filter (fun d => isGain d || isLoss d) scenarioC).
Proof.
  assert (Hnd : NoDup (map id scenarioC)).
  { vm_compute. repeat constructor; simpl; intuition discriminate. }
  split; [exact Hnd|].
  apply selection_keeps_all; [exact Hnd|vm_compute; lia|vm_compute; lia].
Defined.

(** ** Bands and heights *)

Lemma selection_from_input (posN negN : nat) (arr : list Aggregate) d :
  In d (pickTopBottomN posN negN arr) ->
  In d arr /\ (isGain d = true \/ isLoss d = true).
Proof.
  rewrite pickTopBottomN_unfold. intros H.
  apply uniqueById_In, in_app_or in H as [H|H].
  - apply (top_In posN _ (gains_spec arr)) in H. tauto.
  - apply (bottom_In negN _ (losses_spec arr)) in H. tauto.
Qed.

Lemma selection_size (posN negN : nat) (arr : list Aggregate) :
  (List.length (pickTopBottomN posN negN arr) <= posN + negN)%nat.
Proof.
  rewrite pickTopBottomN_unfold.
  etransitivity; [apply uniqueById_length|].
  apply (selection_length posN negN).
Qed.

(** X7.  The codes of the aggregates selected for a dataset are pairwise
    distinct: the band scale built on them has one band for each bar. *)
Theorem band_domain_distinct :
  forall (ds : Dataset) (rows : list Row) (groups : Map string Group)
         (posN negN : nat),
    aggregate ds rows = Ok groups ->
    let sel := pickTopBottomN posN negN (summaries ds groups) in
    NoDup (bandDomain sel)
    /\ List.length (bandDomain sel) = List.length sel.
Proof.
  intros ds rows groups posN negN H sel.
  split; [|apply length_map].
  pose proof (summaries_ids_NoDup _ _ H) as Hnd.
  assert (Hsel : NoDup (map id sel)).
  { unfold sel. rewrite (pickTopBottomN_NoDup _ _ _ Hnd).
    exact (selection_NoDup posN negN _ (gains_spec _) (losses_spec _) Hnd). }
  assert (E : map id sel
              = map (fun c => (ds_category ds ++ "|" ++ c)%string)
                    (bandDomain sel)).
  { unfold bandDomain. rewrite map_map. apply map_ext_in. intros d Hd.
    apply selection_from_input in Hd as [Hd _].
    unfold summaries in Hd. apply in_map_iff in Hd as (g & <- & _).
    reflexivity. }
  rewrite E in Hsel. now apply NoDup_map_inv in Hsel.
Qed.

(** The theorem at Scenario A. *)
Lemma band_domain_distinct_witness :
  exists groups,
    aggregate stockSet scenarioA = Ok groups
    /\ NoDup (bandDomain (pickTopBottom (summaries stockSet groups))).
Proof.
  destruct (aggregate stockSet scenarioA) as [groups|e] eqn:E;
    [|vm_compute in E; discriminate E].
  exists groups. split; [reflexivity|].
  exact (proj1 (band_domain_distinct stockSet scenarioA POS_N NEG_N E)).
Defined.

(** X8.  Whatever the aggregates, each panel is between 140 and 400 units
    high, 140 exactly when it shows five bars at most, and leaves every
    bar 18 units besides 40; the drawing as a whole is between 420 and
    940 units high. *)
Theorem panel_heights :
  forall stocks cryptos : list Aggregate,
    let stocksSel := pickTopBottom stocks in
    let cryptosSel := pickTopBottom cryptos in
    140 <= stocksPanelHeight stocksSel <= 400
    /\ 140 <= cryptoPanelHeight cryptosSel <= 400
    /\ Z.of_nat (List.length stocksSel) * 18 + 40
       <= stocksPanelHeight stocksSel
    /\ Z.of_nat (List.length cryptosSel) * 18 + 40
       <= cryptoPanelHeight cryptosSel
    /\ (stocksPanelHeight stocksSel = 140
        <-> (List.length stocksSel <= 5)%nat)
    /\ (cryptoPanelHeight cryptosSel = 140
        <-> (List.length cryptosSel <= 5)%nat)
    /\ 420 <= totalHeight stocksSel cryptosSel <= 940.
Proof.
  intros stocks cryptos stocksSel cryptosSel.
  assert (Ls : (List.length stocksSel <= 20)%nat)
    by apply (selection_size POS_N NEG_N).
  assert (Lc : (List.length cryptosSel <= 20)%nat)
    by apply (selection_size POS_N NEG_N).
  unfold totalHeight, stocksPanelHeight, cryptoPanelHeight, panelHeight,
    margin_top, margin_bottom, panelGap.
  repeat split; lia.
Qed.

(** ** The x domains *)

Lemma neg_neg (x : num) : neg (neg x) = x.
Proof. destruct x; simpl; try reflexivity. now rewrite Qcopp_involutive. Qed.

Lemma abs_numeric (x : num) : numeric x -> numeric (abs x).
Proof.
  unfold numeric. destruct x; simpl; auto.
  now destruct (Qc_ltb q (Q2Qc 0)).
Qed.

Lemma Qc_neg_pos (a : Qc) : (a < 0)%Qc -> (0 <= - a)%Qc.
Proof.
  intros H. apply Qclt_le_weak, Qcopp_le_compat in H.
  exact H.
Qed.

Lemma abs_above (x : num) : ltb (abs x) x = false.
Proof.
  destruct x; simpl; try reflexivity.
  destruct (Qc_ltb q (Q2Qc 0)) eqn:E; simpl; [|apply Qc_ltb_irrefl].
  apply Qc_ltb_lt in E.
  destruct (Qc_ltb (- q) q) eqn:F; [|reflexivity]. exfalso.
  apply Qc_ltb_lt in F. pose proof (Qc_neg_pos E) as P.
  apply (Qclt_not_le _ _ (Qclt_trans _ _ _ F E)). exact P.
Qed.

Lemma abs_above_neg (x : num) : ltb (abs x) (neg x) = false.
Proof.
  destruct x; simpl; try reflexivity.
  destruct (Qc_ltb q (Q2Qc 0)) eqn:E; simpl; [apply Qc_ltb_irrefl|].
  destruct (Qc_ltb q (- q)) eqn:F; [|reflexivity]. exfalso.
  apply Qc_ltb_lt in F.
  assert (P : (0 <= q)%Qc).
  { apply Qcnot_lt_le. intros L. apply Qc_ltb_lt in L. congruence. }
  pose proof (Qcopp_le_compat _ _ P) as N.
  apply (Qclt_not_le _ _ F). eapply Qcle_trans; [exact N|exact P].
Qed.

Lemma max2_numeric (x y : num) : numeric x -> numeric y -> numeric (max2 x y).
Proof.
  unfold numeric, max2. intros Hx Hy. rewrite Hx, Hy. simpl.
  now destruct (ltb x y).
Qed.

Lemma max2_above (x y : num) :
  numeric x -> numeric y ->
  ltb (max2 x y) x = false /\ ltb (max2 x y) y = false.
Proof.
  unfold numeric, max2. intros Hx Hy. rewrite Hx, Hy. simpl.
  destruct (ltb x y) eqn:E; split;
    auto using ltb_irrefl, ltb_asym.
Qed.

Lemma not_below_leb (x y : num) :
  numeric x -> numeric y -> ltb y x = false -> leb x y = true.
Proof.
  intros Nx Ny H. unfold leb.
  destruct (ltb x y) eqn:E; [reflexivity|]. simpl.
  now apply ltb_total.
Qed.

Lemma min_from (x : num) (values : list num) :
  numeric x -> Forall numeric values ->
  exists m,
    fold_left
      (fun m value =>
         match m with
         | Some x => if gtb x value then Some value else m
         | None => if geb value value then Some value else None
         end)
      values (Some x)
    = Some m
    /\ numeric m /\ ltb x m = false
    /\ Forall (fun v => ltb v m = false) values.
Proof.
  intros Nx F. revert x Nx.
  induction F as [|v values Nv _ IH]; intros x Nx; simpl.
  - exists x. auto using ltb_irrefl.
  - destruct (gtb x v) eqn:E; unfold gtb in E.
    + destruct (IH v Nv) as (m & -> & Nm & Hv & Hall).
      exists m. repeat split; auto.
      destruct (ltb x m) eqn:L; [|reflexivity].
      now rewrite (ltb_trans _ _ _ E L) in Hv.
    + destruct (IH x Nx) as (m & -> & Nm & Hx & Hall).
      exists m. repeat split; auto.
      constructor; [|assumption].
      exact (ltb_negtrans _ _ _ Nx E Hx).
Qed.

Lemma max_from (x : num) (values : list num) :
  numeric x -> Forall numeric values ->
  exists m,
    fold_left
      (fun m value =>
         match m with
         | Some x => if ltb x value then Some value else m
         | None => if geb value value then Some value else None
         end)
      values (Some x)
    = Some m
    /\ numeric m /\ ltb m x = false
    /\ Forall (fun v => ltb m v = false) values.
Proof.
  intros Nx F. revert x Nx.
  induction F as [|v values Nv _ IH]; intros x Nx; simpl.
  - exists x. auto using ltb_irrefl.
  - destruct (ltb x v) eqn:E.
    + destruct (IH v Nv) as (m & -> & Nm & Hv & Hall).
      exists m. repeat split; auto.
      destruct (ltb m x) eqn:L; [|reflexivity].
      now rewrite (ltb_trans _ _ _ L E) in Hv.
    + destruct (IH x Nx) as (m & -> & Nm & Hx & Hall).
      exists m. repeat split; auto.
      constructor; [|assumption].
      exact (ltb_negtrans _ _ _ Nx Hx E).
Qed.

Lemma geb_self (v : num) : numeric v -> geb v v = true.
Proof. intros N. unfold geb. rewrite (eqb_refl _ N). apply orb_true_r. Qed.

(** The least value, when there is one, is numeric and below every
    value; with no value the fallback 0 stands. *)
Lemma min_bound (values : list num) :
  Forall numeric values ->
  numeric (nullish (D3Extent.min values) zero)
  /\ Forall (fun v => ltb v (nullish (D3Extent.min values) zero) = false)
            values.
Proof.
  intros F. unfold D3Extent.min.
  destruct F as [|v values Nv F]; simpl; [split; [reflexivity|constructor]|].
  rewrite (geb_self Nv).
  destruct (min_from Nv F) as (m & -> & Nm & Hv & Hall). simpl.
  split; [assumption|]. now constructor.
Qed.

Lemma max_bound (values : list num) :
  Forall numeric values ->
  numeric (nullish (D3Extent.max values) zero)
  /\ Forall (fun v => ltb (nullish (D3Extent.max values) zero) v = false)
            values.
Proof.
  intros F. unfold D3Extent.max.
  destruct F as [|v values Nv F]; simpl; [split; [reflexivity|constructor]|].
  rewrite (geb_self Nv).
  destruct (max_from Nv F) as (m & -> & Nm & Hv & Hall). simpl.
  split; [assumption|]. now constructor.
Qed.

Lemma maxAbs_covers (least : num) (values : list num) :
  numeric least -> Forall numeric values ->
  let m := maxAbs least values in
  numeric m
  /\ leb least m = true
  /\ Forall (fun v => leb (neg m) v = true /\ leb v m = true) values.
Proof.
  intros Nl F m.
  destruct (min_bound F) as [Nlo Hlo]. destruct (max_bound F) as [Nhi Hhi].
  set (lo := nullish (D3Extent.min values) zero) in *.
  set (hi := nullish (D3Extent.max values) zero) in *.
  pose proof (abs_numeric Nlo) as Na. pose proof (abs_numeric Nhi) as Nb.
  assert (E : m = max2 (max2 (abs lo) (abs hi)) least).
  { unfold m, maxAbs, Math_max. simpl. fold lo hi.
    unfold max2 at 3. simpl. rewrite Na. now destruct (abs lo). }
  pose proof (max2_numeric Na Nb) as Nab.
  destruct (max2_above Na Nb) as [Ha Hb].
  destruct (max2_above Nab Nl) as [Hab Hl].
  rewrite <- E in Hab, Hl.
  assert (Nm : numeric m) by (rewrite E; now apply max2_numeric).
  assert (Ma : ltb m (abs lo) = false)
    by exact (ltb_negtrans _ _ _ Nab Hab Ha).
  assert (Mb : ltb m (abs hi) = false)
    by exact (ltb_negtrans _ _ _ Nab Hab Hb).
  split; [exact Nm|]. split; [now apply not_below_leb|].
  rewrite Forall_forall in *. intros v Hv.
  pose proof (F v Hv) as Nv. split; apply not_below_leb; auto.
  - unfold numeric. now rewrite isNaN_neg.
  - (* v >= lo >= -|lo| >= -m *)
    assert (L1 : ltb lo (neg (abs lo)) = false).
    { rewrite <- (neg_neg lo) at 1. rewrite ltb_neg. apply abs_above_neg. }
    assert (L2 : ltb (neg (abs lo)) (neg m) = false)
      by (now rewrite ltb_neg).
    assert (Nn : numeric (neg (abs lo)))
      by (unfold numeric; now rewrite isNaN_neg).
    pose proof (ltb_negtrans _ _ _ Nlo (Hlo v Hv) L1) as L3.
    exact (ltb_negtrans _ _ _ Nn L3 L2).
  - (* v <= hi <= |hi| <= m *)
    pose proof (ltb_negtrans _ _ _ Nb Mb (abs_above hi)) as U1.
    exact (ltb_negtrans _ _ _ Nhi U1 (Hhi v Hv)).
Qed.

Lemma selection_numeric (posN negN : nat) (arr : list Aggregate) :
  Forall numeric (map avgPct (pickTopBottomN posN negN arr)).
Proof.
  apply Forall_forall. intros v Hv.
  apply in_map_iff in Hv as (d & <- & Hd).
  apply selection_from_input in Hd as [_ [G|L]].
  - now apply isGain_ranked.
  - now apply isLoss_not_NaN.
Qed.

(** X9.  Whatever the aggregates, the bound of each x domain is a number,
    at least 0.5 for stocks and 1 for crypto, and the mean of every bar
    drawn lies between its opposite and itself: no bar leaves the
    domain. *)
Theorem x_domains_cover_bars :
  forall stocks cryptos : list Aggregate,
    let stocksSel := pickTopBottom stocks in
    let cryptosSel := pickTopBottom cryptos in
    (isNaN (stockMaxAbs stocksSel) = false
     /\ leb (ratio 1 2) (stockMaxAbs stocksSel) = true
     /\ forall d, In d stocksSel ->
                  leb (fst (xDomain (stockMaxAbs stocksSel))) (avgPct d) = true
                  /\ leb (avgPct d) (snd (xDomain (stockMaxAbs stocksSel)))
                     = true)
    /\ (isNaN (cryptoMaxAbs cryptosSel) = false
        /\ leb one (cryptoMaxAbs cryptosSel) = true
        /\ forall d, In d cryptosSel ->
                     leb (fst (xDomain (cryptoMaxAbs cryptosSel))) (avgPct d)
                     = true
                     /\ leb (avgPct d) (snd (xDomain (cryptoMaxAbs cryptosSel)))
                        = true).
Proof.
  intros stocks cryptos stocksSel cryptosSel. split.
  - destruct (maxAbs_covers (least := ratio 1 2) eq_refl
                (selection_numeric POS_N NEG_N stocks)) as (N & L & F).
    split; [exact N|]. split; [exact L|].
    intros d Hd. rewrite Forall_forall in F.
    apply F. now apply in_map.
  - destruct (maxAbs_covers (least := one) eq_refl
                (selection_numeric POS_N NEG_N cryptos)) as (N & L & F).
    split; [exact N|]. split; [exact L|].
    intros d Hd. rewrite Forall_forall in F.
    apply F. now apply in_map.
Qed.

End SelectionMoreFacts.

(* ================================================================== *)
(** * More on [d3.rollup] and on the treemap *)

Module RollupMoreFacts.
Import JS JSFacts D3 RollupSpecs RollupFacts CoverageSpecs.

Section Grouping.
Variables A K R : Type.
Variable K_eqb : K -> K -> bool.
Hypothesis K_eqb_spec : forall a b, K_eqb a b = true <-> a = b.
Variable keyof : A -> K.

Lemma set_tally {V} (f : V -> nat) (k : K) (v : V) (m : Map K V) :
  (list_sum (map f (map_values (map_set K_eqb k v m)))
   + match map_get K_eqb k m with Some v0 => f v0 | None => 0 end
   = list_sum (map f (map_values m)) + f v)%nat.
Proof.
  induction m as [|[k' v'] m IH]; simpl; [lia|].
  destruct (K_eqb k k'); simpl; lia.
Qed.

Lemma set_keys {V} (k : K) (v : V) (m : Map K V) :
  map_keys (map_set K_eqb k v m)
  = if existsb (K_eqb k) (map_keys m)
    then map_keys m else map_keys m ++ [k].
Proof.
  induction m as [|[k' v'] m IH]; simpl; [reflexivity|].
  destruct (K_eqb k k'); simpl; [reflexivity|].
  rewrite IH. now destruct (existsb (K_eqb k) (map_keys m)).
Qed.

Lemma group_push_tally (m : Map K (list A)) (v : A) :
  list_sum (map (@List.length A) (map_values (group_push K_eqb keyof m v)))
  = S (list_sum (map (@List.length A) (map_values m))).
Proof.
  unfold group_push.
  destruct (map_get K_eqb (keyof v) m) as [g|] eqn:E.
  - pose proof (set_tally (@List.length A) (keyof v) (g ++ [v]) m) as T.
    rewrite E, length_app in T. simpl in T. lia.
  - pose proof (set_tally (@List.length A) (keyof v) [v] m) as T.
    rewrite E in T. simpl in T. lia.
Qed.

Lemma group_push_keys (m : Map K (list A)) (v : A) :
  map_keys (group_push K_eqb keyof m v)
  = if existsb (K_eqb (keyof v)) (map_keys m)
    then map_keys m else map_keys m ++ [keyof v].
Proof.
  unfold group_push.
  destruct (map_get K_eqb (keyof v) m); apply set_keys.
Qed.

(** Every row is in one group. *)
Lemma group_tally (values : list A) :
  list_sum (map (@List.length A) (map_values (group K_eqb values keyof)))
  = List.length values.
Proof.
  unfold group.
  assert (H : forall m : Map K (list A),
             list_sum (map (@List.length A)
                           (map_values
                              (fold_left (group_push K_eqb keyof) values m)))
             = (list_sum (map (@List.length A) (map_values m))
                + List.length values)%nat).
  { induction values as [|v values IH]; intros m; simpl; [lia|].
    rewrite IH, group_push_tally. lia. }
  now rewrite H.
Qed.

(** The keys come in the order they first appear. *)
Lemma group_keys (values : list A) :
  map_keys (group K_eqb values keyof) = firstsBy K_eqb (map keyof values).
Proof.
  unfold group, firstsBy.
  assert (H : forall m : Map K (list A),
             map_keys (fold_left (group_push K_eqb keyof) values m)
             = fold_left
                 (fun seen k =>
                    if existsb (K_eqb k) seen then seen else seen ++ [k])
                 (map keyof values) (map_keys m)).
  { induction values as [|v values IH]; intros m; simpl; [reflexivity|].
    now rewrite IH, group_push_keys. }
  exact (H []).
Qed.

Lemma group_In (values : list A) (k : K) (g : list A) :
  In (k, g) (group K_eqb values keyof) -> g = keyed K_eqb keyof k values.
Proof.
  intros H.
  apply (In_map_get _ K_eqb_spec _ _ _ (group_NoDup _ K_eqb_spec _ _)) in H.
  rewrite (group_lookup _ K_eqb_spec) in H.
  destruct (keyed K_eqb keyof k values); congruence.
Qed.

Variable reduce : list A -> R.

(** The roll-up, key by key. *)
Lemma rollup_by_keys (values : list A) :
  rollup K_eqb values reduce keyof
  = map (fun k => (k, reduce (keyed K_eqb keyof k values)))
        (firstsBy K_eqb (map keyof values)).
Proof.
  rewrite <- group_keys. unfold rollup, map_keys. rewrite map_map.
  apply map_ext_in. intros [k g] H. simpl.
  now rewrite (group_In _ _ _ H).
Qed.

End Grouping.

Lemma firsts_firstsBy (keys : list string) :
  firsts keys = firstsBy String.eqb keys.
Proof. reflexivity. Qed.

Lemma filter_of_map {A B} (f : A -> B) (p : B -> bool) (l : list A) :
  filter p (map f l) = map f (filter (fun a => p (f a)) l).
Proof.
  induction l as [|a l IH]; simpl; [reflexivity|].
  destruct (p (f a)); simpl; now rewrite IH.
Qed.

End RollupMoreFacts.

Module TreemapMoreFacts.
Import JS JSFacts Treemap RollupSpecs RollupFacts RollupMoreFacts.
Import TreemapSpecs TreemapFacts CoverageSpecs.

(** ** Companies *)

Lemma find_past {A} (p : A -> bool) (skipped rest : list A) :
  (forall x, In x skipped -> p x = false) ->
  find p (skipped ++ rest) = find p rest.
Proof.
  induction skipped as [|x l IH]; simpl; intros H; [reflexivity|].
  rewrite (H x (or_introl eq_refl)). apply IH. auto.
Qed.

(** X10.  When several companies rows carry one ticker the last of them
    decides: a stock row of that ticker goes to the sector that row
    names, or to "Unknown" if it names none. *)
Theorem last_company_decides :
  forall (before after : list Row) (c r : Row),
    (forall c', In c' after -> field c' "ticker" <> field c "ticker") ->
    field r "symbol" = field c "ticker" ->
    sectorKey (before ++ c :: after) r = str_or (field c "sector") "Unknown".
Proof.
  intros before after c r Hafter Hsym.
  rewrite sectorKey_companyOf. unfold companyOf.
  rewrite rev_app_distr. simpl. rewrite <- app_assoc. simpl.
  rewrite find_past.
  - simpl. rewrite Hsym.
    now rewrite (proj2 (key_eqb_spec _ _) eq_refl).
  - intros c' Hc'. apply in_rev in Hc'. rewrite Hsym.
    destruct (key_eqb (field c' "ticker") (field c "ticker")) eqn:E;
      [|reflexivity].
    apply key_eqb_spec in E. now apply Hafter in Hc'.
Qed.

(** The theorem at two companies rows of one ticker. *)
Lemma last_company_decides_witness :
  sectorKey ([ [("ticker", "AAA"); ("sector", "Tech")] ]
               ++ [("ticker", "AAA"); ("sector", "Energy")] :: [])
            [("symbol", "AAA"); ("vol_", "1")]
  = "Energy".
Proof.
  apply (last_company_decides
           [ [("ticker", "AAA"); ("sector", "Tech")] ] []
           [("ticker", "AAA"); ("sector", "Energy")]
           [("symbol", "AAA"); ("vol_", "1")]).
  - intros c' [].
  - reflexivity.
Defined.

(** ** Sectors and coins, key by key *)

Lemma sectorAgg_by_keys (companyRows stockRows : list Row) :
  sectorAgg companyRows stockRows
  = map (fun s => (s, sectorReduce (sectorRows companyRows stockRows s)))
        (firsts (map (sectorKey companyRows) stockRows)).
Proof. apply (rollup_by_keys _ string_eqb_spec). Qed.

Lemma cryptoAgg_by_keys (cryptoRows : list Row) :
  cryptoAgg cryptoRows
  = map (fun s => (s, coinReduce (coinRows cryptoRows s)))
        (firstsBy key_eqb (map (fun r => field r "symbol") cryptoRows)).
Proof. apply (rollup_by_keys _ key_eqb_spec). Qed.

Lemma stockChildrenRaw_by_keys (companyRows stockRows : list Row) :
  stockChildrenRaw companyRows stockRows
  = map (sectorLeaf companyRows stockRows)
        (filter (fun s => gtb (D3.sum (sectorRows companyRows stockRows s)
                                      vol_of) zero)
                (firsts (map (sectorKey companyRows) stockRows))).
Proof.
  unfold stockChildrenRaw. rewrite sectorAgg_by_keys, map_map.
  apply (filter_of_map (sectorLeaf companyRows stockRows) rawPositive).
Qed.

Lemma cryptoChildrenRaw_by_keys (cryptoRows : list Row) :
  cryptoChildrenRaw cryptoRows
  = map (coinLeaf cryptoRows)
        (filter (fun s => gtb (D3.sum (coinRows cryptoRows s) cap_of) zero)
                (firstsBy key_eqb
                          (map (fun r => field r "symbol") cryptoRows))).
Proof.
  unfold cryptoChildrenRaw. rewrite cryptoAgg_by_keys, map_map.
  apply (filter_of_map (coinLeaf cryptoRows) rawPositive).
Qed.

Lemma normalize_leaves (total : num) (children : list Leaf) :
  map leaf (normalize total children) = children.
Proof. unfold normalize. rewrite map_map. apply map_id. Qed.

(** X11.  The Stocks leaves are those of the sectors whose volumes sum
    to more than 0, in the order in which the sectors first appear among
    the stock rows, each built from all the rows of its sector; the
    Crypto leaves likewise, by symbol and market capitalisation. *)
Theorem leaves_by_first_appearance :
  forall companyRows stockRows cryptoRows : list Row,
    map leaf (stockChildren companyRows stockRows)
    = map (sectorLeaf companyRows stockRows)
          (filter (fun s => gtb (D3.sum (sectorRows companyRows stockRows s)
                                        vol_of) zero)
                  (firsts (map (sectorKey companyRows) stockRows)))
    /\ map leaf (cryptoChildren cryptoRows)
       = map (coinLeaf cryptoRows)
             (filter (fun s => gtb (D3.sum (coinRows cryptoRows s) cap_of)
                                   zero)
                     (firstsBy key_eqb
                               (map (fun r => field r "symbol")
                                    cryptoRows))).
Proof.
  intros. unfold stockChildren, cryptoChildren.
  rewrite !normalize_leaves. split.
  - apply stockChildrenRaw_by_keys.
  - apply cryptoChildrenRaw_by_keys.
Qed.

Lemma firstsBy_NoDup {K} (K_eqb : K -> K -> bool) (rows : list Row)
      (keyof : Row -> K) :
  (forall a b, K_eqb a b = true <-> a = b) ->
  NoDup (firstsBy K_eqb (map keyof rows)).
Proof.
  intros Hspec. rewrite <- (group_keys K_eqb keyof rows).
  now apply group_NoDup.
Qed.

Lemma NoDup_through {A B} (f : A -> B) (l : list A) :
  (forall a b, f a = f b -> a = b) -> NoDup l -> NoDup (map f l).
Proof.
  intros Hinj H. induction H as [|a l Ha _ IH]; simpl; constructor;
    [|exact IH].
  rewrite in_map_iff. intros (b & E & Hb). apply Hinj in E. now subst.
Qed.

(** X12.  No two Stocks leaves have the same name and no two Crypto
    leaves the same symbol. *)
Theorem leaves_distinct :
  forall companyRows stockRows cryptoRows : list Row,
    NoDup (map (fun n => name (leaf n)) (stockChildren companyRows stockRows))
    /\ NoDup (map (fun n => symbol (leaf n)) (cryptoChildren cryptoRows)).
Proof.
  intros. split.
  - rewrite <- (map_map leaf name). unfold stockChildren.
    rewrite normalize_leaves, stockChildrenRaw_by_keys, map_map. simpl.
    apply NoDup_through; [congruence|].
    apply NoDup_filter, (firstsBy_NoDup String.eqb), string_eqb_spec.
  - rewrite <- (map_map leaf symbol). unfold cryptoChildren.
    rewrite normalize_leaves, cryptoChildrenRaw_by_keys, map_map. simpl.
    rewrite map_id.
    apply NoDup_filter, (firstsBy_NoDup key_eqb), key_eqb_spec.
Qed.

(** X13.  Every stock row is counted in one sector of the roll-up: the
    counts of the sectors add up to the number of stock rows, and those of
    the leaves, which leave out the sectors without volume, to that
    number at most. *)
Theorem stock_rows_counted :
  forall companyRows stockRows : list Row,
    list_sum (map (fun e => sector_count (snd e))
                  (sectorAgg companyRows stockRows))
    = List.length stockRows
    /\ (list_sum (map (fun n => count (leaf n))
                      (stockChildren companyRows stockRows))
        <= List.length stockRows)%nat.
Proof.
  intros companyRows stockRows.
  assert (T : list_sum (map (fun e => sector_count (snd e))
                            (sectorAgg companyRows stockRows))
              = List.length stockRows).
  { unfold sectorAgg, D3.rollup. rewrite map_map.
    rewrite <- (group_tally String.eqb (sectorKey companyRows) stockRows).
    unfold map_values. rewrite map_map. f_equal.
    apply map_ext. now intros [k g]. }
  split; [exact T|]. rewrite <- T.
  rewrite <- (map_map leaf count). unfold stockChildren.
  rewrite normalize_leaves. unfold stockChildrenRaw.
  generalize (sectorAgg companyRows stockRows). intros l.
  induction l as [|[k stats] l IH]; simpl; [lia|].
  match goal with |- context [if ?b then _ else _] => destruct b end;
    simpl; lia.
Qed.

(** ** Values *)

Local Open Scope Qc_scope.

Lemma member_below_total (children : list Leaf) (d : Leaf) :
  Forall PosFinite children -> In d children ->
  raw_q d <= total_q children.
Proof.
  induction 1 as [|x l Hx Hl IH]; simpl; [contradiction|].
  intros [<-|Hd].
  - rewrite <- (Qcplus_0_r (raw_q x)) at 1.
    apply Qcplus_le_compat; [apply Qcle_refl|now apply total_q_nonneg].
  - rewrite <- (Qcplus_0_l (raw_q d)).
    apply Qcplus_le_compat; [|now apply IH].
    apply PosFinite_raw_q in Hx as [_ Hx]. now apply Qclt_le_weak.
Qed.

Lemma share_range (r t : Qc) : 0 < r -> r <= t -> 0 <= r / t /\ r / t <= 1.
Proof.
  intros Hr Hrt.
  assert (Ht : 0 < t) by (eapply Qclt_le_trans; eassumption).
  assert (Hne : t <> 0) by (intros ->; now apply Qclt_not_eq in Ht).
  assert (E : r / t * t = r) by (rewrite Qcmult_comm; now apply Qcmult_div_r).
  split.
  - apply Qcnot_lt_le. intros L.
    assert (L' : r / t * t <= 0 * t).
    { apply Qcmult_le_compat_r; now apply Qclt_le_weak. }
    rewrite E, Qcmult_0_l in L'. now apply (Qclt_not_le _ _ Hr).
  - apply (Qcmult_lt_0_le_reg_r _ _ t Ht). now rewrite E, Qcmult_1_l.
Qed.

Lemma value_range (raw : list Leaf) (d : Leaf) :
  Forall (fun d => rawPositive d = true) raw -> In d raw ->
  let v := div (rawValue d) (partitionTotal raw) in
  (rawValue d = PInf /\ v = NaN)
  \/ exists q, v = Fin q /\ 0 <= q <= 1.
Proof.
  intros Hpos Hd v.
  pose proof (proj1 (Forall_forall _ _) Hpos d Hd) as Pd.
  destruct (sum_rawValue_cases 0 Hpos) as [E|F].
  - assert (E' : D3.sum raw rawValue = PInf) by exact E.
    assert (T : partitionTotal raw = PInf)
      by (unfold partitionTotal; now rewrite E').
    unfold v. rewrite T. unfold rawPositive, gtb in Pd.
    destruct (rawValue d) as [| | |r]; simpl in Pd; try discriminate.
    + now left.
    + right. exists 0. simpl. repeat split; discriminate.
  - assert (PF : Forall PosFinite raw).
    { rewrite Forall_forall in *. intros x Hx.
      exact (gtb_zero_Fin _ (Hpos x Hx) (F x Hx)). }
    assert (Hne : raw <> []) by (intros ->; contradiction).
    pose proof (proj1 (Forall_forall _ _) PF d Hd) as PFd.
    apply PosFinite_raw_q in PFd as [Er Hr].
    pose proof (member_below_total _ PF Hd) as Hle.
    destruct (share_range Hr Hle) as [S1 S2].
    right. exists (raw_q d / total_q raw).
    unfold v. rewrite (partitionTotal_pos PF Hne), Er.
    rewrite div_Fin.
    + repeat split; auto.
    + intros Z. pose proof (total_q_pos PF Hne) as P.
      rewrite Z in P. now apply Qclt_not_eq in P.
Qed.

(** X14.  The value of a leaf is a share: a number from 0 to 1; the one
    exception is a leaf whose raw value is infinite, whose value is
    [NaN].  No value is negative, above 1 or infinite. *)
Theorem leaf_values_are_shares :
  forall companyRows stockRows cryptoRows : list Row,
    let share n :=
      (rawValue (leaf n) = PInf /\ value n = NaN)
      \/ exists q, value n = Fin q /\ 0 <= q <= 1 in
    Forall share (stockChildren companyRows stockRows)
    /\ Forall share (cryptoChildren cryptoRows).
Proof.
  intros companyRows stockRows cryptoRows share.
  assert (G : forall all : list Leaf,
             let raw := filter rawPositive all in
             Forall share (normalize (partitionTotal raw) raw)).
  { intros all raw. apply Forall_forall. intros n Hn.
    unfold normalize in Hn. apply in_map_iff in Hn as (d & <- & Hd).
    unfold share. simpl. apply value_range; [|exact Hd].
    apply Forall_forall. intros x Hx. now apply filter_In in Hx. }
  split; apply G.
Qed.

Local Close Scope Qc_scope.

(** ** Mean changes and labels *)

Lemma or_else_zero_numeric (x : num) : numeric (or_else x zero).
Proof.
  unfold numeric, or_else. destruct (truthy x) eqn:E; [|reflexivity].
  now destruct x.
Qed.

Lemma mean_defined {A} (f : A -> num) (l : list A) :
  l <> [] -> (forall d, numeric (f d)) -> D3.mean l f <> None.
Proof.
  intros Hne Hf. unfold D3.mean.
  match goal with
  | |- context [fold_left ?step l ?init] =>
      assert (H : forall acc,
                 fst (fold_left step l acc)
                 = (fst acc + List.length l)%nat)
  end.
  { clear Hne. induction l as [|d l IH]; intros [c t]; simpl; [lia|].
    rewrite (SelectionMoreFacts.geb_self (Hf d)), IH. simpl. lia. }
  specialize (H (O, zero)).
  destruct (fold_left _ l (O, zero)) as [c t]. simpl in H.
  destruct c; [|discriminate].
  destruct l; [congruence|simpl in H; lia].
Qed.

(** X15.  The mean change of every leaf is defined, a cell that is not a
    number counting as 0: the tooltip never formats an undefined
    change. *)
Theorem leaf_changes_defined :
  forall companyRows stockRows cryptoRows : list Row,
    Forall (fun n => avgChange (leaf n) <> None)
           (stockChildren companyRows stockRows)
    /\ Forall (fun n => avgChange (leaf n) <> None)
              (cryptoChildren cryptoRows).
Proof.
  intros. split; apply Forall_forall; intros n Hn.
  - unfold stockChildren, normalize in Hn.
    apply in_map_iff in Hn as (d & <- & Hd). simpl.
    unfold stockChildrenRaw in Hd. apply filter_In in Hd as [Hd _].
    apply in_map_iff in Hd as ([sector stats] & <- & Hin). simpl.
    apply sectorAgg_In in Hin as [Hne ->]. simpl.
    apply mean_defined; [exact Hne|].
    intros r. apply or_else_zero_numeric.
  - unfold cryptoChildren, normalize in Hn.
    apply in_map_iff in Hn as (d & <- & Hd). simpl.
    unfold cryptoChildrenRaw in Hd. apply filter_In in Hd as [Hd _].
    apply in_map_iff in Hd as ([sym stats] & <- & Hin). simpl.
    apply (rollup_In _ key_eqb_spec) in Hin as [Hne ->]. simpl.
    apply mean_defined; [exact Hne|].
    intros r. apply or_else_zero_numeric.
Qed.

(** X16.  The label of a Crypto leaf is the name cell of the first row
    that carries its symbol, and the symbol itself when that cell is
    absent or empty; the names of the later rows play no part. *)
Theorem coin_label_from_first_row :
  forall cryptoRows : list Row,
    Forall (fun n =>
              exists first rest,
                coinRows cryptoRows (symbol (leaf n)) = first :: rest
                /\ field first "symbol" = symbol (leaf n)
                /\ name (leaf n)
                   = match field first "name" with
                     | Some EmptyString | None => symbol (leaf n)
                     | Some nm => Some nm
                     end)
           (cryptoChildren cryptoRows).
Proof.
  intros cryptoRows. apply Forall_forall. intros n Hn.
  unfold cryptoChildren, normalize in Hn.
  apply in_map_iff in Hn as (d & <- & Hd). simpl.
  unfold cryptoChildrenRaw in Hd. apply filter_In in Hd as [Hd _].
  apply in_map_iff in Hd as ([sym stats] & <- & Hin). simpl.
  apply (rollup_In _ key_eqb_spec) in Hin as [Hne ->].
  change (keyed key_eqb (fun r => field r "symbol") sym cryptoRows)
    with (coinRows cryptoRows sym) in *.
  destruct (coinRows cryptoRows sym) as [|first rest] eqn:E; [congruence|].
  exists first, rest. split; [reflexivity|]. split; [|reflexivity].
  assert (I : In first (coinRows cryptoRows sym)) by (rewrite E; now left).
  apply filter_In in I as [_ I]. now apply key_eqb_spec in I.
Qed.

End TreemapMoreFacts.

(* ================================================================== *)
(** * The hierarchy of the treemap *)

Module HierarchyFacts.
Import JS JSFacts JSMath Treemap Hierarchy SortSpecs SortFacts.
Import TreemapSpecs TreemapFacts CoverageSpecs TreemapMoreFacts.

(** ** The comparator *)

Lemma sub_above (x y : num) : ltb zero (sub y x) = ltb x y.
Proof.
  destruct x as [| | |a], y as [| | |b]; try reflexivity.
  unfold sub. simpl.
  destruct (Qc_ltb (Q2Qc 0) (b + - a)) eqn:E1, (Qc_ltb a b) eqn:E2;
    try reflexivity; exfalso.
  - apply Qc_ltb_lt, Qclt_minus_iff, Qc_ltb_lt in E1. congruence.
  - apply Qc_ltb_lt, Qclt_minus_iff, Qc_ltb_lt in E2. congruence.
Qed.

Lemma sub_below (x y : num) : ltb (sub y x) zero = ltb y x.
Proof.
  destruct x as [| | |a], y as [| | |b]; try reflexivity.
  unfold sub. simpl.
  assert (R : (Q2Qc 0 + - (b + - a) = a + - b)%Qc) by ring.
  destruct (Qc_ltb (b + - a) (Q2Qc 0)) eqn:E1, (Qc_ltb b a) eqn:E2;
    try reflexivity; exfalso.
  - apply Qc_ltb_lt, Qclt_minus_iff in E1. rewrite R in E1.
    apply Qclt_minus_iff, Qc_ltb_lt in E1. congruence.
  - apply Qc_ltb_lt, Qclt_minus_iff in E2. rewrite <- R in E2.
    apply Qclt_minus_iff, Qc_ltb_lt in E2. congruence.
Qed.

Section ByValue.
Variable A : Type.
Variable v : A -> num.

Lemma byValue_gt (a b : A) :
  sort_gt (byValue v) a b = ltb (orZero v a) (orZero v b).
Proof. apply sub_above. Qed.

Lemma byValue_lt (a b : A) :
  sort_lt (byValue v) a b = ltb (orZero v b) (orZero v a).
Proof. apply sub_below. Qed.

Lemma byValue_spec (l : list A) :
  SortSpec (byValue v) l (sort (byValue v) l).
Proof.
  apply sort_meets_spec with (rank := orZero v);
    [exact byValue_gt|exact byValue_lt|].
  apply Forall_forall. intros a _. apply or_else_zero_numeric.
Qed.

Lemma byValue_descending (l : list A) :
  StronglySorted (fun a b => geb (orZero v a) (orZero v b) = true)
                 (sort (byValue v) l).
Proof.
  pose proof (spec_order (byValue_spec l)) as O.
  eapply SelectorFacts.StronglySorted_impl_In; [|exact O]. simpl.
  intros a b _ _ H. rewrite byValue_gt in H.
  unfold geb. destruct (ltb (orZero v b) (orZero v a)) eqn:E; [reflexivity|].
  simpl. apply ltb_total; auto; apply or_else_zero_numeric.
Qed.

Lemma sort_two (a b : A) :
  sort (byValue v) [a; b]
  = if ltb (orZero v a) (orZero v b) then [b; a] else [a; b].
Proof.
  unfold sort. simpl. now rewrite byValue_gt.
Qed.
End ByValue.

(** ** The order of the categories *)

Lemma root_children_eq (stockRows cryptoRows companyRows : list Row) :
  root_children (root stockRows cryptoRows companyRows)
  = map sortCategory
        (if ltb (orZero category_value
                        (sumCategory (stocksCategory companyRows stockRows)))
                (orZero category_value
                        (sumCategory (cryptoCategory cryptoRows)))
         then [sumCategory (cryptoCategory cryptoRows);
               sumCategory (stocksCategory companyRows stockRows)]
         else [sumCategory (stocksCategory companyRows stockRows);
               sumCategory (cryptoCategory cryptoRows)]).
Proof.
  change (root_children (root stockRows cryptoRows companyRows))
    with (map sortCategory
              (sort (byValue category_value)
                    [sumCategory (stocksCategory companyRows stockRows);
                     sumCategory (cryptoCategory cryptoRows)])).
  f_equal. apply sort_two.
Qed.

Lemma ordered_map {A B} (f : A -> B) (R : B -> B -> Prop) (l : list A) :
  StronglySorted (fun a b => R (f a) (f b)) l -> StronglySorted R (map f l).
Proof.
  induction 1 as [|x l S IH F]; simpl; constructor; [exact IH|].
  apply Forall_map. exact F.
Qed.

(** X18.  In the hierarchy that is drawn, Crypto comes before Stocks
    exactly when it weighs more; the leaves of each category are those of
    its partition, from the greatest value to the least, leaves of equal
    value in the order the partition had them. *)
Theorem drawing_order :
  forall companyRows stockRows cryptoRows : list Row,
    let r := root stockRows cryptoRows companyRows in
    let S := sumCategory (stocksCategory companyRows stockRows) in
    let C := sumCategory (cryptoCategory cryptoRows) in
    root_children r
    = map sortCategory
          (if ltb (orZero category_value S) (orZero category_value C)
           then [C; S] else [S; C])
    /\ Forall
         (fun n =>
            SortSpec (byValue leaf_value)
                     (map sumLeaf (cat_children (category_data n)))
                     (category_children n)
            /\ StronglySorted
                 (fun a b =>
                    geb (orZero leaf_value a) (orZero leaf_value b) = true)
                 (category_children n))
         (root_children r).
Proof.
  intros companyRows stockRows cryptoRows r S C.
  split; [apply root_children_eq|].
  unfold r. rewrite root_children_eq.
  assert (G : forall cat,
             SortSpec (byValue leaf_value)
               (map sumLeaf (cat_children (category_data
                                             (sortCategory (sumCategory cat)))))
               (category_children (sortCategory (sumCategory cat)))
             /\ StronglySorted
                  (fun a b =>
                     geb (orZero leaf_value a) (orZero leaf_value b) = true)
                  (category_children (sortCategory (sumCategory cat)))).
  { intros cat. simpl. split; [apply byValue_spec|apply byValue_descending]. }
  destruct (ltb _ _); simpl; repeat constructor; apply G.
Qed.

Lemma sorted_leaves_nil (cat : Category) :
  category_children (sortCategory (sumCategory cat)) = []
  <-> cat_children cat = [].
Proof.
  simpl. split.
  - intros H.
    pose proof (Permutation_length
                  (spec_perm (byValue_spec leaf_value
                                (map sumLeaf (cat_children cat))))) as L.
    rewrite H, length_map in L. now destruct (cat_children cat).
  - intros ->. reflexivity.
Qed.

(** X19.  A partition without a leaf is not left out of the drawing: its
    category node, of value 0, is itself among the nodes drawn, and the
    type its fill is taken from is "Stocks" for Crypto too.  Apart from
    such a node, what is drawn are the leaves of the two partitions, each
    filled by the type of its category. *)
Theorem empty_partition_drawn :
  forall companyRows stockRows cryptoRows : list Row,
    let r := root stockRows cryptoRows companyRows in
    let S := sortCategory (sumCategory (stocksCategory companyRows stockRows)) in
    let C := sortCategory (sumCategory (cryptoCategory cryptoRows)) in
    (In (CategoryDrawn S) (leaves r)
     <-> stockChildren companyRows stockRows = [])
    /\ (In (CategoryDrawn C) (leaves r) <-> cryptoChildren cryptoRows = [])
    /\ (stockChildren companyRows stockRows = [] -> category_value S = zero)
    /\ (cryptoChildren cryptoRows = [] -> category_value C = zero)
    /\ topType (CategoryDrawn C) = "Stocks"
    /\ Forall (fun d =>
                 match d with
                 | CategoryDrawn n => n = S \/ n = C
                 | LeafDrawn p n =>
                     (p = S \/ p = C)
                     /\ In (leaf_data n) (cat_children (category_data p))
                     /\ topType d = cat_type (category_data p)
                 end)
              (leaves r).
Proof.
  intros companyRows stockRows cryptoRows r S C.
  assert (Hin : forall n, In n (root_children r) <-> n = S \/ n = C).
  { intros n. unfold r. rewrite root_children_eq. fold S C.
    destruct (ltb _ _); cbn [map In]; fold S C; intuition. }
  assert (Hleaf : forall cat n,
             In n (category_children (sortCategory (sumCategory cat))) ->
             In (leaf_data n) (cat_children cat)).
  { intros cat n Hn. simpl in Hn.
    apply (Permutation_in _ (Permutation_sym
             (spec_perm (byValue_spec leaf_value _)))) in Hn.
    apply in_map_iff in Hn as (d & <- & Hd). exact Hd. }
  assert (Hcat : forall cat,
             In (CategoryDrawn (sortCategory (sumCategory cat))) (leaves r)
             <-> In (sortCategory (sumCategory cat)) (root_children r)
                 /\ cat_children cat = []).
  { intros cat. unfold leaves. rewrite in_flat_map. split.
    - intros (n & Hn & Hd). unfold leavesOf in Hd.
      destruct (category_children n) eqn:E.
      + destruct Hd as [[= ->]|[]]. split; [exact Hn|].
        now apply sorted_leaves_nil.
      + apply in_map_iff in Hd as (k & Hk & _). discriminate.
    - intros [Hn He]. exists (sortCategory (sumCategory cat)).
      split; [exact Hn|]. unfold leavesOf.
      rewrite (proj2 (sorted_leaves_nil cat) He). now left. }
  repeat split.
  - intros H. apply Hcat in H. apply H.
  - intros H. apply Hcat. split; [apply Hin; now left|exact H].
  - intros H. apply Hcat in H. apply H.
  - intros H. apply Hcat. split; [apply Hin; now right|exact H].
  - intros H. unfold S. simpl. rewrite H. reflexivity.
  - intros H. unfold C. simpl. rewrite H. reflexivity.
  - apply Forall_forall. intros d Hd. unfold leaves in Hd.
    apply in_flat_map in Hd as (n & Hn & Hd). apply Hin in Hn.
    unfold leavesOf in Hd.
    destruct (category_children n) eqn:E.
    + destruct Hd as [<-|[]]. exact Hn.
    + rewrite <- E in Hd. apply in_map_iff in Hd as (k & <- & Hk).
      split; [exact Hn|]. split.
      * destruct Hn as [-> | ->]; now apply Hleaf.
      * destruct Hn as [-> | ->]; reflexivity.
Qed.

End HierarchyFacts.

(* ================================================================== *)
(** * Reading cells *)

Module ParseFacts.
Import JS JSFacts ParseSpecs.

Lemma digit_cases (d : nat) :
  (d < 10)%nat -> In d [0; 1; 2; 3; 4; 5; 6; 7; 8; 9]%nat.
Proof. simpl. lia. Qed.

Ltac each_digit H :=
  apply digit_cases in H; simpl in H;
  repeat (destruct H as [<-|H]); [..|contradiction].

Lemma digit_in_digitChar (d : nat) :
  (d < 10)%nat -> digit_in 10 (digitChar d) = Some (Z.of_nat d).
Proof. intros H. each_digit H; reflexivity. Qed.

Lemma digitChar_plain (d : nat) :
  (d < 10)%nat ->
  is_ws (digitChar d) = false
  /\ Ascii.eqb "," (digitChar d) = false
  /\ Ascii.eqb "%" (digitChar d) = false
  /\ Ascii.eqb "+" (digitChar d) = false.
Proof. intros H. each_digit H; repeat split; reflexivity. Qed.

Lemma scan_digits_step (c : ascii) (r : string) (acc : Z) (len : nat) :
  scan_digits 10 (String c r) acc len
  = match digit_in 10 c with
    | Some d => scan_digits 10 r (10 * acc + d) (S len)
    | None => (acc, len, String c r)
    end.
Proof. reflexivity. Qed.

Lemma scan_numeral (ds : list nat) (rest : string) (acc : Z) (len : nat) :
  digits ds -> stops rest ->
  scan_digits 10 (numeral ds ++ rest) acc len
  = (fold_left (fun a d => 10 * a + Z.of_nat d) ds acc,
     (len + List.length ds)%nat, rest).
Proof.
  intros Hd Hs. revert acc len.
  induction Hd as [|d ds Hlt _ IH]; intros acc len.
  - cbn [numeral String.append fold_left List.length].
    rewrite Nat.add_0_r. destruct rest as [|c r]; [reflexivity|].
    rewrite scan_digits_step. cbn [stops] in Hs. now rewrite Hs.
  - cbn [numeral String.append fold_left List.length].
    rewrite scan_digits_step, (digit_in_digitChar Hlt), IH.
    do 2 f_equal. lia.
Qed.

Lemma append_empty (s : string) : (s ++ "")%string = s.
Proof. induction s as [|c s IH]; cbn [String.append]; congruence. Qed.

Lemma decimal_unit (v : Z) : decimal v 0 = of_Z v.
Proof.
  unfold decimal, of_Z. f_equal.
  change (pow10 0) with (Q2Qc 1). apply Qcmult_1_r.
Qed.

Lemma prefix_Infinity (d : nat) (r : string) :
  (d < 10)%nat -> String.prefix "Infinity" (String (digitChar d) r) = false.
Proof. intros H. each_digit H; reflexivity. Qed.

(** An unsigned literal, digits with or without a fraction, is scanned to
    its end. *)
Lemma scan_unsigned_literal (int : list nat) (frac : option (list nat)) :
  digits int -> int <> [] -> digits (fractionDigits frac) ->
  scan_unsigned (numeral int ++ fractionText frac)
  = Some (decimal (numeralValue (int ++ fractionDigits frac))
                  (- Z.of_nat (List.length (fractionDigits frac))), "").
Proof.
  intros Hi Hne Hf. unfold scan_unsigned.
  destruct int as [|d int]; [congruence|].
  replace (String.prefix "Infinity" (numeral (d :: int) ++ fractionText frac))
    with false
    by (symmetry; apply prefix_Infinity; now inversion Hi).
  rewrite (scan_numeral _ _ _ Hi)
    by (destruct frac; cbn [fractionText stops]; [reflexivity|exact I]).
  unfold numeralValue. rewrite fold_left_app.
  destruct frac as [fs|]; cbn [fractionText fractionDigits] in *.
  - rewrite <- (append_empty (numeral fs)).
    rewrite (scan_numeral _ _ _ Hf) by exact I.
    cbn [List.length Nat.add scan_exponent]. reflexivity.
  - cbn [List.length Nat.add scan_exponent fold_left]. reflexivity.
Qed.

Lemma scan_decimal_digit (d : nat) (r : string) :
  (d < 10)%nat ->
  scan_decimal (String (digitChar d) r) = scan_unsigned (String (digitChar d) r).
Proof. intros H. each_digit H; reflexivity. Qed.

Lemma remove_first_numeral (c : ascii) (ds : list nat) (rest : string) :
  (forall d, (d < 10)%nat -> Ascii.eqb c (digitChar d) = false) ->
  digits ds ->
  remove_first c (numeral ds ++ rest)
  = (numeral ds ++ remove_first c rest)%string.
Proof.
  intros Hc Hd. induction Hd as [|d ds Hlt _ IH];
    cbn [numeral String.append remove_first]; [reflexivity|].
  now rewrite (Hc _ Hlt), IH.
Qed.

Lemma remove_first_fraction (c : ascii) (frac : option (list nat))
      (rest : string) :
  (forall d, (d < 10)%nat -> Ascii.eqb c (digitChar d) = false) ->
  Ascii.eqb c "." = false ->
  digits (fractionDigits frac) ->
  remove_first c (fractionText frac ++ rest)
  = (fractionText frac ++ remove_first c rest)%string.
Proof.
  intros Hc Hp Hd. destruct frac as [fs|];
    cbn [fractionText fractionDigits String.append remove_first] in *;
    [|reflexivity].
  rewrite Hp, remove_first_numeral by assumption. reflexivity.
Qed.

(** The cell without its percent sign and without a plus sign. *)
Lemma percentCell_stripped (sg : Sign) (int : list nat)
      (frac : option (list nat)) (pct : bool) :
  digits int -> digits (fractionDigits frac) ->
  remove_first "+" (remove_first "%" (percentCell sg int frac pct))
  = ((match sg with Minus => "-" | _ => "" end)
     ++ numeral int ++ fractionText frac)%string.
Proof.
  intros Hi Hf. unfold percentCell.
  assert (Hp : forall d, (d < 10)%nat -> Ascii.eqb "%" (digitChar d) = false)
    by (intros d H; apply (digitChar_plain H)).
  assert (Hq : forall d, (d < 10)%nat -> Ascii.eqb "+" (digitChar d) = false)
    by (intros d H; apply (digitChar_plain H)).
  assert (E : remove_first "%"
                (numeral int ++ fractionText frac ++ if pct then "%" else "")
              = (numeral int ++ fractionText frac)%string).
  { rewrite remove_first_numeral by assumption.
    rewrite remove_first_fraction by first [assumption|reflexivity].
    replace (remove_first "%" (if pct then "%" else ""))%string
      with EmptyString by now destruct pct.
    now rewrite append_empty. }
  assert (F : remove_first "+" (numeral int ++ fractionText frac)
              = (numeral int ++ fractionText frac)%string).
  { rewrite <- (append_empty (fractionText frac)) at 1.
    rewrite remove_first_numeral by assumption.
    rewrite remove_first_fraction by first [assumption|reflexivity].
    cbn [remove_first]. now rewrite append_empty. }
  destruct sg; cbn [signText String.append remove_first Ascii.eqb Bool.eqb].
  - now rewrite E, F.
  - now rewrite E.
  - now rewrite E, F.
Qed.

Lemma inject_Z_pow10_nonzero (n : Z) : 0 <= n -> ~ inject_Z (10 ^ n) == 0.
Proof.
  intros Hn. unfold Qeq. simpl.
  pose proof (Z.pow_pos_nonneg 10 n ltac:(lia) Hn). lia.
Qed.

(** Digits that end in [n] zeros after the point denote an integer. *)
Lemma decimal_shift (k n : Z) :
  0 <= n -> decimal (k * 10 ^ n) (- n) = of_Z k.
Proof.
  intros Hn. unfold decimal, of_Z, pow10. f_equal.
  destruct (0 <=? - n) eqn:E.
  - apply Z.leb_le in E. assert (n = 0) by lia. subst n.
    change (10 ^ (- 0)) with 1. change (10 ^ 0) with 1.
    rewrite Z.mul_1_r. apply Qcmult_1_r.
  - apply Qc_is_canon. unfold Qcmult. cbn [this Q2Qc].
    rewrite !Qred_correct, Z.opp_involutive, inject_Z_mult.
    field. now apply inject_Z_pow10_nonzero.
Qed.

(** X20.  A percentage cell written as an optional sign, digits, an
    optional fraction and an optional percent sign is read as its digits
    and fraction alone are, negated under a minus sign: the percent sign
    and a leading plus sign change nothing.  When the fraction is absent
    or made of zeros and the integer is one of the language's numbers,
    the cell is read as that integer, so "+2.00%" as 2. *)
Theorem percent_cell_read :
  forall (sg : Sign) (int : list nat) (frac : option (list nat)) (pct : bool),
    digits int -> int <> [] -> digits (fractionDigits frac) ->
    MarketViz.parsePct (Some (percentCell sg int frac pct))
    = signed sg (parseFloat (percentBody int frac))
    /\ (forall k : Z,
          numeralValue (int ++ fractionDigits frac)
          = k * 10 ^ Z.of_nat (List.length (fractionDigits frac)) ->
          k <= safeInteger ->
          MarketViz.parsePct (Some (percentCell sg int frac pct))
          = signed sg (of_Z k)).
Proof.
  intros sg int frac pct Hi Hne Hf.
  assert (N : MarketViz.parsePct (Some (percentCell sg int frac pct))
              = parseFloat (remove_first "+"
                   (remove_first "%" (percentCell sg int frac pct)))).
  { unfold percentCell. destruct int as [|d int]; [congruence|].
    now destruct sg. }
  rewrite N, percentCell_stripped by assumption.
  pose proof (scan_unsigned_literal frac Hi Hne Hf) as S.
  assert (B : parseFloat (percentBody int frac)
              = decimal (numeralValue (int ++ fractionDigits frac))
                        (- Z.of_nat (List.length (fractionDigits frac)))).
  { unfold parseFloat, percentBody.
    destruct int as [|d int]; [congruence|].
    assert (Hd : (d < 10)%nat) by now inversion Hi.
    destruct (digitChar_plain Hd) as (W & _).
    change (numeral (d :: int) ++ fractionText frac)%string
      with (String (digitChar d) (numeral int ++ fractionText frac)) in *.
    cbn [trimStart]. rewrite W, (scan_decimal_digit _ Hd), S. reflexivity. }
  assert (M : parseFloat
                ((match sg with Minus => "-" | _ => "" end)
                 ++ numeral int ++ fractionText frac)
              = signed sg (parseFloat (percentBody int frac))).
  { destruct sg; cbn [String.append signed]; try reflexivity.
    rewrite B. unfold parseFloat.
    cbn [trimStart]. change (is_ws "-") with false. cbn iota.
    change (scan_decimal (String "-" (numeral int ++ fractionText frac)))
      with (match scan_unsigned (numeral int ++ fractionText frac) with
            | Some (v, r') => Some (neg v, r')
            | None => None
            end).
    rewrite S. reflexivity. }
  split; [exact M|].
  intros k Hk _. rewrite M, B, Hk. f_equal.
  apply decimal_shift. lia.
Qed.

(** The theorem at the cell "+2.00%", read as 2, and at "-12.5%", read as
    "12.5" is and negated. *)
Lemma percent_cell_read_witness :
  MarketViz.parsePct (Some "+2.00%") = of_Z 2
  /\ MarketViz.parsePct (Some "-12.5%") = neg (parseFloat "12.5").
Proof.
  split.
  - refine (proj2 (@percent_cell_read Plus [2]%nat (Some [0; 0]%nat) true
                     _ _ _) 2 _ _).
    + repeat constructor.
    + discriminate.
    + repeat constructor.
    + reflexivity.
    + vm_compute. discriminate.
  - refine (proj1 (@percent_cell_read Minus [1; 2]%nat (Some [5]%nat) true
                     _ _ _)).
    + repeat constructor.
    + discriminate.
    + repeat constructor.
Defined.

Lemma remove_commas (ts : list (option nat)) :
  digits (digitsOf ts) ->
  remove_all "," (grouped ts) = numeral (digitsOf ts).
Proof.
  induction ts as [|[d|] ts IH]; cbn [grouped digitsOf flat_map app];
    intros H; [reflexivity| |].
  - inversion H as [|? ? Hd Hr]; subst.
    cbn [remove_all numeral]. destruct (digitChar_plain Hd) as (_ & C & _).
    rewrite C. f_equal. now apply IH.
  - cbn [remove_all Ascii.eqb Bool.eqb]. now apply IH.
Qed.

Lemma trimEnd_numeral (ds : list nat) :
  digits ds -> trimEnd (numeral ds) = numeral ds.
Proof.
  induction 1 as [|d ds Hd _ IH]; cbn [numeral trimEnd]; [reflexivity|].
  rewrite IH. destruct (digitChar_plain Hd) as (W & _).
  destruct (numeral ds); [now rewrite W|reflexivity].
Qed.

Lemma trim_numeral (ds : list nat) : digits ds -> trim (numeral ds) = numeral ds.
Proof.
  intros H. unfold trim.
  replace (trimStart (numeral ds)) with (numeral ds);
    [now apply trimEnd_numeral|].
  destruct H as [|d ds Hd _]; cbn [numeral trimStart]; [reflexivity|].
  destruct (digitChar_plain Hd) as (W & _). now rewrite W.
Qed.

(** On digits alone no radix prefix is seen: the text is a decimal
    literal. *)
Lemma string_to_number_numeral (ds : list nat) :
  digits ds -> ds <> [] ->
  string_to_number (numeral ds)
  = match scan_decimal (numeral ds) with
    | Some (v, EmptyString) => v
    | _ => NaN
    end.
Proof.
  intros H Hne. unfold string_to_number. rewrite trim_numeral by assumption.
  destruct H as [|d ds Hd Hr]; [congruence|].
  cbn [numeral]. destruct Hr as [|e es He _]; cbn [numeral].
  - each_digit Hd; reflexivity.
  - each_digit Hd; each_digit He; reflexivity.
Qed.

(** X21.  A count written in digits with commas anywhere between them,
    whose digits spell one of the language's integers, is read as that
    integer: every comma is dropped, and leading zeros change nothing. *)
Theorem grouped_number_read :
  forall ts : list (option nat),
    digits (digitsOf ts) -> digitsOf ts <> [] ->
    numeralValue (digitsOf ts) <= safeInteger ->
    Treemap.parseNumber (Some (grouped ts)) = of_Z (numeralValue (digitsOf ts)).
Proof.
  intros ts H Hne _.
  assert (N : Treemap.parseNumber (Some (grouped ts))
              = string_to_number (remove_all "," (grouped ts))).
  { destruct ts as [|[d|] ts]; [now cbn in Hne|reflexivity|reflexivity]. }
  rewrite N, remove_commas, string_to_number_numeral by assumption.
  pose proof (@scan_unsigned_literal (digitsOf ts) None H Hne
                (Forall_nil _)) as S.
  cbn [fractionText fractionDigits List.length Z.of_nat Z.opp] in S.
  rewrite append_empty, app_nil_r, decimal_unit in S.
  destruct (digitsOf ts) as [|d ds]; [congruence|].
  assert (Hd : (d < 10)%nat) by now inversion H.
  cbn [numeral] in *. rewrite (scan_decimal_digit _ Hd), S. reflexivity.
Qed.

(** The theorem at the cell "1,234,567". *)
Lemma grouped_number_read_witness :
  Treemap.parseNumber (Some "1,234,567") = of_Z 1234567.
Proof.
  apply (@grouped_number_read
           [Some 1; None; Some 2; Some 3; Some 4; None;
            Some 5; Some 6; Some 7]%nat).
  - repeat constructor.
  - discriminate.
  - vm_compute. discriminate.
Defined.

End ParseFacts.
